(** * dotfiles.py: command runner, repository synchronizer, configuration
      resolver and file manager

    A shallow embedding of the core of [dotfiles.py] and the properties
    that its specification claims.

    - [Py]: the fragment of Python's control flow that the program relies
      on (exceptions, [try]/[except], [sys.exit]) as a state-and-exception
      monad;
    - [Logger], and in [Cmd]: [run_command],
      [DotfilesInstaller.clone_dotfiles] and [safe_git_pull], over an
      arbitrary outside world that answers the spawned commands;
    - [Git]: a model of one working copy and its remote, to run the
      synchronizer on repositories;
    - [Config]: the configuration dictionaries in a store of mutable dict
      objects, so that the sharing that [dict.copy] creates is visible;
    - [FS]: [FileManager.backup] and [FileManager.symlink] over a tree of
      files, directories and symbolic links;
    - [Sync], [Exit], [Shape], [FSSpec]: the notions in which the claims are
      stated;
    - [SystemInfo], [Sys], [PackageManager], [ShellEnvironment],
      [PythonEnvironment], [DotfilesInstaller]: the detection of the
      machine and the steps of the installer that run commands or make
      directories and links;
    - [Run], [Machine], [Tree], [Text]: a judgement for the steps, a machine
      to run them on, and notions on trees and texts;
    - [Console]: [ask_yes_no] and the interactive menu over the lines of the
      standard input;
    - then the theorems, one group per component. *)

From stdpp Require Import base strings list pretty.
From Stdlib Require Import ZArith Lia Ascii.

Open Scope string_scope.

(** ** Small pieces of Python's [str] *)

(** The end-of-line character that the f-strings of the source write as
    a backslash followed by [n]. *)
Definition nl : string := String (Ascii.ascii_of_nat 10) EmptyString.

(** [c.isspace()] on the ASCII range. *)
Definition isspace (c : Ascii.ascii) : bool :=
  let n := Ascii.nat_of_ascii c in
  (Nat.leb 9 n && Nat.leb n 13) || (Nat.leb 28 n && Nat.leb n 32).

(** [s.lstrip()] *)
Fixpoint lstrip (s : string) : string :=
  match s with
  | EmptyString => EmptyString
  | String c r => if isspace c then lstrip r else s
  end.

(** [s.rstrip()] *)
Fixpoint rstrip (s : string) : string :=
  match s with
  | EmptyString => EmptyString
  | String c r =>
      match rstrip r with
      | EmptyString => if isspace c then EmptyString else String c EmptyString
      | r' => String c r'
      end
  end.

(** [s.strip()] *)
Definition strip (s : string) : string := rstrip (lstrip s).

(** Truth value of a [str]: the empty string is false. *)
Definition truthy (s : string) : bool :=
  match s with EmptyString => false | _ => true end.

(** [needle in hay] *)
Definition contains (needle hay : string) : bool :=
  match String.index 0 needle hay with Some _ => true | None => false end.

(** [sep.join(xs)] *)
Definition join (sep : string) (xs : list string) : string := String.concat sep xs.

(** [repr] of a list of strings, without the escaping of quotes. *)
Definition repr_list (xs : list string) : string :=
  "[" ++ join ", " (map (fun x => "'" ++ x ++ "'") xs) ++ "]".

(** ** Python control flow *)

Module Py.

(** The exceptions the program meets.  [SystemExit] derives from
    [BaseException] only; the others derive from [Exception]. *)
Inductive exn : Type :=
| CalledProcessError (cmd : list string) (returncode : Z)
                     (stdout stderr : option string)
| FileNotFoundError (filename : string)
| OtherException (what : string)
| SystemExit (code : Z).

(** [isinstance(e, Exception)] *)
Definition is_Exception (e : exn) : bool :=
  match e with SystemExit _ => false | _ => true end.

(** [isinstance(e, subprocess.CalledProcessError)] *)
Definition is_CalledProcessError (e : exn) : bool :=
  match e with CalledProcessError _ _ _ _ => true | _ => false end.

(** [str(e)] for the exceptions that the program formats. *)
Definition str (e : exn) : string :=
  match e with
  | CalledProcessError cmd rc _ _ =>
      "Command '" ++ repr_list cmd ++ "' returned non-zero exit status "
      ++ pretty rc ++ "."
  | FileNotFoundError f => "[Errno 2] No such file or directory: '" ++ f ++ "'"
  | OtherException what => what
  | SystemExit code => pretty code
  end.

(** How a call ends: it returns a value or raises. *)
Inductive result (A : Type) : Type :=
| Return (a : A)
| Raise (e : exn).
Arguments Return {A} a.
Arguments Raise {A} e.

(** A computation over the state [St]. *)
Definition M (St A : Type) : Type := St -> result A * St.

Section Monad.
Context {St : Type}.

Definition ret {A} (a : A) : M St A := fun s => (Return a, s).

Definition bind {A B} (c : M St A) (k : A -> M St B) : M St B :=
  fun s =>
    match c s with
    | (Return a, s') => k a s'
    | (Raise e, s') => (Raise e, s')
    end.

(** [raise e] *)
Definition raise {A} (e : exn) : M St A := fun s => (Raise e, s).

(** [try: body except ...: handler].  The handler answers [None] for an
    exception that none of the [except] clauses matches; an exception raised
    inside the handler leaves the statement. *)
Definition try_except {A} (body : M St A) (handler : exn -> option (M St A)) : M St A :=
  fun s =>
    match body s with
    | (Return a, s') => (Return a, s')
    | (Raise e, s') =>
        match handler e with
        | Some h => h s'
        | None => (Raise e, s')
        end
    end.

(** [sys.exit(code)] *)
Definition sys_exit {A} (code : Z) : M St A := raise (SystemExit code).

Definition modify (f : St -> St) : M St unit := fun s => (Return tt, f s).

Definition gets {A} (f : St -> A) : M St A := fun s => (Return (f s), s).

End Monad.

End Py.

Import Py.

Declare Scope py_scope.
Delimit Scope py_scope with py.
Notation "x <- c ;; k" := (bind c (fun x => k))
  (at level 100, c at next level, right associativity) : py_scope.
Notation "c ;; k" := (bind c (fun _ => k))
  (at level 100, right associativity) : py_scope.
Open Scope py_scope.

(** ** Logger *)

Module Logger.

Inductive stream : Type := stdout | stderr.

(** One call of [Logger._log]: the colour key, the stream the coloured line
    is printed to, and the message that is also appended to the session
    file. *)
Record record : Type := Record_ { color : string; file : stream; message : string }.

Definition stream_eqb (a b : stream) : bool :=
  match a, b with
  | stdout, stdout | stderr, stderr => true
  | _, _ => false
  end.

Definition record_eqb (a b : record) : bool :=
  String.eqb (color a) (color b) && stream_eqb (file a) (file b)
  && String.eqb (message a) (message b).

(** A state that holds what was logged so far, oldest first. *)
Class HasLog (St : Type) : Type :=
  { get_log : St -> list record;
    set_log : list record -> St -> St }.

Section Log.
Context {St : Type} `{HasLog St}.

Definition _log (message : string) (color : string) (file : stream) : M St unit :=
  modify (fun s => set_log (get_log s ++ [Record_ color file message]) s).

Definition info (message : string) : M St unit :=
  _log ("→ " ++ message) "CYAN" stdout.

Definition success (message : string) : M St unit :=
  _log ("✓ " ++ message) "GREEN" stdout.

Definition warning (message : string) : M St unit :=
  _log ("⚠ " ++ message) "YELLOW" stdout.

(** [exit] defaults to [True] in the source. *)
Definition error (message : string) (exit : bool) : M St unit :=
  _log ("✗ " ++ message) "RED" stderr ;;
  if exit then sys_exit 1 else ret tt.

End Log.

(** The records that [warning], [info], [success] and [error] leave. *)
Definition warning_record (message : string) : record :=
  Record_ "YELLOW" stdout ("⚠ " ++ message).
Definition info_record (message : string) : record :=
  Record_ "CYAN" stdout ("→ " ++ message).
Definition success_record (message : string) : record :=
  Record_ "GREEN" stdout ("✓ " ++ message).
Definition error_record (message : string) : record :=
  Record_ "RED" stderr ("✗ " ++ message).

Definition logged (r : record) (l : list record) : bool :=
  existsb (record_eqb r) l.

End Logger.

(** ** The command runner and the repository synchronizer *)

Module Cmd.

(** What the operating system answers when a command is spawned. *)
Inductive spawned : Type :=
| Exited (returncode : Z) (out err : string)
| ExecNotFound
| ExecFailed (what : string).

(** The outside world: it answers a spawned command ([argv], working
    directory, standard input) and changes by it, and it tells whether a
    path exists. *)
Class World (W : Type) : Type :=
  { spawn : W -> list string -> option string -> option string -> spawned * W;
    path_exists : W -> string -> bool }.

(** One call of [subprocess.run]: [argv] and working directory.  The
    state keeps the calls made so far, oldest first; the program does not
    read them. *)
Definition call : Type := (list string * option string)%type.

Record state (W : Type) : Type :=
  State { world : W;
          log : list Logger.record;
          calls : list call }.
Arguments State {W}.
Arguments world {W}.
Arguments log {W}.
Arguments calls {W}.

#[global] Instance state_log {W} : Logger.HasLog (state W) :=
  {| Logger.get_log := log;
     Logger.set_log := fun l s => State (world s) l (calls s) |}.

(** [subprocess.CompletedProcess] *)
Record CompletedProcess : Type :=
  Completed { args : list string; returncode : Z;
              stdout : option string; stderr : option string }.

Section Commands.
Context {W : Type} `{World W}.

(** [subprocess.run(cmd, check=, capture_output=, text=True, input=, cwd=)]
    as the standard library documents it: an empty [argv] raises
    [IndexError] before anything is spawned, a missing executable raises
    [FileNotFoundError], and a non-zero exit raises [CalledProcessError]
    when [check] is set.  Without [capture_output] the streams are [None]. *)
Definition subprocess_run (cmd : list string) (check capture_output : bool)
    (input cwd : option string) : M (state W) CompletedProcess :=
  fun s =>
    match cmd with
    | [] => (Raise (OtherException "IndexError: list index out of range"), s)
    | exe :: _ =>
        let '(r, w') := spawn (world s) cmd cwd input in
        let s' := State w' (log s) (calls s ++ [(cmd, cwd)]) in
        match r with
        | Exited rc out err =>
            let o := if capture_output then Some out else None in
            let e := if capture_output then Some err else None in
            if check && negb (rc =? 0)%Z
            then (Raise (CalledProcessError cmd rc o e), s')
            else (Return (Completed cmd rc o e), s')
        | ExecNotFound => (Raise (FileNotFoundError exe), s')
        | ExecFailed what => (Raise (OtherException what), s')
        end
    end.

(** Truth value of an optional [str] ([None] and the empty string are false). *)
Definition some_text (o : option string) : option string :=
  match o with
  | Some EmptyString | None => None
  | Some t => Some t
  end.

(** The message that [run_command] builds for a [CalledProcessError]. *)
Definition failure_message (cmd : list string) (cwd : option string)
    (returncode : Z) (out err : option string) : string :=
  let error_msg := "Command failed: " ++ join " " cmd in
  let error_msg :=
    match cwd with
    | Some d => error_msg ++ nl ++ "Working directory: " ++ d
    | None => error_msg
    end in
  let error_msg := error_msg ++ nl ++ "Return code: " ++ pretty returncode in
  let error_msg :=
    match some_text out with
    | Some t => error_msg ++ nl ++ "Stdout: " ++ t
    | None => error_msg
    end in
  match some_text err with
  | Some t => error_msg ++ nl ++ "Stderr: " ++ t
  | None => error_msg
  end.

(** [run_command(cmd, check=True, capture_output=True, text=True,
    input=None, cwd=None)].  Each handler calls [Logger().error] with the
    default [exit=True] and then has a bare [raise]. *)
Definition run_command (cmd : list string) (check capture_output : bool)
    (input cwd : option string) : M (state W) CompletedProcess :=
  try_except
    (result <- subprocess_run cmd check capture_output input cwd ;;
     ret result)
    (fun e =>
       match e with
       | CalledProcessError _ rc out err =>
           Some (Logger.error (failure_message cmd cwd rc out err) true ;;
                 raise e)
       | FileNotFoundError _ =>
           Some (match cmd with
                 | [] => raise (OtherException "IndexError: list index out of range")
                 | cmd0 :: _ =>
                     Logger.error ("Command not found: " ++ cmd0 ++ nl
                                   ++ "Full command: " ++ join " " cmd) true ;;
                     raise e
                 end)
       | OtherException _ =>
           Some (Logger.error ("Unexpected error running command: "
                               ++ join " " cmd ++ nl ++ "Error: " ++ str e) true ;;
                 raise e)
       | SystemExit _ => None
       end).

(** [run_command(cmd, cwd=d)] with the defaults [check=True],
    [capture_output=True] and [input=None]: the form of every call that the
    synchronizer makes inside a repository. *)
Definition git (cmd : list string) (cwd : string) : M (state W) CompletedProcess :=
  run_command cmd true true None (Some cwd).

(** [result.stdout] used as a [str]; on [None] Python raises
    [AttributeError] at the method call. *)
Definition stdout_text (r : CompletedProcess) : M (state W) string :=
  match stdout r with
  | Some t => ret t
  | None => raise (OtherException "AttributeError: 'NoneType' object")
  end.

Definition repo_url : string := "https://github.com/alamin-mahamud/.dotfiles.git".

(** The label under which [clone_dotfiles] stashes. *)
Definition stash_label : string := "Auto-stash before pull".

Definition conflict_warning : string :=
  "Conflicts detected when applying stash. Please resolve manually.".

(** [DotfilesInstaller.clone_dotfiles], with [dotfiles_root] the value of
    [self.config.get('dotfiles_root')]. *)
Definition clone_dotfiles (dotfiles_root : string) : M (state W) unit :=
  root_exists <- gets (fun s => path_exists (world s) dotfiles_root) ;;
  (if root_exists : bool then
     Logger.info "Checking dotfiles repository status" ;;
     try_except
       (git ["git"; "rev-parse"; "--git-dir"] dotfiles_root ;;
        status_result <- git ["git"; "status"; "--porcelain"] dotfiles_root ;;
        status_out <- stdout_text status_result ;;
        if truthy (strip status_out) then
          Logger.warning "Uncommitted changes detected in dotfiles repository" ;;
          Logger.info "Stashing local changes..." ;;
          git ["git"; "stash"; "push"; "-m"; stash_label] dotfiles_root ;;
          Logger.info "Pulling latest changes" ;;
          git ["git"; "pull"; "--rebase"] dotfiles_root ;;
          stash_list <- git ["git"; "stash"; "list"] dotfiles_root ;;
          stash_out <- stdout_text stash_list ;;
          if contains stash_label stash_out then
            Logger.info "Reapplying stashed changes" ;;
            try_except
              (git ["git"; "stash"; "pop"] dotfiles_root ;;
               ret tt)
              (fun e =>
                 if is_CalledProcessError e then
                   Some (Logger.warning conflict_warning ;;
                         Logger.info "Run 'git stash pop' in the dotfiles directory to apply changes")
                 else None)
          else ret tt
        else
          Logger.info "Updating dotfiles repository" ;;
          git ["git"; "pull"] dotfiles_root ;;
          ret tt)
       (fun e =>
          if is_CalledProcessError e then
            Some (Logger.error ("Failed to update repository: " ++ str e) true ;;
                  Logger.info "Continuing with existing dotfiles...")
          else None)
   else
     Logger.info "Cloning dotfiles repository" ;;
     try_except
       (run_command ["git"; "clone"; repo_url; dotfiles_root] true true None None ;;
        ret tt)
       (fun e =>
          if is_CalledProcessError e then
            Some (Logger.error ("Failed to clone repository: " ++ str e) true ;;
                  raise e)
          else None)) ;;
  Logger.success "Dotfiles repository ready".

(** [safe_git_pull(repo_path, repo_name)].  [Some b] inside the body stands
    for an executed [return b]; [None] for falling through to the next
    statement. *)
Definition safe_git_pull (repo_path repo_name : string) : M (state W) bool :=
  try_except
    (git ["git"; "rev-parse"; "--git-dir"] repo_path ;;
     status <- git ["git"; "status"; "--porcelain"] repo_path ;;
     status_out <- stdout_text status ;;
     returned <-
       (if truthy (strip status_out) then
          Logger.warning ("Uncommitted changes in " ++ repo_name) ;;
          try_except
            (git ["git"; "stash"; "push"; "-m"; "Auto-stash for " ++ repo_name] repo_path ;;
             Logger.info ("Stashed local changes in " ++ repo_name) ;;
             git ["git"; "pull"; "--rebase"] repo_path ;;
             try_except
               (git ["git"; "stash"; "pop"] repo_path ;;
                Logger.info ("Reapplied stashed changes in " ++ repo_name))
               (fun e =>
                  if is_CalledProcessError e then
                    Some (Logger.warning ("Conflicts in " ++ repo_name
                            ++ ". Run 'git stash pop' manually to resolve."))
                  else None) ;;
             ret None)
            (fun e =>
               if is_CalledProcessError e then
                 Some (Logger.error ("Failed to update " ++ repo_name ++ ": " ++ str e) true ;;
                       ret (Some false))
               else None)
        else
          git ["git"; "pull"] repo_path ;;
          ret None) ;;
     match returned with
     | Some b => ret b
     | None => ret true
     end)
    (fun e =>
       if is_CalledProcessError e then
         Some (Logger.error ("Git operation failed for " ++ repo_name ++ ": " ++ str e) true ;;
               ret false)
       else if is_Exception e then
         Some (Logger.error ("Unexpected error updating " ++ repo_name ++ ": " ++ str e) true ;;
               ret false)
       else None).

End Commands.

End Cmd.

Import Cmd.

(** ** A model of one working copy and its remote

    The synchronizer only talks to [git]; to run it on concrete
    repositories the world below keeps one working copy at [root] and the
    history of its remote.  A commit is the list of files it changes.  The
    local branch has no commits of its own, so its [HEAD] is the number of
    remote commits it has; uncommitted work is a list of modified tracked
    files.  Reapplying a stash conflicts when a commit pulled since the stash
    was made changes one of the stashed files. *)

Module Git.

Definition commit : Type := list string.

(** A stash entry: its message, the [HEAD] it was made on, the files. *)
Record entry : Type := Entry { label : string; base : nat; files : list string }.

Record t : Type :=
  Repo { root : string;
         present : bool;            (* the path exists *)
         is_git : bool;             (* and holds a repository *)
         HEAD : nat;
         changes : list string;
         stash : list entry;        (* newest first *)
         remote : list commit;      (* oldest first *)
         reachable : bool }.

Inductive command : Type :=
| RevParse | Status | StashPush (message : string) | StashList | StashPop
| Pull (rebase : bool) | Clone (url dir : string).

Definition argv_eqb (a b : list string) : bool :=
  Nat.eqb (length a) (length b) && forallb (fun p => String.eqb (fst p) (snd p)) (combine a b).

Definition parse (argv : list string) : option command :=
  if argv_eqb argv ["git"; "rev-parse"; "--git-dir"] then Some RevParse
  else if argv_eqb argv ["git"; "status"; "--porcelain"] then Some Status
  else if argv_eqb argv ["git"; "stash"; "list"] then Some StashList
  else if argv_eqb argv ["git"; "stash"; "pop"] then Some StashPop
  else if argv_eqb argv ["git"; "pull"] then Some (Pull false)
  else if argv_eqb argv ["git"; "pull"; "--rebase"] then Some (Pull true)
  else match argv with
       | [g; a; b; c; d] =>
           if argv_eqb [g; a; b; c] ["git"; "stash"; "push"; "-m"]
           then Some (StashPush d) else None
       | [g; a; url; dir] =>
           if argv_eqb [g; a] ["git"; "clone"] then Some (Clone url dir) else None
       | _ => None
       end.

Definition touches (fs : list string) (c : commit) : bool :=
  existsb (fun f => existsb (String.eqb f) c) fs.

(** The commits between [from] and the end of [history]. *)
Definition since (from : nat) (history : list commit) : list commit :=
  drop from history.

Definition porcelain (fs : list string) : string :=
  String.concat "" (map (fun f => " M " ++ f ++ nl) fs).

Fixpoint stash_lines (i : nat) (es : list entry) : string :=
  match es with
  | [] => ""
  | e :: r =>
      "stash@{" ++ pretty i ++ "}: On main: " ++ label e ++ nl ++ stash_lines (S i) r
  end.


(** What [git] answers to a command run inside the working copy. *)
Definition run_in_repo (c : command) (g : t) : spawned * t :=
  match c with
  | RevParse => (Exited 0 (".git" ++ nl) "", g)
  | Status => (Exited 0 (porcelain (changes g)) "", g)
  | StashPush message =>
      match changes g with
      | [] => (Exited 0 ("No local changes to save" ++ nl) "", g)
      | fs =>
          (Exited 0 ("Saved working directory and index state On main: " ++ message ++ nl) "",
           Repo (root g) (present g) (is_git g) (HEAD g) []
                (Entry message (HEAD g) fs :: stash g) (remote g) (reachable g))
      end
  | StashList => (Exited 0 (stash_lines 0 (stash g)) "", g)
  | StashPop =>
      match stash g with
      | [] => (Exited 1 "" ("No stash entries found." ++ nl), g)
      | e :: rest =>
          if existsb (touches (files e)) (since (base e) (take (HEAD g) (remote g)))
          then
            (* conflict: the files are left with markers, the entry is kept *)
            (Exited 1 ("CONFLICT (content): Merge conflict" ++ nl)
                      ("The stash entry is kept in case you need it again." ++ nl),
             Repo (root g) (present g) (is_git g) (HEAD g) (files e ++ changes g)
                  (stash g) (remote g) (reachable g))
          else
            (Exited 0 ("Dropped refs/stash@{0}" ++ nl) "",
             Repo (root g) (present g) (is_git g) (HEAD g) (files e ++ changes g)
                  rest (remote g) (reachable g))
      end
  | Pull rebase =>
      if negb (reachable g)
      then (Exited 1 "" ("fatal: unable to access the remote" ++ nl), g)
      else if rebase && truthy (porcelain (changes g))
      then (Exited 128 "" ("error: cannot pull with rebase: You have unstaged changes." ++ nl), g)
      else if existsb (touches (changes g)) (since (HEAD g) (remote g))
      then (Exited 1 "" ("error: Your local changes would be overwritten by merge" ++ nl), g)
      else
        (Exited 0 ("Already up to date." ++ nl) "",
         Repo (root g) (present g) (is_git g) (length (remote g) `max` HEAD g)
              (changes g) (stash g) (remote g) (reachable g))
  | Clone _ _ => (Exited 128 "" ("fatal: destination path already exists" ++ nl), g)
  end.

(** The answer to any spawned command. *)
Definition git_spawn (g : t) (argv : list string) (cwd input : option string)
    : spawned * t :=
  match argv with
  | exe :: _ =>
      if negb (String.eqb exe "git") then (ExecNotFound, g)
      else
        match parse argv, cwd with
        | Some (Clone url dir), None =>
            if negb (String.eqb dir (root g))
            then (Exited 128 "" ("fatal: could not create work tree" ++ nl), g)
            else if present g
            then (Exited 128 "" ("fatal: destination path already exists" ++ nl), g)
            else if negb (reachable g)
            then (Exited 128 "" ("fatal: unable to access the remote" ++ nl), g)
            else
              (Exited 0 "" ("Cloning into the destination" ++ nl),
               Repo (root g) true true (length (remote g)) [] [] (remote g) (reachable g))
        | Some c, Some d =>
            if negb (String.eqb d (root g) && present g)
            then (ExecFailed "[Errno 2] No such file or directory", g)
            else if negb (is_git g)
            then (Exited 128 "" ("fatal: not a git repository" ++ nl), g)
            else run_in_repo c g
        | _, _ => (Exited 129 "" ("usage: git" ++ nl), g)
        end
  | [] => (ExecFailed "empty argv", g)
  end.

#[global] Instance git_world : World t :=
  {| spawn := git_spawn;
     path_exists := fun g p => String.eqb p (root g) && present g |}.

(** The state in which a run starts: nothing logged, nothing spawned. *)
Definition start (g : t) : state t := State g [] [].


(** *** Some repositories

    The remote has two commits, the working copy has the first. *)
Definition dotfiles : string := "/home/user/Work/.dotfiles".

Definition history : list commit := [["zsh/.zshrc"]; ["tmux/.tmux.conf"]].

(** Nothing uncommitted. *)
Definition clean : t := Repo dotfiles true true 1 [] [] history true.

(** Nothing uncommitted, and the remote cannot be reached. *)
Definition offline : t := Repo dotfiles true true 1 [] [] history false.

(** One modified file that the new commit of the remote does not change. *)
Definition dirty : t := Repo dotfiles true true 1 ["nvim/init.lua"] [] history true.

(** One modified file that the new commit of the remote changes too. *)
Definition conflicting : t := Repo dotfiles true true 1 ["tmux/.tmux.conf"] [] history true.


End Git.

(** ** Insertion-ordered dictionaries

    Python's [dict] keeps its items in insertion order; the same operations
    serve for the entries of a directory. *)

Module Dict.

(** [key in d] and [d.get(key)] *)
Fixpoint lookup {A} (key : string) (d : list (string * A)) : option A :=
  match d with
  | [] => None
  | (k, v) :: r => if String.eqb k key then Some v else lookup key r
  end.

(** [d[key] = v]: an existing key keeps its place, a new one goes last. *)
Fixpoint setitem {A} (key : string) (v : A) (d : list (string * A)) : list (string * A) :=
  match d with
  | [] => [(key, v)]
  | (k, x) :: r => if String.eqb k key then (k, v) :: r else (k, x) :: setitem key v r
  end.

(** [del d[key]] *)
Fixpoint remove {A} (key : string) (d : list (string * A)) : list (string * A) :=
  match d with
  | [] => []
  | (k, x) :: r => if String.eqb k key then r else (k, x) :: remove key r
  end.

Definition keys {A} (d : list (string * A)) : list string := map fst d.

Definition has_key {A} (key : string) (d : list (string * A)) : bool :=
  match lookup key d with Some _ => true | None => false end.

End Dict.

(** ** Config *)

Module Config.

(** *** Values

    What [json.load] builds, and what the literal of [DEFAULT_CONFIG]
    writes, is a tree.  Integers stand for the numbers; a float is kept as
    its literal. *)
#[warnings="-register-all"]
Inductive tree : Type :=
| TNone
| TBool (b : bool)
| TInt (n : Z)
| TFloat (literal : string)
| TStr (s : string)
| TPath (p : string)
| TList (xs : list tree)
| TDict (items : list (string * tree)).

(** Dict objects are mutable and may be shared, so they live in a store and
    are held by reference.  Everything else is never mutated by this
    program and is kept by value; a list keeps its elements as a tree, as
    neither [_merge_config] nor [get] looks inside a list. *)
Abbreviation loc := nat.

Inductive atom : Type :=
| ANone
| ABool (b : bool)
| AInt (n : Z)
| AFloat (literal : string)
| AStr (s : string)
| APath (p : string)
| AList (xs : list tree).

Inductive val : Type :=
| Atom (a : atom)
| Ref (l : loc).

(** A dict object: its items in insertion order. *)
Abbreviation dict := (list (string * val)).

Abbreviation store := (list dict).

(** The object at a location (no object: no items). *)
Definition deref (h : store) (l : loc) : dict := default [] (h !! l).

Definition tree_of_atom (a : atom) : tree :=
  match a with
  | ANone => TNone
  | ABool b => TBool b
  | AInt n => TInt n
  | AFloat x => TFloat x
  | AStr s => TStr s
  | APath p => TPath p
  | AList xs => TList xs
  end.

(** Places a tree in the store: every dict in it (outside lists) becomes a
    fresh object. *)
Fixpoint place (t : tree) (h : store) {struct t} : val * store :=
  match t with
  | TDict items =>
      let '(d, h1) :=
        (fix place_items (items : list (string * tree)) (h : store) {struct items}
           : dict * store :=
           match items with
           | [] => ([], h)
           | (k, x) :: r =>
               let '(v, h1) := place x h in
               let '(d, h2) := place_items r h1 in
               ((k, v) :: d, h2)
           end) items h in
      (Ref (length h1), (h1 ++ [d])%list)
  | TNone => (Atom ANone, h)
  | TBool b => (Atom (ABool b), h)
  | TInt n => (Atom (AInt n), h)
  | TFloat x => (Atom (AFloat x), h)
  | TStr s => (Atom (AStr s), h)
  | TPath p => (Atom (APath p), h)
  | TList xs => (Atom (AList xs), h)
  end.

(** *** The class *)

(** [Config._merge_config(base, update)], on the items of [update].

    [update] comes straight from [json.load] and nothing else refers to its
    objects, so it is kept as a tree until [base[key] = value] makes a value
    reachable from the configuration; its dicts are placed in the store at
    that assignment.  [base] is an object of the store and is updated in
    place. *)
Fixpoint merge_value (update : tree) (base : loc) (h : store) {struct update} : store :=
  match update with
  | TDict items =>
      (fix merge_items (items : list (string * tree)) (h : store) {struct items} : store :=
         match items with
         | [] => h
         | (key, value) :: rest =>
             merge_items rest
               match Dict.lookup key (deref h base), value with
               | Some (Ref b), TDict _ => merge_value value b h
               | _, _ =>
                   let '(v, h1) := place value h in
                   <[base := Dict.setitem key v (deref h1 base)]> h1
               end
         end) items h
  | _ => h
  end.

Definition _merge_config (base : loc) (update : list (string * tree)) (h : store) : store :=
  merge_value (TDict update) base h.

(** [d.copy()]: a new object with the same items, and so the same
    references. *)
Definition dict_copy (l : loc) : M store loc :=
  fun h => (Return (length h), (h ++ [deref h l])%list).

(** The literal of [DEFAULT_CONFIG], for a home directory. *)
Definition DEFAULT_CONFIG_literal (home : string) : tree :=
  TDict
    [("dotfiles_root", TPath (home ++ "/Work/.dotfiles"));
     ("backup_dir", TPath (home ++ "/.dotfiles-backup"));
     ("shell", TDict [("default", TStr "zsh"); ("theme", TStr "powerlevel10k")]);
     ("tools", TList [TStr "ripgrep"; TStr "fd"; TStr "bat"; TStr "eza"; TStr "fzf";
                      TStr "tmux"; TStr "neovim"; TStr "htop"; TStr "jq"; TStr "tldr"]);
     ("fonts", TList [TStr "FiraCode"; TStr "JetBrainsMono"; TStr "Iosevka"])].

(** The store when the class has been defined, and where its attribute
    [DEFAULT_CONFIG] is. *)
Definition class_store (home : string) : store := snd (place (DEFAULT_CONFIG_literal home) []).

Definition DEFAULT_CONFIG : loc := 1.

(** What reading the configuration file gives: [None] when no file is
    named or the named file does not exist, otherwise what [json.load]
    makes of it, [None] for text that does not parse. *)
Definition config_file : Type := option (option tree).

(** [Config.__init__(config_file)]; the result is [self.config]. *)
Definition __init__ (file : config_file) : M store loc :=
  config <- dict_copy DEFAULT_CONFIG ;;
  match file with
  | None => ret config
  | Some None => raise (OtherException "json.JSONDecodeError")
  | Some (Some (TDict user_config)) =>
      modify (_merge_config config user_config) ;;
      ret config
  | Some (Some _) => raise (OtherException "AttributeError: object has no attribute 'items'")
  end.

(** [key.split('.')] *)
Fixpoint split (sep : Ascii.ascii) (s : string) : list string :=
  match s with
  | EmptyString => [EmptyString]
  | String c r =>
      if Ascii.eqb c sep then EmptyString :: split sep r
      else match split sep r with
           | x :: xs => String c x :: xs
           | [] => [String c EmptyString]
           end
  end.

(** The loop of [Config.get] over the segments of the key. *)
Fixpoint get_loop (h : store) (keys : list string) (value default : val) : val :=
  match keys with
  | [] => value
  | k :: ks =>
      match value with
      | Ref l =>
          match Dict.lookup k (deref h l) with
          | None | Some (Atom ANone) => default
          | Some v => get_loop h ks v default
          end
      | Atom _ => default
      end
  end.

(** [Config.get(key, default)] on the instance whose [self.config] is
    [config]. *)
Definition get (h : store) (config : loc) (key : string) (default : val) : val :=
  get_loop h (split "."%char key) (Ref config) default.

End Config.

(** ** FileManager *)

Module FS.

(** *** The file system

    Regular files, directories and symbolic links, as a tree.  A path is the
    list of its components from the root; link targets are such paths too.
    Permissions, special files and the components [.] and [..] are not
    modelled. *)
Definition path : Type := list string.

#[warnings="-register-all"]
Inductive node : Type :=
| File (content : string) (stat : nat)
| Symlink (target : path)
| Dir (entries : list (string * node)).

(** [path.parent] and [path.name] *)
Definition parent (p : path) : path := List.removelast p.
Definition name (p : path) : string := List.last p "".

(** [str(path)] *)
Definition show (p : path) : string := "/" ++ join "/" p.

(** The node at a path when no link is followed. *)
Fixpoint walk (n : node) (p : path) : option node :=
  match p with
  | [] => Some n
  | c :: r =>
      match n with
      | Dir es =>
          match Dict.lookup c es with
          | Some m => walk m r
          | None => None
          end
      | _ => None
      end
  end.

(** Sets ([Some]) or removes ([None]) the entry at a path, all of whose
    proper prefixes must be directories. *)
Fixpoint set_entry (n : node) (p : path) (x : option node) : option node :=
  match p, n with
  | [c], Dir es =>
      Some (Dir match x with
                | Some m => Dict.setitem c m es
                | None => Dict.remove c es
                end)
  | c :: r, Dir es =>
      match Dict.lookup c es with
      | Some m =>
          match set_entry m r x with
          | Some m' => Some (Dir (Dict.setitem c m' es))
          | None => None
          end
      | None => None
      end
  | _, _ => None
  end.

(** The number of links the kernel follows before it gives up. *)
Definition MAXSYMLINKS : nat := 40.

(** Resolution of [todo] below the link-free directory path [done]: every
    link met is followed; [None] when a component is missing or the links
    do not end. *)
Fixpoint resolve (fuel : nat) (fs : node) (done todo : path) {struct fuel} : option path :=
  match fuel with
  | O => None
  | S fuel' =>
      (fix go (done todo : path) {struct todo} : option path :=
         match todo with
         | [] => Some done
         | c :: r =>
             match walk fs (done ++ [c])%list with
             | None => None
             | Some (Symlink t) => resolve fuel' fs [] (t ++ r)%list
             | Some _ => go (done ++ [c])%list r
             end
         end) done todo
  end.

(** [os.path.realpath] of an existing path. *)
Definition realpath (fs : node) (p : path) : option path :=
  resolve (S MAXSYMLINKS) fs [] p.

(** [os.stat]: the object a path leads to. *)
Definition stat_node (fs : node) (p : path) : option node :=
  match realpath fs p with
  | Some q => walk fs q
  | None => None
  end.

(** Where the last component of a path lives, links in the directory part
    followed. *)
Definition locate (fs : node) (p : path) : option path :=
  match p with
  | [] => Some []
  | _ =>
      match realpath fs (parent p) with
      | Some q => Some (q ++ [name p])%list
      | None => None
      end
  end.

(** [os.lstat]: the object a path names, a final link not followed. *)
Definition lstat (fs : node) (p : path) : option node :=
  match locate fs p with
  | Some q => walk fs q
  | None => None
  end.

(** [Path.exists], [Path.is_dir], [Path.is_symlink] *)
Definition Path_exists (fs : node) (p : path) : bool :=
  match stat_node fs p with Some _ => true | None => false end.

Definition Path_is_dir (fs : node) (p : path) : bool :=
  match stat_node fs p with Some (Dir _) => true | _ => false end.

Definition Path_is_symlink (fs : node) (p : path) : bool :=
  match lstat fs p with Some (Symlink _) => true | _ => false end.

(** [Path.resolve()] (not strict): links are followed as far as the path
    exists; a path that cannot be resolved is left as it is. *)
Definition Path_resolve (fs : node) (p : path) : path :=
  match realpath fs p with
  | Some q => q
  | None => p
  end.

(** [os.listdir] *)
Definition listdir (fs : node) (p : path) : list string :=
  match stat_node fs p with
  | Some (Dir es) => Dict.keys es
  | _ => []
  end.

(** The depth to which [shutil.copytree] can recurse. *)
Definition RECURSION_LIMIT : nat := 400.

(** What [shutil.copy2] and [shutil.copytree] (with [symlinks=False]) write
    for an object: links are replaced by what they lead to; [None] when a
    link leads nowhere. *)
Fixpoint snapshot (fuel : nat) (fs : node) (n : node) {struct fuel} : option node :=
  match fuel with
  | O => None
  | S fuel' =>
      match n with
      | File c m => Some (File c m)
      | Symlink t =>
          match stat_node fs t with
          | Some n' => snapshot fuel' fs n'
          | None => None
          end
      | Dir es =>
          option_map Dir
            ((fix each (es : list (string * node)) : option (list (string * node)) :=
                match es with
                | [] => Some []
                | (k, x) :: r =>
                    match snapshot fuel' fs x, each r with
                    | Some x', Some r' => Some ((k, x') :: r')
                    | _, _ => None
                    end
                end) es)
      end
  end.

(** *** The state of a run *)

(** [datetime.now()] *)
Record datetime : Type :=
  DateTime { year : nat; month : nat; day : nat; hour : nat; minute : nat; second : nat }.

Definition pad (width n : nat) : string :=
  let digits := pretty n in
  String.concat "" (replicate (width - String.length digits) "0") ++ digits.

(** [now.strftime('%Y%m%d_%H%M%S')] *)
Definition strftime (t : datetime) : string :=
  pad 4 (year t) ++ pad 2 (month t) ++ pad 2 (day t) ++ "_"
  ++ pad 2 (hour t) ++ pad 2 (minute t) ++ pad 2 (second t).

Record state : Type :=
  State { root : node; now : datetime; log : list Logger.record }.

#[global] Instance state_log : Logger.HasLog state :=
  {| Logger.get_log := log;
     Logger.set_log := fun l s => State (root s) (now s) l |}.

Definition set_root (fs : node) (s : state) : state := State fs (now s) (log s).

(** Writes an entry, or raises. *)
Definition write (q : path) (x : option node) (error : string) : M state unit :=
  fun s =>
    match set_entry (root s) q x with
    | Some fs' => (Return tt, set_root fs' s)
    | None => (Raise (OtherException error), s)
    end.

(** *** Library calls *)

(** [shutil.copy2(src, dst)]: the content and the metadata of the file
    that [src] leads to, written to [dst] (into [dst] when it is a
    directory, over it when it is a file). *)
Definition copy2 (src dst : path) : M state unit :=
  fs <- gets root ;;
  match stat_node fs src with
  | Some (File c m) =>
      let dst := if Path_is_dir fs dst then (dst ++ [name src])%list else dst in
      match realpath fs dst with
      | Some q =>
          if decide (Some q = realpath fs src)
          then raise (OtherException "shutil.SameFileError")
          else match walk fs q with
               | Some (Dir _) => raise (OtherException "IsADirectoryError")
               | _ => write q (Some (File c m)) "OSError"
               end
      | None =>
          match lstat fs dst, locate fs dst with
          | None, Some q => write q (Some (File c m)) "OSError"
          | _, _ => raise (OtherException "FileNotFoundError")
          end
      end
  | Some (Dir _) => raise (OtherException "IsADirectoryError")
  | _ => raise (FileNotFoundError (show src))
  end.

(** [shutil.copytree(src, dst)]: [dst] must not exist.  A copy that fails
    midway is modelled as leaving nothing behind. *)
Definition copytree (src dst : path) : M state unit :=
  fs <- gets root ;;
  match stat_node fs src with
  | Some (Dir es) =>
      match lstat fs dst, locate fs dst with
      | None, Some q =>
          match snapshot RECURSION_LIMIT fs (Dir es) with
          | Some copy => write q (Some copy) "OSError"
          | None => raise (OtherException "shutil.Error")
          end
      | Some _, _ => raise (OtherException "FileExistsError")
      | None, None => raise (OtherException "FileNotFoundError")
      end
  | Some _ => raise (OtherException "NotADirectoryError")
  | None => raise (FileNotFoundError (show src))
  end.

(** [Path.unlink()] *)
Definition unlink (p : path) : M state unit :=
  fs <- gets root ;;
  match lstat fs p, locate fs p with
  | Some (Dir _), _ => raise (OtherException "IsADirectoryError")
  | Some _, Some q => write q None "OSError"
  | _, _ => raise (FileNotFoundError (show p))
  end.

(** The directories that [mkdir(parents=True, exist_ok=True)] creates on
    the way from the directory [done] along [todo]. *)
Fixpoint makedirs (fs : node) (done todo : path) : option node :=
  match todo with
  | [] => Some fs
  | c :: r =>
      match resolve (S MAXSYMLINKS) fs done [c] with
      | Some q =>
          match walk fs q with
          | Some (Dir _) => makedirs fs q r
          | _ => None
          end
      | None =>
          match walk fs (done ++ [c])%list with
          | None =>
              match set_entry fs (done ++ [c])%list (Some (Dir [])) with
              | Some fs' => makedirs fs' (done ++ [c])%list r
              | None => None
              end
          | Some _ => None
          end
      end
  end.

(** [p.mkdir(parents=True, exist_ok=True)] *)
Definition mkdir_parents (p : path) : M state unit :=
  fun s =>
    match makedirs (root s) [] p with
    | Some fs' => (Return tt, set_root fs' s)
    | None => (Raise (OtherException "FileExistsError"), s)
    end.

(** [target.symlink_to(source)] *)
Definition symlink_to (target source : path) : M state unit :=
  fs <- gets root ;;
  match lstat fs target, locate fs target with
  | None, Some q => write q (Some (Symlink source)) "OSError"
  | Some _, _ => raise (OtherException "FileExistsError")
  | None, None => raise (FileNotFoundError (show target))
  end.

(** *** The class *)

(** [path.parent / f"{path.name}.backup.{timestamp}"] *)
Definition backup_path_of (p : path) (timestamp : string) : path :=
  (parent p ++ [(name p ++ ".backup." ++ timestamp)%string])%list.

(** [FileManager.backup(path)] *)
Definition backup (path : path) : M state FS.path :=
  fs <- gets root ;;
  if negb (Path_exists fs path) then ret path
  else
    timestamp <- gets (fun s => strftime (now s)) ;;
    let backup_path := backup_path_of path timestamp in
    (if Path_is_dir fs path
     then copytree path backup_path
     else copy2 path backup_path) ;;
    Logger.success ("Backed up " ++ show path ++ " to " ++ show backup_path) ;;
    ret backup_path.

(** [FileManager.symlink(source, target, backup=True)] *)
Definition symlink (source target : path) (backup_flag : bool) : M state unit :=
  fs <- gets root ;;
  let source := Path_resolve fs source in
  if negb (Path_exists fs source) then
    Logger.error ("Source " ++ show source ++ " does not exist") true ;;
    ret tt
  else
    (if Path_exists fs target || Path_is_symlink fs target then
       (if backup_flag then backup target ;; ret tt else ret tt) ;;
       unlink target
     else ret tt) ;;
    mkdir_parents (parent target) ;;
    symlink_to target source ;;
    Logger.success ("Created symlink " ++ show target ++ " → " ++ show source).

(** [FileManager.ensure_dir(path)] *)
Definition ensure_dir (path : path) : M state FS.path :=
  mkdir_parents path ;;
  ret path.

End FS.

(** ** Outcomes of a synchronizer run, in the words of the specification *)

Module Sync.






End Sync.

(** ** A judgement for runs that can only end by leaving the process *)

Module Exit.

Section Judgement.
Context {W : Type}.

(** [exits_or P c Q]: from every state, [c] adds to the log only records
    that satisfy [P], and it either returns a value that satisfies [Q] or
    raises [SystemExit(1)]. *)
Definition exits_or (P : Logger.record -> Prop) {A} (c : M (state W) A)
    (Q : A -> Prop) : Prop :=
  forall s, exists l,
    log (snd (c s)) = (log s ++ l)%list /\ Forall P l
    /\ match fst (c s) with
       | Return a => Q a
       | Raise e => e = SystemExit 1
       end.

End Judgement.

(** The two records that only a handler of [clone_dotfiles] writes. *)
Definition continuing : Logger.record :=
  Logger.info_record "Continuing with existing dotfiles...".

Definition conflict : Logger.record := Logger.warning_record conflict_warning.

(** The records that are neither of two given ones. *)
Definition neither (r1 r2 : Logger.record) (r : Logger.record) : Prop :=
  Logger.record_eqb r1 r = false /\ Logger.record_eqb r2 r = false.

End Exit.

(** ** Reading configurations back out of the store *)

Module Shape.

Import Config.

(** A located tree: a tree of which every dict (outside lists) names the
    object that holds it.  It describes a region of a store. *)
#[warnings="-register-all"]
Inductive ltree : Type :=
| LAtom (a : atom)
| LDict (l : loc) (items : list (string * ltree)).

(** The value that stands for a located tree. *)
Definition root (t : ltree) : val :=
  match t with
  | LAtom a => Atom a
  | LDict l _ => Ref l
  end.

(** The objects of a located tree. *)
Fixpoint locs (t : ltree) : list loc :=
  match t with
  | LAtom _ => []
  | LDict l items => l :: flat_map (fun kv => locs (snd kv)) items
  end.

(** The store holds the objects of a located tree as the tree says. *)
Fixpoint holds (h : store) (t : ltree) : Prop :=
  match t with
  | LAtom _ => True
  | LDict l items =>
      h !! l = Some (map (fun kv => (fst kv, root (snd kv))) items)
      /\ fold_right (fun kv rest => holds h (snd kv) /\ rest) True items
  end.

(** The tree that a located tree is when the locations are forgotten. *)
Fixpoint erase (t : ltree) : tree :=
  match t with
  | LAtom a => tree_of_atom a
  | LDict _ items => TDict (map (fun kv => (fst kv, erase (snd kv))) items)
  end.

Definition erase_items (items : list (string * ltree)) : list (string * tree) :=
  map (fun kv => (fst kv, erase (snd kv))) items.

(** A located tree is separated when no object occurs in it twice, and it
    lies in a store when all its objects are allocated there. *)
Definition separated (t : ltree) : Prop := NoDup (locs t).

Definition within (h : store) (t : ltree) : Prop := Forall (fun l => l < length h) (locs t).

(** [reads h v t]: in the store [h] the value [v] is the tree [t]. *)
Definition reads (h : store) (v : val) (t : tree) : Prop :=
  exists lt, root lt = v /\ holds h lt /\ erase lt = t.

(** Every dict of a tree has distinct keys (as every Python dict has);
    lists are not looked into. *)
Fixpoint distinct_keys (t : tree) : Prop :=
  match t with
  | TDict items =>
      NoDup (Dict.keys items)
      /\ fold_right (fun kv rest => distinct_keys (snd kv) /\ rest) True items
  | _ => True
  end.

(** *** The merge and the lookup on trees *)

(** The loop of [_merge_config] on trees instead of objects. *)
Fixpoint merge_tree (update : tree) (base : list (string * tree)) {struct update}
    : list (string * tree) :=
  match update with
  | TDict items =>
      (fix each (items : list (string * tree)) (base : list (string * tree))
         : list (string * tree) :=
         match items with
         | [] => base
         | (key, value) :: rest =>
             each rest
               match Dict.lookup key base, value with
               | Some (TDict b), TDict _ => Dict.setitem key (TDict (merge_tree value b)) base
               | _, _ => Dict.setitem key value base
               end
         end) items base
  | _ => base
  end.

(** The value that the loop leaves at a key of both sides. *)
Definition combined (d o : tree) : tree :=
  match d, o with
  | TDict b, TDict _ => TDict (merge_tree o b)
  | _, _ => o
  end.

(** The merge in the words of the specification: a key-wise union of the
    two mappings in which a key of both is merged recursively when both
    sides hold a mapping, and otherwise takes the override's value
    whole. *)
Fixpoint union (defaults override : tree) {struct defaults} : tree :=
  match defaults, override with
  | TDict ds, TDict os =>
      TDict
        (map (fun kv =>
                (fst kv,
                 match Dict.lookup (fst kv) os with
                 | Some o => union (snd kv) o
                 | None => snd kv
                 end)) ds
         ++ List.filter (fun kv => negb (Dict.has_key (fst kv) ds)) os)
  | _, _ => override
  end.

(** The inner loops of [place], [merge_value] and [merge_tree], by
    themselves. *)
Fixpoint place_items (items : list (string * tree)) (h : store) : dict * store :=
  match items with
  | [] => ([], h)
  | (k, x) :: r =>
      let '(v, h1) := place x h in
      let '(d, h2) := place_items r h1 in
      ((k, v) :: d, h2)
  end.

Fixpoint merge_items (items : list (string * tree)) (base : loc) (h : store) : store :=
  match items with
  | [] => h
  | (key, value) :: rest =>
      merge_items rest base
        match Dict.lookup key (deref h base), value with
        | Some (Ref b), TDict _ => merge_value value b h
        | _, _ =>
            let '(v, h1) := place value h in
            <[base := Dict.setitem key v (deref h1 base)]> h1
        end
  end.

Fixpoint merge_each (items : list (string * tree)) (base : list (string * tree))
    : list (string * tree) :=
  match items with
  | [] => base
  | (key, value) :: rest =>
      merge_each rest
        match Dict.lookup key base, value with
        | Some (TDict b), TDict _ => Dict.setitem key (TDict (merge_tree value b)) base
        | _, _ => Dict.setitem key value base
        end
  end.

(** The objects of the items of a dict. *)
Definition ilocs (items : list (string * ltree)) : list loc :=
  flat_map (fun kv => locs (snd kv)) items.

(** The items of the object of a dict. *)
Definition object (items : list (string * ltree)) : dict :=
  map (fun kv => (fst kv, root (snd kv))) items.

(** What a merge into the object [base] does to a store [h] in which
    [base] holds the separated items [items]: afterwards (in [h']) it
    holds separated items [items'] that are the tree [result]; nothing
    outside the old items was written, and every new object is fresh. *)
Definition refined (h h' : store) (base : loc) (items items' : list (string * ltree))
    (result : list (string * tree)) : Prop :=
  holds h' (LDict base items')
  /\ NoDup (locs (LDict base items'))
  /\ erase_items items' = result
  /\ length h <= length h'
  /\ (forall l, l < length h -> l ∉ locs (LDict base items) -> h' !! l = h !! l)
  /\ (forall l, l ∈ ilocs items' -> l ∈ ilocs items \/ length h <= l).

(** A dotted key resolved in a tree, the way [get] walks: through
    mappings only, and a [None] met on the way counts as absent. *)
Fixpoint tree_get (keys : list string) (t : tree) : option tree :=
  match keys with
  | [] => Some t
  | k :: ks =>
      match t with
      | TDict items =>
          match Dict.lookup k items with
          | None | Some TNone => None
          | Some x => tree_get ks x
          end
      | _ => None
      end
  end.

(** A dotted key looked up in a tree as it stands: through mappings,
    whatever the values are. *)
Fixpoint tree_find (keys : list string) (t : tree) : option tree :=
  match keys with
  | [] => Some t
  | k :: ks =>
      match t with
      | TDict items =>
          match Dict.lookup k items with
          | Some x => tree_find ks x
          | None => None
          end
      | _ => None
      end
  end.

Definition is_dict (t : tree) : bool :=
  match t with TDict _ => true | _ => false end.

(** The override leaves a key alone: on the way along the key it binds
    nothing, or mappings only, and it does not bind the last segment. *)
Fixpoint untouched (keys : list string) (override : tree) : bool :=
  match keys, override with
  | k :: ks, TDict os =>
      match Dict.lookup k os with
      | None => true
      | Some o => match ks with [] => false | _ => is_dict o && untouched ks o end
      end
  | _, _ => false
  end.

Definition is_scalar (t : tree) : bool :=
  match t with
  | TList _ | TDict _ => false
  | _ => true
  end.

(** *** The configuration of a fresh class *)

(** The items of [DEFAULT_CONFIG] in the store of a fresh class: the
    mapping under [shell] is the object 0. *)
Definition default_items (home : string) : list (string * ltree) :=
  [("dotfiles_root", LAtom (APath (home ++ "/Work/.dotfiles")));
   ("backup_dir", LAtom (APath (home ++ "/.dotfiles-backup")));
   ("shell", LDict 0 [("default", LAtom (AStr "zsh"));
                      ("theme", LAtom (AStr "powerlevel10k"))]);
   ("tools", LAtom (AList [TStr "ripgrep"; TStr "fd"; TStr "bat"; TStr "eza";
                           TStr "fzf"; TStr "tmux"; TStr "neovim"; TStr "htop";
                           TStr "jq"; TStr "tldr"]));
   ("fonts", LAtom (AList [TStr "FiraCode"; TStr "JetBrainsMono"; TStr "Iosevka"]))].

(** The store of a fresh class after [self.config = DEFAULT_CONFIG.copy()];
    the copy is the object 2. *)
Definition copied (home : string) : store := snd (dict_copy DEFAULT_CONFIG (class_store home)).

(** The first configuration built with a user file that holds [update]. *)
Definition configured (home : string) (update : list (string * tree)) : result loc * store :=
  __init__ (Some (Some (TDict update))) (class_store home).

(** The sentence on [get] as the specification states it, for the first
    configuration built from a user file: a key found only in the
    defaults yields the default value, and a key found in both with scalar
    values yields the override's. *)
Definition get_as_stated (home : string) (update : list (string * tree))
    (key : string) (fallback : val) : Prop :=
  let h' := snd (configured home update) in
  let path := split "."%char key in
  forall config, fst (configured home update) = Return config ->
    (forall v, tree_find path (DEFAULT_CONFIG_literal home) = Some v ->
               tree_find path (TDict update) = None ->
               reads h' (get h' config key fallback) v)
    /\ (forall dv ov, tree_find path (DEFAULT_CONFIG_literal home) = Some dv ->
                      tree_find path (TDict update) = Some ov ->
                      is_scalar dv = true -> is_scalar ov = true ->
                      reads h' (get h' config key fallback) ov).

End Shape.

(** ** What [backup] is said to do *)

Module FSSpec.

Import FS.

(** The target of a link. *)
Definition link_of (n : node) : option path :=
  match n with
  | Symlink t => Some t
  | _ => None
  end.

Definition is_directory (n : node) : bool :=
  match n with Dir _ => true | _ => false end.

(** No link anywhere in an object. *)
Fixpoint link_free (n : node) : bool :=
  match n with
  | File _ _ => true
  | Symlink _ => false
  | Dir es => forallb (fun kv => link_free (snd kv)) es
  end.

(** The number of levels of an object. *)
Fixpoint depth (n : node) : nat :=
  match n with
  | Dir es => S (fold_right (fun kv d => Nat.max (depth (snd kv)) d) 0 es)
  | _ => 1
  end.

(** The sentence on [backup] as the specification states it: on a path
    that does not exist the call returns the path and changes nothing; on
    one that exists it returns the timestamped sibling path, that sibling is
    exactly one new entry of the parent directory, and it holds what the
    original read as when the call was made. *)
Definition backup_as_stated (s : state) (p : path) : Prop :=
  match stat_node (root s) p with
  | None => backup p s = (Return p, s)
  | Some original =>
      let backup_path := backup_path_of p (strftime (now s)) in
      let after := root (snd (backup p s)) in
      fst (backup p s) = Return backup_path
      /\ parent backup_path = parent p
      /\ name backup_path = (name p ++ ".backup." ++ strftime (now s))%string
      /\ listdir after (parent p) = (listdir (root s) (parent p) ++ [name backup_path])%list
      /\ exists copy,
           snapshot RECURSION_LIMIT (root s) original = Some copy
           /\ stat_node after backup_path = Some copy
  end.

(** *** Some file systems *)

Definition home : node :=
  Dir [("Work",
        Dir [(".dotfiles",
              Dir [("zsh", Dir [(".zshrc", File "export EDITOR=nvim" 420)]);
                   ("nvim", Dir [("init.lua", File "vim.o.number = true" 420)])])]);
       (".zshrc", File "# old" 384);
       (".config", Dir [("nvim", Dir [("init.vim", File "set nu" 420)])])].

Definition disk : node := Dir [("home", Dir [("user", home)])].

Definition clock : datetime := DateTime 2024 1 5 9 3 7.

Definition booted : state := State disk clock [].

(** The same, a backup of [.zshrc] having been made this very second. *)
Definition backed_up : state := snd (backup ["home"; "user"; ".zshrc"] booted).

End FSSpec.

(** ** More of Python's [str] *)

(** [c.lower()] for a character of the ASCII range. *)
Definition lower_char (c : Ascii.ascii) : Ascii.ascii :=
  let n := Ascii.nat_of_ascii c in
  if Nat.leb 65 n && Nat.leb n 90 then Ascii.ascii_of_nat (n + 32) else c.

(** [s.lower()] *)
Fixpoint lower (s : string) : string :=
  match s with
  | EmptyString => EmptyString
  | String c r => String (lower_char c) (lower r)
  end.

(** [s.startswith(prefix)] *)
Fixpoint startswith (prefix s : string) : bool :=
  match prefix, s with
  | EmptyString, _ => true
  | String a p, String b r => Ascii.eqb a b && startswith p r
  | String _ _, EmptyString => false
  end.

(** [c in chars] *)
Fixpoint among (c : Ascii.ascii) (chars : string) : bool :=
  match chars with
  | EmptyString => false
  | String x r => Ascii.eqb x c || among c r
  end.

(** [s.lstrip(chars)], [s.rstrip(chars)] and [s.strip(chars)] *)
Fixpoint lstrip_chars (chars s : string) : string :=
  match s with
  | EmptyString => EmptyString
  | String c r => if among c chars then lstrip_chars chars r else s
  end.

Fixpoint rstrip_chars (chars s : string) : string :=
  match s with
  | EmptyString => EmptyString
  | String c r =>
      match rstrip_chars chars r with
      | EmptyString => if among c chars then EmptyString else String c EmptyString
      | r' => String c r'
      end
  end.

Definition strip_chars (chars s : string) : string :=
  rstrip_chars chars (lstrip_chars chars s).

(** The double quote. *)
Definition dquote : string := String (Ascii.ascii_of_nat 34) EmptyString.

(** The lines that iterating over a text file yields: each one with its
    newline, which only the last one may lack. *)
Fixpoint readlines (text : string) : list string :=
  match text with
  | EmptyString => []
  | String c r =>
      if Ascii.eqb c (Ascii.ascii_of_nat 10) then String c EmptyString :: readlines r
      else match readlines r with
           | line :: lines => String c line :: lines
           | [] => [String c EmptyString]
           end
  end.

(** Truth value of an optional [str] ([None] and the empty string are
    false). *)
Definition truth (o : option string) : bool :=
  match o with
  | Some s => truthy s
  | None => false
  end.

(** [a or b] on optional strings. *)
Definition or_else (a b : option string) : option string :=
  if truth a then a else b.

(** ** SystemInfo *)

Module SystemInfo.

(** What the interpreter is told about the machine it runs on. *)
Record platform : Type :=
  Platform { system : string;                  (* platform.system() *)
             machine : string;                 (* platform.machine() *)
             release : string;                 (* platform.release() *)
             environ : list (string * string); (* os.environ *)
             os_release : option string }.     (* the text of /etc/os-release,
                                                  when there is such a file *)

(** The fields of the dataclass. *)
Record t : Type :=
  SystemInfo { os : string; distro : string; arch : string;
               is_wsl : bool; is_desktop : bool; display_server : string }.

Definition _detect_os (p : platform) : string :=
  let system := lower (system p) in
  if String.eqb system "darwin" then "macos" else system.

(** The loop over the lines of [/etc/os-release]: [Some] for the [return]
    inside it, [None] when the loop ends. *)
Fixpoint scan_os_release (lines : list string) : result (option string) :=
  match lines with
  | [] => Return None
  | line :: rest =>
      if startswith "ID=" line then
        match Config.split "="%char line with
        | _ :: id :: _ => Return (Some (lower (strip_chars dquote (strip id))))
        | _ => Raise (OtherException "IndexError: list index out of range")
        end
      else scan_os_release rest
  end.

(** [self._detect_distro()], with [os] the value of [self.os].  The
    handler catches the [FileNotFoundError] of [open]. *)
Definition _detect_distro (os : string) (p : platform) : result string :=
  if negb (String.eqb os "linux") then Return "none"
  else
    match os_release p with
    | None => Return "unknown"
    | Some text =>
        match scan_os_release (readlines text) with
        | Return (Some id) => Return id
        | Return None => Return "unknown"
        | Raise e => Raise e
        end
    end.

Definition arch_map : list (string * string) :=
  [("x86_64", "amd64"); ("aarch64", "arm64"); ("arm64", "arm64"); ("armv7l", "armv7")].

(** [arch_map.get(machine, machine)] *)
Definition normalize (machine : string) : string :=
  default machine (Dict.lookup machine arch_map).

Definition _detect_arch (p : platform) : string := normalize (machine p).

Definition _detect_wsl (p : platform) : bool :=
  contains "microsoft" (lower (release p)).

(** [os.environ.get(name)] *)
Definition getenv (p : platform) (name : string) : option string :=
  Dict.lookup name (environ p).

Definition _detect_desktop (p : platform) : bool :=
  truth (or_else (getenv p "DISPLAY") (getenv p "WAYLAND_DISPLAY")).

(** [self._detect_display_server()], with [is_desktop] the value of
    [self.is_desktop]. *)
Definition _detect_display_server (is_desktop : bool) (p : platform) : string :=
  if negb is_desktop then "none"
  else if truth (getenv p "WAYLAND_DISPLAY") then "wayland"
  else if truth (getenv p "DISPLAY") then "x11"
  else "unknown".

(** [SystemInfo()]: the fields are set in this order, each detector
    reading the fields set before it. *)
Definition __post_init__ (p : platform) : result t :=
  let os := _detect_os p in
  match _detect_distro os p with
  | Raise e => Raise e
  | Return distro =>
      let arch := _detect_arch p in
      let is_wsl := _detect_wsl p in
      let is_desktop := _detect_desktop p in
      let display_server := _detect_display_server is_desktop p in
      Return (SystemInfo os distro arch is_wsl is_desktop display_server)
  end.

(** *** Two machines *)


(** A desktop that runs both a Wayland compositor and an X server, and
    has no [/etc/os-release]. *)
Definition sway : platform :=
  Platform "Linux" "aarch64" "6.6.31"
    [("WAYLAND_DISPLAY", "wayland-1"); ("DISPLAY", ":0")] None.

End SystemInfo.

(** ** What the installer asks of the machine *)

Module Sys.

(** Besides spawning commands the program looks executables up on the
    [PATH], opens a URL, reads a text file and reads the environment. *)
Class Host (W : Type) : Type :=
  { which : W -> string -> option string;     (* shutil.which *)
    urlopen : W -> string -> bool;            (* whether the URL opens in time *)
    read_text : W -> string -> string + string;
                                              (* the text, or the error of open *)
    environ : W -> list (string * string) }.

Section Functions.
Context {W : Type} `{World W} `{Host W}.

(** [command_exists(command)] *)
Definition command_exists (command : string) : M (state W) bool :=
  gets (fun s => match which (world s) command with Some _ => true | None => false end).

(** [check_internet()]: whatever [urlopen] raises is caught. *)
Definition check_internet : M (state W) bool :=
  gets (fun s => urlopen (world s) "https://www.google.com").

(** [run_command(cmd)] with every default. *)
Definition run (cmd : list string) : M (state W) unit :=
  run_command cmd true true None None ;; ret tt.

(** [run_command(cmd, cwd=d)] *)
Definition run_in (cmd : list string) (cwd : string) : M (state W) unit :=
  run_command cmd true true None (Some cwd) ;; ret tt.

(** A [for] loop over a list. *)
Fixpoint for_each {St A} (xs : list A) (body : A -> M St unit) : M St unit :=
  match xs with
  | [] => ret tt
  | x :: r => body x ;; for_each r body
  end.

End Functions.

End Sys.

(** ** PackageManager *)

Module PackageManager.

Import Sys.

Record commands : Type :=
  Commands { install_cmd : list string; update_cmd : list string;
             search_cmd : list string }.

Definition MANAGERS : list (string * commands) :=
  [("apt", Commands ["sudo"; "apt"; "install"; "-y"] ["sudo"; "apt"; "update"]
                    ["apt"; "search"]);
   ("dnf", Commands ["sudo"; "dnf"; "install"; "-y"] ["sudo"; "dnf"; "check-update"]
                    ["dnf"; "search"]);
   ("pacman", Commands ["sudo"; "pacman"; "-S"; "--noconfirm"] ["sudo"; "pacman"; "-Sy"]
                       ["pacman"; "-Ss"]);
   ("brew", Commands ["brew"; "install"] ["brew"; "update"] ["brew"; "search"]);
   ("apk", Commands ["sudo"; "apk"; "add"] ["sudo"; "apk"; "update"] ["apk"; "search"])].

(** [packages: Union[str, List[str]]] *)
Inductive packages : Type :=
| One (name : string)
| Several (names : list string).

Section Methods.
Context {W : Type} `{World W} `{Host W}.

(** The loop of [_detect_manager] over the keys of [MANAGERS]. *)
Fixpoint first_found (w : W) (managers : list string) : option string :=
  match managers with
  | [] => None
  | manager :: rest =>
      if truth (which w manager) then Some manager else first_found w rest
  end.

Definition _detect_manager : M (state W) (option string) :=
  gets (fun s => first_found (world s) (Dict.keys MANAGERS)).

(** [self.MANAGERS[self.manager]] *)
Definition commands_of (manager : string) : M (state W) commands :=
  match Dict.lookup manager MANAGERS with
  | Some c => ret c
  | None => raise (OtherException ("KeyError: '" ++ manager ++ "'"))
  end.

(** [PackageManager.update()], with [manager] the value of
    [self.manager]. *)
Definition update (manager : option string) : M (state W) unit :=
  match manager with
  | Some m =>
      if truthy m then
        Logger.info ("Updating package lists with " ++ m) ;;
        c <- commands_of m ;;
        run (update_cmd c)
      else Logger.warning "No package manager found"
  | None => Logger.warning "No package manager found"
  end.

(** [PackageManager.install(packages)] *)
Definition install (manager : option string) (packages : packages) : M (state W) unit :=
  if negb (truth manager) then
    Logger.error "No package manager found" true ;;
    ret tt
  else
    let packages :=
      match packages with
      | One name => [name]
      | Several names => names
      end in
    match packages with
    | [] => ret tt
    | _ =>
        Logger.info ("Installing " ++ join ", " packages) ;;
        c <- commands_of (default "" manager) ;;
        run (install_cmd c ++ packages)%list
    end.

End Methods.

End PackageManager.

(** ** Texts of identifiers *)

Module Text.




End Text.

(** ** The steps of the installer that only run commands *)

Module ShellEnvironment.

Import Sys.

Section Methods.
Context {W : Type} `{World W} `{Host W}.


(** The body shared by the steps that keep a checkout of a repository up
    to date: [git pull] inside the directory when it exists, a clone into
    it otherwise. *)
Definition pull_or_clone (dir : string) (pulling cloning : string)
    (clone : list string) : M (state W) unit :=
  present <- gets (fun s => path_exists (world s) dir) ;;
  if present : bool then
    Logger.info pulling ;;
    run_in ["git"; "pull"] dir
  else
    Logger.info cloning ;;
    run (clone ++ [dir])%list.





(** The name of the package of a tool. *)
Definition tool_map (manager : option string) : list (string * string) :=
  [("eza", "eza");
   ("fd", if decide (manager = Some "apt") then "fd-find" else "fd")].

Definition package_of (manager : option string) (tool : string) : string :=
  default tool (Dict.lookup tool (tool_map manager)).

(** [ShellEnvironment.install_cli_tools()], with [tools] the list that
    [self.config.get('tools', [])] gives. *)
Definition install_cli_tools (manager : option string) (tools : list string)
    : M (state W) unit :=
  let packages := map (package_of manager) tools in
  Logger.info "Installing CLI tools" ;;
  PackageManager.install manager (PackageManager.Several packages) ;;
  Logger.success "CLI tools installed".

End Methods.

(** [ShellEnvironment.setup_dotfiles()], with [dotfiles_root] the value of
    [self.config.get('dotfiles_root')]. *)
Definition dotfiles (home dotfiles_root : FS.path) : list (FS.path * FS.path) :=
  [((dotfiles_root ++ ["zsh"; ".zshrc"])%list, (home ++ [".zshrc"])%list);
   ((dotfiles_root ++ ["tmux"; ".tmux.conf"])%list, (home ++ [".tmux.conf"])%list);
   ((dotfiles_root ++ ["git"; ".gitconfig"])%list, (home ++ [".gitconfig"])%list)].

Definition setup_dotfiles (home dotfiles_root : FS.path) : M FS.state unit :=
  for_each (dotfiles home dotfiles_root)
    (fun '(source, target) =>
       fs <- gets FS.root ;;
       if FS.Path_exists fs source then FS.symlink source target true else ret tt).

End ShellEnvironment.

Module PythonEnvironment.

Import Sys.

Section Methods.
Context {W : Type} `{World W} `{Host W}.

Definition build_dependencies : list string :=
  ["build-essential"; "libssl-dev"; "zlib1g-dev"; "libbz2-dev";
   "libreadline-dev"; "libsqlite3-dev"; "wget"; "curl"; "llvm";
   "libncurses5-dev"; "libncursesw5-dev"; "xz-utils"; "tk-dev";
   "libffi-dev"; "liblzma-dev"; "python3-openssl"; "git"].

(** [PythonEnvironment.install_pyenv()] *)
Definition install_pyenv (manager : option string) (home : string) : M (state W) unit :=
  let pyenv_root := home ++ "/.pyenv" in
  ShellEnvironment.pull_or_clone pyenv_root "Updating pyenv" "Installing pyenv"
    ["git"; "clone"; "https://github.com/pyenv/pyenv.git"] ;;
  Logger.info "Installing Python build dependencies" ;;
  (if decide (manager = Some "apt")
   then PackageManager.install manager (PackageManager.Several build_dependencies)
   else ret tt) ;;
  Logger.success "pyenv installed".


End Methods.

End PythonEnvironment.

Module DotfilesInstaller.

Import Sys.

Section Methods.
Context {W : Type} `{World W} `{Host W}.

(** [[cmd for cmd in required if not command_exists(cmd)]] *)
Fixpoint missing_of (required : list string) : M (state W) (list string) :=
  match required with
  | [] => ret []
  | cmd :: rest =>
      found <- command_exists cmd ;;
      more <- missing_of rest ;;
      ret (if found : bool then more else cmd :: more)
  end.

(** [DotfilesInstaller.check_prerequisites()] *)
Definition check_prerequisites (manager : option string) : M (state W) unit :=
  Logger.info "Checking prerequisites" ;;
  missing <- missing_of ["git"; "curl"] ;;
  match missing with
  | [] => ret tt
  | _ =>
      Logger.info ("Installing missing prerequisites: " ++ join ", " missing) ;;
      PackageManager.update manager ;;
      PackageManager.install manager (PackageManager.Several missing)
  end ;;
  online <- check_internet ;;
  (if negb online then Logger.error "Internet connection required" true else ret tt) ;;
  Logger.success "Prerequisites satisfied".

Definition system_packages : list (string * list string) :=
  [("apt", ["build-essential"; "software-properties-common"; "apt-transport-https";
            "ca-certificates"; "gnupg"; "lsb-release"]);
   ("dnf", ["@development-tools"; "dnf-plugins-core"]);
   ("pacman", ["base-devel"]);
   ("brew", ["coreutils"; "findutils"; "gnu-tar"; "gnu-sed"; "gawk"; "gnutls";
             "gnu-indent"; "gnu-getopt"; "grep"])].

(** [DotfilesInstaller.install_system_packages()] *)
Definition install_system_packages (manager : option string) : M (state W) unit :=
  Logger.info "Installing system packages" ;;
  match manager with
  | Some m =>
      match Dict.lookup m system_packages with
      | Some packages =>
          PackageManager.install manager (PackageManager.Several packages)
      | None => ret tt
      end
  | None => ret tt
  end ;;
  Logger.success "System packages installed".

End Methods.

(** [DotfilesInstaller.setup_directories()], with [home] the value of
    [Path.home()]. *)
Definition directories (home : FS.path) : list FS.path :=
  [(home ++ ["Work"])%list; (home ++ [".config"])%list;
   (home ++ [".local"; "bin"])%list; (home ++ [".local"; "share"; "fonts"])%list].

Definition setup_directories (home : FS.path) : M FS.state unit :=
  Logger.info "Setting up directories" ;;
  for_each (directories home) (fun directory => FS.ensure_dir directory ;; ret tt) ;;
  Logger.success "Directories created".

End DotfilesInstaller.

(** ** A judgement for the steps that run commands *)

Module Run.

Section Judgement.
Context {W : Type}.

(** [runs PL PC lo hi c Q E]: from every state, [c] adds to the log only
    records that satisfy [PL] and spawns only commands that satisfy [PC], at
    most [hi] of them; when it returns, its value satisfies [Q] and it has
    spawned at least [lo] commands; when it raises, the exception satisfies
    [E]. *)
Definition runs (PL : Logger.record -> Prop) (PC : call -> Prop) (lo hi : nat)
    {A} (c : M (state W) A) (Q : A -> Prop) (E : exn -> Prop) : Prop :=
  forall s, exists l new,
    log (snd (c s)) = (log s ++ l)%list /\ Forall PL l
    /\ calls (snd (c s)) = (calls s ++ new)%list /\ Forall PC new
    /\ length new <= hi
    /\ match fst (c s) with
       | Return a => Q a /\ lo <= length new
       | Raise e => E e
       end.

End Judgement.

(** The process is left with status 1. *)
Definition exits (e : exn) : Prop := e = SystemExit 1.

(** A package manager that [MANAGERS] knows, or none. *)
Definition known (manager : option string) : Prop :=
  match manager with
  | Some m => truthy m = true /\ is_Some (Dict.lookup m PackageManager.MANAGERS)
  | None => True
  end.


End Run.

(** ** A machine to run the steps on

    A working copy with its remote, the executables on the [PATH], the
    text files, the environment, and whether the network is up.  Only
    [git] is installed as far as spawning goes. *)

Module Machine.

Record t : Type :=
  Machine { repository : Git.t;
            executables : list (string * string);
            files : list (string * string);
            variables : list (string * string);
            online : bool }.

Definition machine_spawn (m : t) (argv : list string) (cwd input : option string)
    : spawned * t :=
  let '(r, g) := Git.git_spawn (repository m) argv cwd input in
  (r, Machine g (executables m) (files m) (variables m) (online m)).

#[global] Instance machine_world : World t :=
  {| spawn := machine_spawn;
     path_exists := fun m p => path_exists (repository m) p |}.

#[global] Instance machine_host : Sys.Host t :=
  {| Sys.which := fun m command => Dict.lookup command (executables m);
     Sys.urlopen := fun m _ => online m;
     Sys.read_text := fun m file =>
       match Dict.lookup file (files m) with
       | Some text => inl text
       | None => inr ("[Errno 2] No such file or directory: '" ++ file ++ "'")
       end;
     Sys.environ := variables |}.

(** A Debian machine with [git] and [curl], on line. *)
Definition debian : t :=
  Machine Git.clean
    [("apt", "/usr/bin/apt"); ("git", "/usr/bin/git"); ("curl", "/usr/bin/curl")]
    [("/etc/shells", "/bin/sh" ++ nl ++ "/bin/bash" ++ nl)]
    [("SHELL", "/bin/bash")] true.

Definition start (m : t) : state t := State m [] [].

End Machine.

(** ** Notions for the directories that the file manager makes *)

Module Tree.

Import FS.

(** The directories that [mkdir(parents=True)] makes along a path: empty
    but for the next one. *)
Fixpoint chain (p : path) : node :=
  match p with
  | [] => Dir []
  | c :: r => Dir [(c, chain r)]
  end.

(** [fs'] keeps what [fs] has: every path that leads to an object of [fs]
    without following a link leads in [fs'] to an object of the same
    kind, and a link to the same target. *)
Definition extends (fs fs' : node) : Prop :=
  forall r n,
    walk fs r = Some n ->
    exists n',
      walk fs' r = Some n'
      /\ FSSpec.link_of n' = FSSpec.link_of n
      /\ FSSpec.is_directory n' = FSSpec.is_directory n.

(** Every directory along [todo], from the directory [done] on, is
    there. *)
Fixpoint made (fs : node) (done todo : path) : Prop :=
  match todo with
  | [] => True
  | c :: r =>
      exists q es,
        resolve (S MAXSYMLINKS) fs done [c] = Some q
        /\ walk fs q = Some (Dir es)
        /\ made fs q r
  end.

(** A record that [Logger.error] writes. *)
Definition is_error (r : Logger.record) : bool := String.eqb (Logger.color r) "RED".

(** [c] neither leaves the process nor logs an error, from the state
    [s]; and from every state. *)
Definition quiet_at {A} (s : state) (c : M state A) : Prop :=
  (exists l, log (snd (c s)) = (log s ++ l)%list
             /\ Forall (fun r => is_error r = false) l)
  /\ forall code, fst (c s) <> Raise (SystemExit code).

Definition quiet {A} (c : M state A) : Prop := forall s, quiet_at s c.

End Tree.

(** ** The terminal

    The interactive part of the program reads lines from the standard
    input and prints a menu.  The state keeps the lines still to be read,
    what [print] and [input] wrote, and the log; the order between the
    lines of the logger and the printed ones is not kept.  [X] is whatever
    else the actions of the menu work on. *)

Module Console.

Record state (X : Type) : Type :=
  State { rest_of_the_world : X;
          stdin : list string;      (* the lines to come, without their newline *)
          printed : list string;    (* the texts written, oldest first *)
          log : list Logger.record }.
Arguments State {X}.
Arguments rest_of_the_world {X}.
Arguments stdin {X}.
Arguments printed {X}.
Arguments log {X}.

#[global] Instance state_log {X} : Logger.HasLog (state X) :=
  {| Logger.get_log := log;
     Logger.set_log := fun l c => State (rest_of_the_world c) (stdin c) (printed c) l |}.


Section Functions.
Context {X : Type}.


(** [input(prompt)]: the prompt is written without a newline, and the end
    of the input raises [EOFError]. *)
Definition input (prompt : string) : M (state X) string :=
  fun c =>
    let c' := State (rest_of_the_world c) (List.tl (stdin c))
                    (printed c ++ [prompt]) (log c) in
    match stdin c with
    | line :: _ => (Return line, c')
    | [] => (Raise (OtherException "EOFError: EOF when reading a line"), c')
    end.




Section Interactive.
(** The four bound methods that the menu offers. *)
Variables run_full_install run_shell_only run_python_only desktop_install
  : M (state X) unit.



End Interactive.

End Functions.



End Console.

(** * Theorems *)

(** ** The command runner and the synchronizer, in any world *)

Section CommandRunner.
Context {W : Type} `{World W}.

Import Exit.

Lemma error_exits {St} `{Logger.HasLog St} (message : string) (s : St) :
  Logger.error message true s
  = (Raise (SystemExit 1),
     Logger.set_log (Logger.get_log s ++ [Logger.error_record message]) s).
Proof. reflexivity. Qed.

(** A failed command with [check=True]: one spawn, one error record, and
    the process exits. *)
Lemma run_command_failure cmd capture_output input cwd (s : state W) rc out err w' :
  spawn (world s) cmd cwd input = (Exited rc out err, w') ->
  rc <> 0%Z ->
  cmd <> [] ->
  run_command cmd true capture_output input cwd s
  = (Raise (SystemExit 1),
     State w'
       (log s ++ [Logger.error_record
                    (failure_message cmd cwd rc
                       (if capture_output then Some out else None)
                       (if capture_output then Some err else None))])
       (calls s ++ [(cmd, cwd)])).
Proof.
  intros Hs Hrc Hcmd. unfold run_command, try_except, bind, subprocess_run.
  destruct cmd as [|exe cmd']; [done|].
  rewrite Hs. simpl.
  destruct (Z.eqb_spec rc 0); [done|]. simpl. reflexivity.
Qed.

(** *** Rules of the judgement *)

Section Rules.
Context (P : Logger.record -> Prop).

Lemma exits_or_ret {A} (a : A) (Q : A -> Prop) : Q a -> exits_or (W:=W) P (ret a) Q.
Proof. intros HQ s. exists []. simpl. rewrite app_nil_r. auto. Qed.

Lemma exits_or_bind {A B} (c : M (state W) A) (k : A -> M (state W) B) Q R :
  exits_or P c Q -> (forall a, Q a -> exits_or P (k a) R) -> exits_or P (bind c k) R.
Proof.
  intros Hc Hk s. unfold bind.
  destruct (Hc s) as (l & Hl & HP & Hr).
  destruct (c s) as [[a|e] s1]; simpl in *.
  - destruct (Hk a Hr s1) as (l' & Hl' & HP' & Hr').
    exists (l ++ l')%list. rewrite Hl', Hl, app_assoc.
    split; [done|]. split; [by apply Forall_app|done].
  - exists l. auto.
Qed.

Lemma exits_or_try {A} (body : M (state W) A) handler Q :
  exits_or P body Q ->
  (forall h, handler (SystemExit 1) = Some h -> exits_or P h Q) ->
  exits_or P (try_except body handler) Q.
Proof.
  intros Hb Hh s. unfold try_except.
  destruct (Hb s) as (l & Hl & HP & Hr).
  destruct (body s) as [[a|e] s1]; simpl in *.
  - exists l. auto.
  - subst e. destruct (handler (SystemExit 1)) as [h|] eqn:Eh.
    + destruct (Hh h eq_refl s1) as (l' & Hl' & HP' & Hr').
      exists (l ++ l')%list. rewrite Hl', Hl, app_assoc.
      split; [done|]. split; [by apply Forall_app|done].
    + exists l. simpl. auto.
Qed.

Lemma exits_or_weaken {A} (c : M (state W) A) (Q Q' : A -> Prop) :
  exits_or P c Q -> (forall a, Q a -> Q' a) -> exits_or P c Q'.
Proof.
  intros Hc HQ s. destruct (Hc s) as (l & Hl & HP & Hr).
  exists l. repeat split; try done. destruct (fst (c s)); auto.
Qed.

Lemma exits_or_gets {A} (f : state W -> A) : exits_or P (gets f) (fun _ => True).
Proof. intros s. exists []. simpl. rewrite app_nil_r. auto. Qed.

Lemma exits_or_log message color file :
  P (Logger.Record_ color file message) ->
  exits_or (W:=W) P (Logger._log message color file) (fun _ => True).
Proof. intros HP s. eexists [_]. simpl. repeat split. by constructor. Qed.

Lemma exits_or_info message :
  P (Logger.info_record message) -> exits_or (W:=W) P (Logger.info message) (fun _ => True).
Proof. apply exits_or_log. Qed.

Lemma exits_or_warning message :
  P (Logger.warning_record message) ->
  exits_or (W:=W) P (Logger.warning message) (fun _ => True).
Proof. apply exits_or_log. Qed.

Lemma exits_or_success message :
  P (Logger.success_record message) ->
  exits_or (W:=W) P (Logger.success message) (fun _ => True).
Proof. apply exits_or_log. Qed.

Lemma exits_or_error {A} message (k : M (state W) A) Q :
  P (Logger.error_record message) ->
  exits_or P (Logger.error message true ;; k) Q.
Proof.
  intros HP s. eexists [_]. unfold bind. rewrite error_exits. simpl.
  repeat split. by constructor.
Qed.

Hypothesis P_error : forall message, P (Logger.error_record message).

(** [run_command] returns what the process printed or leaves the
    process; it never hands an exception of the command to its caller. *)
Lemma exits_or_run_command cmd check capture_output input cwd :
  exits_or P (run_command cmd check capture_output input cwd)
             (fun r => capture_output = true -> exists t, stdout r = Some t).
Proof.
  assert (Hone : forall (s s' : state W) m (r : result CompletedProcess),
             log s' = (log s ++ [Logger.error_record m])%list ->
             exists l, log s' = (log s ++ l)%list /\ Forall P l
                       /\ SystemExit 1 = SystemExit 1).
  { intros s s' m r Hl. eexists [_]. split; [exact Hl|].
    split; [apply Forall_singleton, P_error|done]. }
  intros s. unfold run_command, try_except, bind, subprocess_run.
  destruct cmd as [|exe cmd'].
  - eapply Hone; [exact (Raise (SystemExit 1))|reflexivity].
  - destruct (spawn (world s) (exe :: cmd') cwd input) as [[rc out err| |what] w'] eqn:Hs.
    + destruct (check && negb (rc =? 0)%Z).
      * eapply Hone; [exact (Raise (SystemExit 1))|reflexivity].
      * exists []. simpl. rewrite app_nil_r. repeat split; [done|].
        intros ->. eauto.
    + eapply Hone; [exact (Raise (SystemExit 1))|reflexivity].
    + eapply Hone; [exact (Raise (SystemExit 1))|reflexivity].
Qed.

Lemma exits_or_git cmd cwd :
  exits_or P (git cmd cwd) (fun r => exists t, stdout r = Some t).
Proof.
  eapply exits_or_weaken; [apply exits_or_run_command|]. simpl. auto.
Qed.

Lemma exits_or_stdout_text r :
  (exists t, stdout r = Some t) -> exits_or (W:=W) P (stdout_text r) (fun _ => True).
Proof.
  intros [t Ht]. unfold stdout_text. rewrite Ht. by apply exits_or_ret.
Qed.

End Rules.

(** *** The handlers that cannot run *)

Lemma neither_error r1 r2 message :
  Logger.color r1 <> "RED" -> Logger.color r2 <> "RED" ->
  neither r1 r2 (Logger.error_record message).
Proof.
  intros H1 H2. unfold neither, Logger.record_eqb. simpl.
  destruct (String.eqb_spec (Logger.color r1) "RED"); [done|].
  destruct (String.eqb_spec (Logger.color r2) "RED"); [done|]. done.
Qed.

Ltac solve_P := first [ by apply neither_error | split; reflexivity | done ].

Ltac prim :=
  first
    [ apply exits_or_ret; done
    | apply exits_or_gets
    | apply exits_or_git; intros; solve_P
    | apply exits_or_run_command; intros; solve_P
    | apply exits_or_info; solve_P
    | apply exits_or_warning; solve_P
    | apply exits_or_success; solve_P
    | apply exits_or_stdout_text; assumption ].

Ltac step :=
  lazymatch goal with
  | |- exits_or _ (bind (Logger.error _ true) _) _ => apply exits_or_error; solve_P
  | |- exits_or _ (bind _ _) _ =>
      first [ eapply exits_or_bind; [ solve [prim] | intros ? ? ]
            | eapply exits_or_bind with (Q := fun _ => True); [ | intros ? ? ] ]
  | |- exits_or _ (try_except _ _) _ =>
      apply exits_or_try; [ | intros ? ?; simplify_eq/= ]
  | |- exits_or _ (if ?b then _ else _) _ => destruct b
  | |- exits_or _ (match ?x with _ => _ end) _ => destruct x
  | |- _ => solve [prim]
  end.

Lemma clone_dotfiles_exits_or dotfiles_root :
  exits_or (neither conflict continuing) (clone_dotfiles dotfiles_root) (fun _ => True).
Proof. unfold clone_dotfiles. repeat step. Qed.

Lemma safe_git_pull_exits_or repo_path repo_name :
  exits_or (fun _ => True) (safe_git_pull repo_path repo_name) (fun b => b = true).
Proof.
  unfold safe_git_pull.
  apply exits_or_try; [ | intros ? ?; simplify_eq/= ].
  do 3 step.
  eapply exits_or_bind with (Q := fun r => r = None).
  - destruct (truthy _).
    + step. apply exits_or_try; [ | intros ? ?; simplify_eq/= ].
      do 3 step. eapply exits_or_bind with (Q := fun _ => True).
      * repeat step.
      * intros. by apply exits_or_ret.
    + step. by apply exits_or_ret.
  - intros r ->. by apply exits_or_ret.
Qed.

End CommandRunner.

(** ** The synchronizer on the model of a working copy *)






(** ** Claims on the command runner and the synchronizer *)

(** C1: with [check=True] and a non-zero exit, [run_command] spawns the
    command once (no retry) and logs one error record that carries the
    argv, the working directory, the exit code, stdout and stderr; but the
    caller is not handed a [CalledProcessError]: [Logger().error] leaves
    the process with [SystemExit(1)] before the bare [raise] is reached. *)
Theorem run_command_failed_check_exits {W : Type} {E : World W}
    cmd capture_output input cwd (s : state W) rc out err w' :
  spawn (world s) cmd cwd input = (Exited rc out err, w') ->
  rc <> 0%Z ->
  cmd <> [] ->
  run_command cmd true capture_output input cwd s
  = (Raise (SystemExit 1),
     State w'
       (log s ++ [Logger.error_record
                    (failure_message cmd cwd rc
                       (if capture_output then Some out else None)
                       (if capture_output then Some err else None))])
       (calls s ++ [(cmd, cwd)]))
  /\ is_CalledProcessError (SystemExit 1) = false.
Proof. intros. split; [by apply run_command_failure|reflexivity]. Qed.

Lemma run_command_failed_check_exits_witness :
  spawn (world (Git.start Git.offline)) ["git"; "pull"] (Some Git.dotfiles) None
  = (Exited 1 "" ("fatal: unable to access the remote" ++ nl), Git.offline)
  /\ run_command ["git"; "pull"] true true None (Some Git.dotfiles)
                 (Git.start Git.offline)
     = (Raise (SystemExit 1),
        State Git.offline
          [Logger.error_record
             (failure_message ["git"; "pull"] (Some Git.dotfiles) 1 (Some "")
                (Some ("fatal: unable to access the remote" ++ nl)))]
          [(["git"; "pull"], Some Git.dotfiles)]).
Proof.
  assert (Hspawn : spawn (world (Git.start Git.offline)) ["git"; "pull"]
                         (Some Git.dotfiles) None
                   = (Exited 1 "" ("fatal: unable to access the remote" ++ nl),
                      Git.offline))
    by (vm_compute; reflexivity).
  split; [exact Hspawn|].
  exact (proj1 (run_command_failed_check_exits (E:=Git.git_world)
                  ["git"; "pull"] true None (Some Git.dotfiles)
                  (Git.start Git.offline) 1 "" _ Git.offline
                  Hspawn ltac:(discriminate) ltac:(discriminate))).
Defined.

(** C2: on the repository that exists and is clean but whose remote
    cannot be reached, [git pull] fails and the run does not continue: the
    failure is logged as an error (red, on stderr), not as a warning, the
    process exits with status 1 from inside [run_command], whatever step
    [next] follows is not run, and "Continuing with existing dotfiles..."
    is never logged. *)
Theorem sync_failure_aborts_the_run :
  forall next : M (state Git.t) unit,
    (clone_dotfiles Git.dotfiles ;; next) (Git.start Git.offline)
    = (Raise (SystemExit 1),
       State Git.offline
         [Logger.info_record "Checking dotfiles repository status";
          Logger.info_record "Updating dotfiles repository";
          Logger.error_record
            ("Command failed: git pull" ++ nl
             ++ "Working directory: /home/user/Work/.dotfiles" ++ nl
             ++ "Return code: 1" ++ nl
             ++ "Stderr: fatal: unable to access the remote" ++ nl)]
         [(["git"; "rev-parse"; "--git-dir"], Some Git.dotfiles);
          (["git"; "status"; "--porcelain"], Some Git.dotfiles);
          (["git"; "pull"], Some Git.dotfiles)]).
Proof. intros next. vm_compute. reflexivity. Qed.

(** C3: on a dirty working copy the synchronizer stashes under its label,
    pulls with [--rebase], and pops the stash; without conflict the copy
    ends with the remote commits, the local modification and no stash
    entry.  When the pop conflicts, however, the run does not go on with a
    warning: [run_command] exits the process with status 1, the warning of
    the handler is never logged, and the step [next] is not run. *)
Theorem dirty_sync_conflict_is_fatal :
  (let run := clone_dotfiles Git.dotfiles (Git.start Git.dirty) in
   fst run = Return tt
   /\ map fst (calls (snd run))
      = [["git"; "rev-parse"; "--git-dir"];
         ["git"; "status"; "--porcelain"];
         ["git"; "stash"; "push"; "-m"; "Auto-stash before pull"];
         ["git"; "pull"; "--rebase"];
         ["git"; "stash"; "list"];
         ["git"; "stash"; "pop"]]
   /\ Git.HEAD (world (snd run)) = length (Git.remote Git.dirty)
   /\ Git.changes (world (snd run)) = Git.changes Git.dirty
   /\ Git.stash (world (snd run)) = [])
  /\ (forall next : M (state Git.t) unit,
        let run := (clone_dotfiles Git.dotfiles ;; next) (Git.start Git.conflicting) in
        fst run = Raise (SystemExit 1)
        /\ Logger.logged Exit.conflict (log (snd run)) = false
        /\ List.last (map fst (calls (snd run))) [] = ["git"; "stash"; "pop"]
        /\ Git.stash (world (snd run))
           = [Git.Entry "Auto-stash before pull" 1 ["tmux/.tmux.conf"]]).
Proof. split; [|intros next]; vm_compute; repeat split. Qed.

Lemma neither_not_logged r1 r2 l :
  Forall (Exit.neither r1 r2) l ->
  Logger.logged r1 l = false /\ Logger.logged r2 l = false.
Proof.
  unfold Logger.logged. induction 1 as [|x l' [H1 H2] _ [IH1 IH2]]; [done|].
  cbn [existsb]. by rewrite H1, H2, IH1, IH2.
Qed.

(** C10: [Logger.error] with its default [exit=True] always raises
    [SystemExit(1)]; so [run_command] never raises anything else, in
    particular no [CalledProcessError] and no [FileNotFoundError]; so in
    [clone_dotfiles] the warning of the stash-pop handler and the
    "Continuing" line are never logged, and [safe_git_pull] never returns
    [False]. *)
Theorem error_exit_makes_handlers_unreachable :
  (forall (St : Type) (L : Logger.HasLog St) (message : string) (s : St),
      fst (Logger.error message true s) = Raise (SystemExit 1))
  /\ (forall (W : Type) (E : World W) cmd check capture_output input cwd (s : state W),
        match fst (run_command cmd check capture_output input cwd s) with
        | Return _ => True
        | Raise e => e = SystemExit 1
        end)
  /\ (forall (W : Type) (E : World W) dotfiles_root (s : state W),
        exists l,
          log (snd (clone_dotfiles dotfiles_root s)) = (log s ++ l)%list
          /\ Logger.logged Exit.conflict l = false
          /\ Logger.logged Exit.continuing l = false
          /\ match fst (clone_dotfiles dotfiles_root s) with
             | Return _ => True
             | Raise e => e = SystemExit 1
             end)
  /\ (forall (W : Type) (E : World W) repo_path repo_name (s : state W),
        match fst (safe_git_pull repo_path repo_name s) with
        | Return b => b = true
        | Raise e => e = SystemExit 1
        end).
Proof.
  split; [reflexivity|]. split; [|split].
  - intros W E cmd check capture_output input cwd s.
    destruct (exits_or_run_command (fun _ => True) ltac:(done)
                cmd check capture_output input cwd s) as (l & _ & _ & Hr).
    destruct (fst _); done.
  - intros W E dotfiles_root s.
    destruct (clone_dotfiles_exits_or dotfiles_root s) as (l & Hl & HP & Hr).
    exists l. split; [done|].
    destruct (neither_not_logged _ _ _ HP) as [H1 H2]. auto.
  - intros W E repo_path repo_name s.
    destruct (safe_git_pull_exits_or repo_path repo_name s) as (l & _ & _ & Hr).
    done.
Qed.

(** ** Dictionaries *)

Section DictFacts.
Context {A : Type}.
Implicit Types (d : list (string * A)) (k : string).

Lemma dict_lookup_setitem k k' (x : A) d :
  Dict.lookup k' (Dict.setitem k x d)
  = if String.eqb k k' then Some x else Dict.lookup k' d.
Proof.
  induction d as [|[k0 y] d IH]; simpl.
  - done.
  - destruct (String.eqb_spec k0 k) as [->|Hne]; simpl.
    + by destruct (String.eqb k k').
    + destruct (String.eqb_spec k0 k') as [->|Hne'].
      * destruct (String.eqb_spec k k'); [congruence|done].
      * apply IH.
Qed.

Lemma dict_lookup_None_keys k d : Dict.lookup k d = None <-> k ∉ Dict.keys d.
Proof.
  induction d as [|[k0 y] d IH]; simpl.
  - split; [intros _; apply not_elem_of_nil|done].
  - rewrite not_elem_of_cons.
    destruct (String.eqb_spec k0 k) as [->|Hne].
    + split; [done|]. by intros [? _].
    + rewrite IH. split; [by split|by intros [_ ?]].
Qed.

Lemma dict_lookup_Some_split k d (x : A) :
  Dict.lookup k d = Some x ->
  exists pre post, d = (pre ++ (k, x) :: post)%list /\ k ∉ Dict.keys pre.
Proof.
  induction d as [|[k0 y] d IH]; simpl; [done|].
  destruct (String.eqb_spec k0 k) as [->|Hne].
  - intros [= ->]. exists [], d. split; [done|apply not_elem_of_nil].
  - intros (pre & post & -> & Hpre)%IH.
    exists ((k0, y) :: pre), post. split; [done|].
    simpl. rewrite not_elem_of_cons. auto.
Qed.

Lemma dict_lookup_app_l k d d' (x : A) :
  k ∉ Dict.keys d -> Dict.lookup k (d ++ (k, x) :: d') = Some x.
Proof.
  induction d as [|[k0 y] d IH]; simpl.
  - by rewrite String.eqb_refl.
  - rewrite not_elem_of_cons. intros [Hne Hd].
    destruct (String.eqb_spec k0 k); [congruence|auto].
Qed.

Lemma dict_setitem_None k d (x : A) :
  Dict.lookup k d = None -> Dict.setitem k x d = (d ++ [(k, x)])%list.
Proof.
  induction d as [|[k0 y] d IH]; simpl; [done|].
  destruct (String.eqb_spec k0 k); [done|]. intros ?. by rewrite IH.
Qed.

Lemma dict_setitem_split k pre post (x y : A) :
  k ∉ Dict.keys pre ->
  Dict.setitem k x (pre ++ (k, y) :: post) = (pre ++ (k, x) :: post)%list.
Proof.
  induction pre as [|[k0 z] pre IH]; simpl.
  - by rewrite String.eqb_refl.
  - rewrite not_elem_of_cons. intros [Hne Hd].
    destruct (String.eqb_spec k0 k); [congruence|]. by rewrite IH.
Qed.

Lemma dict_keys_setitem_Some k d (x y : A) :
  Dict.lookup k d = Some y -> Dict.keys (Dict.setitem k x d) = Dict.keys d.
Proof.
  intros (pre & post & -> & Hpre)%dict_lookup_Some_split.
  rewrite dict_setitem_split by done. unfold Dict.keys. by rewrite !map_app.
Qed.

End DictFacts.

Lemma dict_lookup_map {A B} (f : A -> B) k (d : list (string * A)) :
  Dict.lookup k (map (fun kv => (fst kv, f (snd kv))) d) = f <$> Dict.lookup k d.
Proof.
  induction d as [|[k0 y] d IH]; simpl; [done|]. by destruct (String.eqb k0 k).
Qed.

Lemma dict_setitem_map {A B} (f : A -> B) k x (d : list (string * A)) :
  Dict.setitem k (f x) (map (fun kv => (fst kv, f (snd kv))) d)
  = map (fun kv => (fst kv, f (snd kv))) (Dict.setitem k x d).
Proof.
  induction d as [|[k0 y] d IH]; simpl; [done|].
  destruct (String.eqb k0 k); simpl; [done|]. by rewrite IH.
Qed.

Lemma dict_keys_map {A B} (f : A -> B) (d : list (string * A)) :
  Dict.keys (map (fun kv => (fst kv, f (snd kv))) d) = Dict.keys d.
Proof. unfold Dict.keys. rewrite map_map. by apply map_ext. Qed.

(** Where [d[key] = x] writes: the items before, the item it replaces (if
    any), the items after. *)
Lemma dict_setitem_shape {A} key (d : list (string * A)) :
  exists pre mid post,
    d = (pre ++ mid ++ post)%list
    /\ (forall x, Dict.setitem key x d = (pre ++ (key, x) :: post)%list)
    /\ match Dict.lookup key d with
       | Some old => mid = [(key, old)]
       | None => mid = [] /\ post = []
       end.
Proof.
  destruct (Dict.lookup key d) as [old|] eqn:E.
  - destruct (dict_lookup_Some_split _ _ _ E) as (pre & post & -> & Hpre).
    exists pre, [(key, old)], post. repeat split.
    intros x. by apply dict_setitem_split.
  - exists d, [], []. rewrite app_nil_r. repeat split.
    intros x. by apply dict_setitem_None.
Qed.

Lemma NoDup_replace {A} (x : A) (pre mid mid' post : list A) :
  NoDup (x :: pre ++ mid ++ post) ->
  NoDup mid' ->
  (forall y, y ∈ mid' -> y ∈ mid \/ (y <> x /\ (y ∉ pre) /\ (y ∉ post))) ->
  NoDup (x :: pre ++ mid' ++ post).
Proof.
  rewrite !NoDup_cons, !NoDup_app, !elem_of_app.
  intros (Hx & Hpre & Hdis & Hmid & Hdis' & Hpost) Hmid' Hnew.
  split; [|split; [done|split; [|split; [done|split; [|done]]]]].
  - intros [?|[Hin|?]]; [tauto| |tauto]. destruct (Hnew _ Hin); tauto.
  - intros y Hy. rewrite elem_of_app. intros [Hin|?].
    + destruct (Hnew _ Hin) as [?|?]; [|tauto].
      apply (Hdis y Hy). rewrite elem_of_app. auto.
    + apply (Hdis y Hy). rewrite elem_of_app. auto.
  - intros y Hin Hy. destruct (Hnew _ Hin) as [?|?]; [|tauto]. by apply (Hdis' y).
Qed.

(** ** The configuration in the store *)

Section Store.
Import Config Shape.
Local Open Scope list_scope.

Lemma tree_ind' (P : tree -> Prop) :
  P TNone -> (forall b, P (TBool b)) -> (forall n, P (TInt n)) ->
  (forall x, P (TFloat x)) -> (forall s, P (TStr s)) -> (forall p, P (TPath p)) ->
  (forall xs, P (TList xs)) ->
  (forall items, Forall (fun kv => P (snd kv)) items -> P (TDict items)) ->
  forall t, P t.
Proof.
  intros HNone HBool HInt HFloat HStr HPath HList HDict.
  fix IH 1.
  intros [|b|n|x|s|p|xs|items];
    [exact HNone|apply HBool|apply HInt|apply HFloat|apply HStr|apply HPath|apply HList|].
  apply HDict. induction items as [|[k x] items IHitems]; constructor;
    [apply IH|exact IHitems].
Qed.

Lemma ltree_ind' (P : ltree -> Prop) :
  (forall a, P (LAtom a)) ->
  (forall l items, Forall (fun kv => P (snd kv)) items -> P (LDict l items)) ->
  forall t, P t.
Proof.
  intros HAtom HDict. fix IH 1. intros [a|l items]; [apply HAtom|].
  apply HDict. induction items as [|[k x] items IHitems]; constructor;
    [apply IH|exact IHitems].
Qed.

Lemma place_dict items h :
  place (TDict items) h
  = let '(d, h1) := place_items items h in (Ref (length h1), (h1 ++ [d])%list).
Proof.
  reflexivity.
Qed.

Lemma merge_value_dict items base h :
  merge_value (TDict items) base h = merge_items items base h.
Proof.
  revert h. induction items as [|[key value] items IH]; intros h; [done|].
  cbn [merge_items]. rewrite <- IH. reflexivity.
Qed.

Lemma merge_tree_dict items base :
  merge_tree (TDict items) base = merge_each items base.
Proof. reflexivity. Qed.

Lemma holds_dict h l items :
  holds h (LDict l items)
  <-> h !! l = Some (object items) /\ Forall (fun kv => holds h (snd kv)) items.
Proof.
  simpl. apply and_iff_compat_l.
  induction items as [|kv items IH]; simpl.
  - split; [constructor|done].
  - rewrite Forall_cons, IH. done.
Qed.

Lemma locs_dict l items : locs (LDict l items) = l :: ilocs items.
Proof. reflexivity. Qed.

Lemma erase_dict l items : erase (LDict l items) = TDict (erase_items items).
Proof. reflexivity. Qed.

Lemma elem_of_ilocs l items :
  l ∈ ilocs items <-> exists kv, kv ∈ items /\ l ∈ locs (snd kv).
Proof.
  unfold ilocs. rewrite list_elem_of_In, in_flat_map.
  by setoid_rewrite list_elem_of_In.
Qed.

(** What a located tree says depends on its own objects only. *)
Lemma holds_frame lt : forall h h',
  (forall l, l ∈ locs lt -> h' !! l = h !! l) -> holds h lt -> holds h' lt.
Proof.
  induction lt as [a|l items IH] using ltree_ind'; intros h h' Hsame; [done|].
  rewrite !holds_dict, locs_dict in *. intros [Hl Hitems]. split.
  - rewrite Hsame; [done|]. apply elem_of_cons. auto.
  - rewrite Forall_forall in *. intros kv Hkv.
    apply (IH kv Hkv h); [|auto].
    intros l' Hl'. apply Hsame, elem_of_cons. right.
    apply elem_of_ilocs. eauto.
Qed.

Lemma holds_within h lt : holds h lt -> within h lt.
Proof.
  unfold within. induction lt as [a|l items IH] using ltree_ind'; [constructor|].
  rewrite holds_dict, locs_dict. intros [Hl Hitems]. constructor.
  - by eapply lookup_lt_Some.
  - apply Forall_forall. intros l' (kv & Hkv & Hl')%elem_of_ilocs.
    rewrite Forall_forall in IH, Hitems.
    specialize (IH kv Hkv (Hitems kv Hkv)). rewrite Forall_forall in IH. auto.
Qed.

Lemma holds_extend h extra lt : holds h lt -> holds (h ++ extra) lt.
Proof.
  intros Hh. apply (holds_frame lt h); [|done].
  intros l Hl. apply lookup_app_l.
  pose proof (holds_within h lt Hh) as Hw. unfold within in Hw.
  rewrite Forall_forall in Hw. auto.
Qed.



Lemma holds_below h lt l : holds h lt -> l ∈ locs lt -> l < length h.
Proof.
  intros Hh Hl. pose proof (holds_within h lt Hh) as Hw.
  unfold within in Hw. rewrite Forall_forall in Hw. auto.
Qed.

Lemma place_items_spec items :
  Forall (fun kv => forall h, exists lt extra,
            place (snd kv) h = (root lt, h ++ extra) /\ erase lt = snd kv
            /\ holds (h ++ extra) lt /\ NoDup (locs lt)
            /\ Forall (fun l => length h <= l) (locs lt)) items ->
  forall h, exists litems extra,
    place_items items h = (object litems, h ++ extra)
    /\ erase_items litems = items
    /\ Forall (fun kv => holds (h ++ extra) (snd kv)) litems
    /\ NoDup (ilocs litems)
    /\ Forall (fun l => length h <= l) (ilocs litems).
Proof.
  induction 1 as [|[k x] r Hx _ IH]; intros h.
  - exists [], []. rewrite app_nil_r. repeat split; constructor.
  - destruct (Hx h) as (lx & e1 & Hplace & Herase & Hholds & Hnodup & Hge).
    destruct (IH (h ++ e1)) as (lr & e2 & Hplace' & Herase' & Hholds' & Hnodup' & Hge').
    exists ((k, lx) :: lr), (e1 ++ e2). simpl in *.
    rewrite Hplace, Hplace', Herase, Herase', !app_assoc.
    split; [done|]. split; [done|]. split; [|split].
    + constructor; [|done]. simpl. by apply holds_extend.
    + apply NoDup_app. split; [done|]. split; [|done].
      intros l Hl Hl'. apply (holds_below _ _ _ Hholds) in Hl.
      rewrite Forall_forall in Hge'. apply Hge' in Hl'. lia.
    + apply Forall_app. split; [done|].
      eapply Forall_impl; [exact Hge'|]. intros l. rewrite length_app. lia.
Qed.

(** [place] allocates a separated copy of the tree above everything the
    store had. *)
Lemma place_spec t : forall h, exists lt extra,
  place t h = (root lt, h ++ extra) /\ erase lt = t
  /\ holds (h ++ extra) lt /\ NoDup (locs lt)
  /\ Forall (fun l => length h <= l) (locs lt).
Proof.
  assert (Hatom : forall a h, exists lt extra,
             (Atom a, h) = (root lt, h ++ extra) /\ erase lt = tree_of_atom a
             /\ holds (h ++ extra) lt /\ NoDup (locs lt)
             /\ Forall (fun l => length h <= l) (locs lt)).
  { intros a h. exists (LAtom a), []. rewrite app_nil_r.
    repeat split; constructor. }
  induction t as [|b|n|x|s|p|xs|items IH] using tree_ind'; intros h;
    [apply (Hatom ANone)|apply (Hatom (ABool b))|apply (Hatom (AInt n))
    |apply (Hatom (AFloat x))|apply (Hatom (AStr s))|apply (Hatom (APath p))
    |apply (Hatom (AList xs))|].
  destruct (place_items_spec items IH h)
    as (litems & extra & Hplace & Herase & Hholds & Hnodup & Hge).
  exists (LDict (length (h ++ extra)) litems), (extra ++ [object litems]).
  rewrite place_dict, Hplace, erase_dict, Herase, holds_dict, locs_dict, !app_assoc.
  split; [done|]. split; [done|]. split; [split|split].
  - by apply list_lookup_middle.
  - eapply Forall_impl; [exact Hholds|]. intros kv. apply holds_extend.
  - constructor; [|done]. intros (kv & Hkv & Hl)%elem_of_ilocs.
    rewrite Forall_forall in Hholds.
    apply (holds_below _ _ _ (Hholds kv Hkv)) in Hl. lia.
  - constructor; [rewrite length_app; lia|done].
Qed.

Lemma ilocs_app items items' : ilocs (items ++ items') = ilocs items ++ ilocs items'.
Proof. unfold ilocs. apply flat_map_app. Qed.

Lemma ilocs_cons k c items : ilocs ((k, c) :: items) = locs c ++ ilocs items.
Proof. reflexivity. Qed.

Lemma ilocs_single k c : ilocs [(k, c)] = locs c.
Proof. unfold ilocs. simpl. apply app_nil_r. Qed.

Lemma object_app items items' : object (items ++ items') = object items ++ object items'.
Proof. unfold object. apply map_app. Qed.

(** Replacing the part [mid] of the items of a dict by one item [c']. *)
Lemma replace_item h h1 base pre mid post key c' :
  holds h (LDict base (pre ++ mid ++ post)) ->
  NoDup (locs (LDict base (pre ++ mid ++ post))) ->
  h1 !! base = Some (object (pre ++ (key, c') :: post)) ->
  (forall l, l < length h -> l <> base -> l ∉ ilocs mid -> h1 !! l = h !! l) ->
  holds h1 c' -> NoDup (locs c') ->
  (forall l, l ∈ locs c' -> l ∈ ilocs mid \/ length h <= l) ->
  holds h1 (LDict base (pre ++ (key, c') :: post))
  /\ NoDup (locs (LDict base (pre ++ (key, c') :: post)))
  /\ (forall l, l ∈ ilocs (pre ++ (key, c') :: post) ->
                 l ∈ ilocs (pre ++ mid ++ post) \/ length h <= l).
Proof.
  intros Hh Hnd Hbase Hframe Hc Hndc Hnew.
  assert (Hbelow : forall l, l ∈ locs (LDict base (pre ++ mid ++ post)) ->
                             l < length h)
    by (intros l; by apply holds_below).
  rewrite holds_dict in Hh. destruct Hh as [_ Hitems].
  rewrite locs_dict, !ilocs_app in Hnd, Hbelow.
  rewrite !Forall_app in Hitems. destruct Hitems as (Hpre & _ & Hpost).
  assert (Hold : forall l, l ∈ ilocs pre \/ l ∈ ilocs post ->
                           h1 !! l = h !! l).
  { intros l Hl. apply Hframe.
    - apply Hbelow. rewrite elem_of_cons, !elem_of_app. tauto.
    - intros ->. apply NoDup_cons in Hnd as [Hnd _]. apply Hnd.
      rewrite !elem_of_app. tauto.
    - apply NoDup_cons in Hnd as [_ Hnd]. apply NoDup_app in Hnd as (_ & H1 & Hnd).
      apply NoDup_app in Hnd as (_ & H2 & _). intros Hm.
      destruct Hl as [Hl|Hl]; [apply (H1 l Hl)|apply (H2 l Hm Hl)].
      rewrite elem_of_app. auto. }
  split; [|split].
  - rewrite holds_dict. split; [done|].
    rewrite Forall_app, Forall_cons. split; [|split; [done|]].
    + rewrite Forall_forall in Hpre. apply Forall_forall. intros kv Hkv.
      apply (holds_frame _ h); [|auto]. intros l Hl. apply Hold. left.
      apply elem_of_ilocs. eauto.
    + rewrite Forall_forall in Hpost. apply Forall_forall. intros kv Hkv.
      apply (holds_frame _ h); [|auto]. intros l Hl. apply Hold. right.
      apply elem_of_ilocs. eauto.
  - rewrite locs_dict, ilocs_app, ilocs_cons.
    apply (NoDup_replace base (ilocs pre) (ilocs mid)); [done|done|].
    intros y Hy. destruct (Hnew y Hy) as [?|Hge]; [auto|right].
    assert (Hlt : forall l, l = base \/ l ∈ ilocs pre \/ l ∈ ilocs post -> l <> y).
    { intros l Hl ->. enough (y < length h) by lia.
      apply Hbelow. rewrite elem_of_cons, !elem_of_app. tauto. }
    split; [|split].
    + intros ->. by apply (Hlt base); auto.
    + intros ?. by apply (Hlt y); auto.
    + intros ?. by apply (Hlt y); auto.
  - intros l. rewrite !ilocs_app, ilocs_cons, !elem_of_app.
    intros [?|[Hl|?]]; [tauto| |tauto]. destruct (Hnew l Hl); tauto.
Qed.

Lemma erase_items_app items items' :
  erase_items (items ++ items') = erase_items items ++ erase_items items'.
Proof. unfold erase_items. apply map_app. Qed.

Lemma root_Ref c l : root c = Ref l -> exists items, c = LDict l items.
Proof. destruct c; simpl; [done|]. intros [= ->]. eauto. Qed.

Lemma erase_TDict c items : erase c = TDict items -> exists l litems, c = LDict l litems.
Proof. destruct c as [[]|]; simpl; try done. eauto. Qed.

Lemma holds_deref h base items : holds h (LDict base items) -> deref h base = object items.
Proof. intros [Hb _]. unfold deref. by rewrite Hb. Qed.

Lemma merge_step_cases key value base h :
  (exists b vitems, Dict.lookup key (deref h base) = Some (Ref b) /\ value = TDict vitems)
  \/ match Dict.lookup key (deref h base), value with
     | Some (Ref b), TDict _ => merge_value value b h
     | _, _ =>
         let '(v, h1) := place value h in
         <[base := Dict.setitem key v (deref h1 base)]> h1
     end
     = (let '(v, h1) := place value h in
        <[base := Dict.setitem key v (deref h1 base)]> h1)
     /\ (forall b vitems,
           Dict.lookup key (deref h base) = Some (Ref b) -> value <> TDict vitems).
Proof.
  destruct (Dict.lookup key (deref h base)) as [[a|b]|]; destruct value; eauto;
    right; (split; [reflexivity|intros; congruence]).
Qed.

Lemma each_step_cases key value (base : list (string * tree)) :
  (exists b vitems, Dict.lookup key base = Some (TDict b) /\ value = TDict vitems)
  \/ match Dict.lookup key base, value with
     | Some (TDict b), TDict _ => Dict.setitem key (TDict (merge_tree value b)) base
     | _, _ => Dict.setitem key value base
     end
     = Dict.setitem key value base.
Proof.
  destruct (Dict.lookup key base) as [[]|]; destruct value; eauto.
Qed.

(** One assignment [base[key] = value]. *)
Lemma assign_refined h base items key value :
  holds h (LDict base items) -> NoDup (locs (LDict base items)) ->
  exists items',
    refined h (let '(v, h1) := place value h in
               <[base := Dict.setitem key v (deref h1 base)]> h1)
            base items items' (Dict.setitem key value (erase_items items)).
Proof.
  intros Hh Hnd.
  assert (Hbase : base < length h)
    by (apply (holds_below h (LDict base items)); [done|apply elem_of_cons; auto]).
  destruct (place_spec value h) as (c' & extra & Hplace & Herase & Hc & Hndc & Hge).
  rewrite Hplace.
  assert (Hd : deref (h ++ extra) base = object items).
  { unfold deref. rewrite lookup_app_l by done. by apply holds_deref in Hh. }
  rewrite Hd. unfold object at 1. rewrite (dict_setitem_map root).
  destruct (dict_setitem_shape key items) as (pre & mid & post & Hitems & Hset & _).
  rewrite Hset. exists (pre ++ (key, c') :: post).
  set (h1 := <[base := _]> (h ++ extra)).
  rewrite Forall_forall in Hge.
  destruct (replace_item h h1 base pre mid post key c') as (H1 & H2 & H3).
  - by rewrite <- Hitems.
  - by rewrite <- Hitems.
  - apply list_lookup_insert_eq. rewrite length_app. lia.
  - intros l Hl Hne _. unfold h1. rewrite list_lookup_insert_ne by done.
    by apply lookup_app_l.
  - apply (holds_frame c' (h ++ extra)); [|done]. intros l Hl.
    unfold h1. apply list_lookup_insert_ne. apply Hge in Hl. lia.
  - done.
  - intros l Hl. right. auto.
  - split; [done|]. split; [done|]. split; [|split; [|split]].
    + rewrite <- Herase, <- Hset. unfold erase_items. by rewrite (dict_setitem_map erase).
    + unfold h1. rewrite length_insert, length_app. lia.
    + intros l Hl Hnot. unfold h1. rewrite list_lookup_insert_ne.
      * by apply lookup_app_l.
      * intros ->. apply Hnot, elem_of_cons. auto.
    + by rewrite Hitems.
Qed.

(** One recursive call [_merge_config(base[key], value)], given what the
    call does to the object of [base[key]]. *)
Lemma recurse_refined h h1 base items key b citems citems' result :
  holds h (LDict base items) -> NoDup (locs (LDict base items)) ->
  Dict.lookup key items = Some (LDict b citems) ->
  refined h h1 b citems citems' result ->
  exists items',
    refined h h1 base items items'
            (Dict.setitem key (TDict result) (erase_items items)).
Proof.
  intros Hh Hnd Hkey (Hc & Hndc & Herase & Hlen & Hframe & Hnew).
  assert (Hbase : base < length h)
    by (apply (holds_below h (LDict base items)); [done|apply elem_of_cons; auto]).
  destruct (dict_setitem_shape key items) as (pre & mid & post & Hitems & Hset & Hmid).
  rewrite Hkey in Hmid. subst mid.
  exists (pre ++ (key, LDict b citems') :: post).
  assert (Hsub : forall l, l ∈ locs (LDict b citems) -> l ∈ ilocs items).
  { intros l Hl. rewrite Hitems, !ilocs_app, ilocs_single, !elem_of_app. auto. }
  assert (Hnotbase : base ∉ locs (LDict b citems)).
  { intros Hin%Hsub. rewrite locs_dict in Hnd. by apply NoDup_cons in Hnd as [Hnd _]. }
  destruct (replace_item h h1 base pre [(key, LDict b citems)] post
              key (LDict b citems')) as (H1 & H2 & H3).
  - by rewrite <- Hitems.
  - by rewrite <- Hitems.
  - rewrite Hframe by done. destruct Hh as [Hh _]. rewrite Hh, Hitems.
    by rewrite !object_app.
  - intros l Hl Hne Hnot. apply Hframe; [done|].
    intros Hin. apply Hnot. by rewrite ilocs_single.
  - done.
  - done.
  - intros l. rewrite ilocs_single, !locs_dict, !elem_of_cons.
    intros [->|Hl]; [auto|]. destruct (Hnew l Hl); auto.
  - split; [done|]. split; [done|]. split; [|split; [done|split]].
    + rewrite <- Herase. change (TDict (erase_items citems')) with (erase (LDict b citems')).
      rewrite <- Hset. unfold erase_items. by rewrite (dict_setitem_map erase).
    + intros l Hl Hnot. apply Hframe; [done|]. intros Hin%Hsub.
      apply Hnot, elem_of_cons. auto.
    + by rewrite Hitems.
Qed.

(** [_merge_config] on the store does what its loop does on trees. *)
Lemma merge_value_refined update : forall h base items,
  holds h (LDict base items) -> NoDup (locs (LDict base items)) ->
  exists items',
    refined h (merge_value update base h) base items items'
            (merge_tree update (erase_items items)).
Proof.
  assert (Hid : forall h base items,
             holds h (LDict base items) -> NoDup (locs (LDict base items)) ->
             exists items', refined h h base items items' (erase_items items)).
  { intros h base items Hh Hnd. exists items.
    split; [done|]. split; [done|]. repeat split; auto. }
  induction update as [|b|n|x|s|p|xs|uitems IH] using tree_ind'; try exact Hid.
  intros h base items. rewrite merge_value_dict, merge_tree_dict.
  revert h items. induction IH as [|[key value] rest Hvalue _ IHrest];
    intros h items Hh Hnd; [by apply Hid|].
  cbn [merge_items merge_each].
  assert (exists h1 items1 result1,
             h1 = match Dict.lookup key (deref h base), value with
                  | Some (Ref b), TDict _ => merge_value value b h
                  | _, _ =>
                      let '(v, h1) := place value h in
                      <[base := Dict.setitem key v (deref h1 base)]> h1
                  end
             /\ result1 = match Dict.lookup key (erase_items items), value with
                          | Some (TDict b), TDict _ =>
                              Dict.setitem key (TDict (merge_tree value b)) (erase_items items)
                          | _, _ => Dict.setitem key value (erase_items items)
                          end
             /\ refined h h1 base items items1 result1)
    as (h1 & items1 & result1 & <- & <- & Hstep).
  { rewrite (holds_deref _ _ _ Hh). unfold object, erase_items at 1 2.
    rewrite !dict_lookup_map.
    destruct (Dict.lookup key items) as [[a|b citems]|] eqn:Hkey; simpl.
    - destruct (assign_refined h base items key value Hh Hnd) as [items1 H1].
      eexists _, items1, _. split; [reflexivity|]. split; [|exact H1].
      by destruct a, value.
    - destruct (assign_refined h base items key value Hh Hnd) as [items0 H0].
      destruct value as [| | | | | | |vitems];
        try (eexists _, items0, _; split; [reflexivity|]; split; [|exact H0];
             reflexivity).
      clear items0 H0.
      assert (Hchild : holds h (LDict b citems) /\ NoDup (locs (LDict b citems))).
      { destruct (dict_lookup_Some_split _ _ _ Hkey) as (pre & post & -> & _).
        apply holds_dict in Hh as [_ Hh]. rewrite Forall_app, Forall_cons in Hh.
        split; [tauto|]. rewrite locs_dict, ilocs_app, ilocs_cons in Hnd.
        apply NoDup_cons in Hnd as [_ Hnd]. apply NoDup_app in Hnd as (_ & _ & Hnd).
        by apply NoDup_app in Hnd as (Hnd & _). }
      destruct Hchild as [Hc Hndc].
      destruct (Hvalue h b citems Hc Hndc) as [citems' Hrec].
      destruct (recurse_refined _ _ _ _ _ _ _ _ _ Hh Hnd Hkey Hrec) as [items1 H1].
      eexists _, items1, _. split; [reflexivity|]. split; [|exact H1]. reflexivity.
    - destruct (assign_refined h base items key value Hh Hnd) as [items1 H1].
      eexists _, items1, _. split; [reflexivity|]. split; [|exact H1].
      by destruct value. }
  destruct Hstep as (Hh1 & Hnd1 & Herase1 & Hlen1 & Hframe1 & Hnew1).
  destruct (IHrest _ items1 Hh1 Hnd1) as (items' & Hh' & Hnd' & Herase' & Hlen' & Hframe' & Hnew').
  exists items'. rewrite Herase1 in Herase'.
  split; [done|]. split; [done|]. split; [done|]. split; [lia|]. split.
  - intros l Hl Hnot. rewrite Hframe'; [by apply Hframe1| lia |].
    rewrite locs_dict, elem_of_cons in *. intros [->|Hin]; [tauto|].
    destruct (Hnew1 l Hin); [tauto|lia].
  - intros l Hl. destruct (Hnew' l Hl) as [Hin|]; [|right; lia].
    destruct (Hnew1 l Hin); auto.
Qed.

(** *** The loop of the merge is the union of the specification *)

Lemma distinct_keys_dict items :
  distinct_keys (TDict items)
  <-> NoDup (Dict.keys items) /\ Forall (fun kv => distinct_keys (snd kv)) items.
Proof.
  simpl. apply and_iff_compat_l.
  induction items as [|kv items IH]; simpl.
  - split; [constructor|done].
  - by rewrite Forall_cons, IH.
Qed.

Lemma dict_lookup_elem {A} k (d : list (string * A)) x :
  Dict.lookup k d = Some x -> (k, x) ∈ d.
Proof.
  intros (pre & post & -> & _)%dict_lookup_Some_split.
  apply elem_of_app. right. apply elem_of_cons. auto.
Qed.

Lemma has_key_setitem_Some {A} k k' (d : list (string * A)) x y :
  Dict.lookup k d = Some y ->
  Dict.has_key k' (Dict.setitem k x d) = Dict.has_key k' d.
Proof.
  intros Hk. unfold Dict.has_key. rewrite dict_lookup_setitem.
  destruct (String.eqb_spec k k') as [<-|]; [by rewrite Hk|done].
Qed.

Lemma merge_each_union os :
  Forall (fun kv => forall d, distinct_keys d -> combined d (snd kv) = union d (snd kv)) os ->
  NoDup (Dict.keys os) ->
  forall ds,
    NoDup (Dict.keys ds) ->
    (forall k d, k ∈ Dict.keys os -> Dict.lookup k ds = Some d -> distinct_keys d) ->
    merge_each os ds
    = map (fun kv => (fst kv,
                      match Dict.lookup (fst kv) os with
                      | Some o => union (snd kv) o
                      | None => snd kv
                      end)) ds
      ++ List.filter (fun kv => negb (Dict.has_key (fst kv) ds)) os.
Proof.
  induction 1 as [|[k v] rest Hv _ IH]; intros Hnd ds Hds Hdist.
  - simpl. rewrite app_nil_r. induction ds as [|[k x] ds IHds]; [done|].
    simpl. f_equal. apply IHds.
    + by apply NoDup_cons in Hds as [_ ?].
    + intros ? ? []%elem_of_nil.
  - simpl in Hnd, Hv. apply NoDup_cons in Hnd as [Hk Hnd].
    cbn [merge_each].
    assert (Hstep : match Dict.lookup k ds, v with
                    | Some (TDict b), TDict _ =>
                        Dict.setitem k (TDict (merge_tree v b)) ds
                    | _, _ => Dict.setitem k v ds
                    end
                    = Dict.setitem k match Dict.lookup k ds with
                                     | Some d => union d v
                                     | None => v
                                     end ds).
    { destruct (Dict.lookup k ds) as [d|] eqn:Hd.
      - rewrite <- (Hv d) by (apply (Hdist k d); [apply elem_of_cons; auto|done]).
        by destruct d, v.
      - by destruct v. }
    rewrite Hstep. clear Hstep.
    apply dict_lookup_None_keys in Hk.
    destruct (Dict.lookup k ds) as [d|] eqn:Hd.
    + destruct (dict_lookup_Some_split _ _ _ Hd) as (pre & post & -> & Hpre).
      rewrite dict_setitem_split by done. rewrite IH; [|done| |].
      * f_equal.
        -- rewrite !map_app. simpl. rewrite String.eqb_refl, Hk.
           unfold Dict.keys in Hds. rewrite map_app in Hds. simpl in Hds.
           apply NoDup_app in Hds as (_ & Hdis & Hpost).
           apply NoDup_cons in Hpost as [Hpost _].
           f_equal; [|f_equal]; apply map_ext_in; intros [k' x] Hin%list_elem_of_In;
             simpl; (destruct (String.eqb_spec k k') as [<-|]; [exfalso|done]).
           ++ apply Hpre. apply list_elem_of_fmap. by exists (k, x).
           ++ apply Hpost. apply list_elem_of_fmap. by exists (k, x).
        -- simpl. unfold Dict.has_key at 2. rewrite dict_lookup_app_l by done. simpl.
           apply filter_ext. intros [k' y]. simpl. f_equal.
           unfold Dict.has_key.
           rewrite <- (dict_setitem_split k pre post (union d v) d) by done.
           rewrite dict_lookup_setitem.
           destruct (String.eqb_spec k k') as [<-|]; [|done].
           by rewrite dict_lookup_app_l.
      * unfold Dict.keys in *. rewrite map_app in *. done.
      * intros k' d' Hk' Hd'. apply (Hdist k' d'); [apply elem_of_cons; auto|].
        rewrite <- Hd'.
        rewrite <- (dict_setitem_split k pre post (union d v) d) by done.
        rewrite dict_lookup_setitem.
        destruct (String.eqb_spec k k') as [<-|]; [|done].
        apply dict_lookup_None_keys in Hk. done.
    + rewrite dict_setitem_None by done. rewrite IH; [|done| |].
      * rewrite map_app, <- app_assoc. simpl. rewrite Hk.
        unfold Dict.has_key at 2. rewrite Hd. simpl. f_equal.
        -- apply map_ext_in. intros [k' x] Hin%list_elem_of_In. simpl.
           destruct (String.eqb_spec k k') as [<-|]; [|done].
           apply dict_lookup_None_keys in Hd. exfalso. apply Hd.
           apply list_elem_of_fmap. by exists (k, x).
        -- f_equal. apply filter_ext_in. intros [k' y] Hin%list_elem_of_In. simpl.
           f_equal. unfold Dict.has_key.
           rewrite <- (dict_setitem_None k ds v) by done.
           rewrite dict_lookup_setitem.
           destruct (String.eqb_spec k k') as [<-|]; [|done].
           apply dict_lookup_None_keys in Hk. exfalso. apply Hk.
           apply list_elem_of_fmap. by exists (k, y).
      * unfold Dict.keys in *. rewrite map_app. simpl.
        apply NoDup_app. split; [done|]. split; [|apply NoDup_singleton].
        intros k' Hk' ->%list_elem_of_singleton.
        by apply dict_lookup_None_keys in Hd.
      * intros k' d' Hk' Hd'. apply (Hdist k' d'); [apply elem_of_cons; auto|].
        rewrite <- Hd'. rewrite <- (dict_setitem_None k ds v) by done.
        rewrite dict_lookup_setitem.
        destruct (String.eqb_spec k k') as [<-|]; [|done].
        apply dict_lookup_None_keys in Hk. done.
Qed.

Lemma combined_union o : forall d,
  distinct_keys d -> distinct_keys o -> combined d o = union d o.
Proof.
  induction o as [|b|n|x|s|p|xs|os IH] using tree_ind'; intros d Hd Ho;
    try (by destruct d).
  destruct d as [| | | | | | |ds]; try done.
  apply distinct_keys_dict in Hd as [Hds Hd], Ho as [Hos Ho].
  unfold combined. cbn [union]. f_equal. rewrite merge_tree_dict.
  apply merge_each_union; [|done|done|].
  - rewrite Forall_forall in *. intros kv Hkv d' Hd'.
    apply (IH kv Hkv d' Hd'). apply (Ho kv Hkv).
  - intros k d' _ Hk%dict_lookup_elem. rewrite Forall_forall in Hd.
    apply (Hd _ Hk).
Qed.

(** [_merge_config] leaves in the store the union of what the object held
    and the update. *)
Lemma merge_config_reads h base items update :
  holds h (LDict base items) -> NoDup (locs (LDict base items)) ->
  distinct_keys (TDict (erase_items items)) -> distinct_keys (TDict update) ->
  exists items',
    refined h (_merge_config base update h) base items items'
            (merge_tree (TDict update) (erase_items items))
    /\ erase (LDict base items') = union (TDict (erase_items items)) (TDict update).
Proof.
  intros Hh Hnd Hd Hu.
  destruct (merge_value_refined (TDict update) h base items Hh Hnd) as [items' Hr].
  exists items'. split; [exact Hr|].
  destruct Hr as (_ & _ & Herase & _).
  rewrite erase_dict, Herase. by apply (combined_union (TDict update) (TDict _)).
Qed.

(** *** [get] *)

Lemma get_loop_reads keys : forall lt h default,
  holds h lt ->
  match tree_get keys (erase lt) with
  | Some t => reads h (get_loop h keys (root lt) default) t
  | None => get_loop h keys (root lt) default = default
  end.
Proof.
  induction keys as [|k ks IH]; intros lt h default Hh.
  - simpl. by exists lt.
  - destruct lt as [a|l items]; [by destruct a|].
    cbn [erase tree_get get_loop root]. rewrite (holds_deref _ _ _ Hh).
    unfold object. rewrite !dict_lookup_map.
    apply holds_dict in Hh as [_ Hh]. rewrite Forall_forall in Hh.
    destruct (Dict.lookup k items) as [c|] eqn:Hc; simpl; [|done].
    apply dict_lookup_elem, Hh in Hc. simpl in Hc.
    specialize (IH c h default Hc).
    destruct c as [[]|]; simpl in *; done.
Qed.

Lemma tree_get_app p q t :
  tree_get (p ++ q) t = tree_get p t ≫= tree_get q.
Proof.
  revert t. induction p as [|k p IH]; intros t; [done|].
  destruct t as [| | | | | | |items]; try done. simpl.
  destruct (Dict.lookup k items) as [[]|]; simpl; auto.
Qed.

Lemma tree_get_missing k ks t : tree_get [k] t = None -> tree_get (k :: ks) t = None.
Proof.
  destruct t as [| | | | | | |items]; try done. simpl.
  by destruct (Dict.lookup k items) as [[]|].
Qed.

Lemma dict_lookup_app {A} k (d d' : list (string * A)) :
  Dict.lookup k (d ++ d')
  = match Dict.lookup k d with Some x => Some x | None => Dict.lookup k d' end.
Proof.
  induction d as [|[k0 x] d IH]; simpl; [done|]. by destruct (String.eqb k0 k).
Qed.

Lemma dict_lookup_map_key {A B} (f : string -> A -> B) k (d : list (string * A)) :
  Dict.lookup k (map (fun kv => (fst kv, f (fst kv) (snd kv))) d)
  = f k <$> Dict.lookup k d.
Proof.
  induction d as [|[k0 y] d IH]; simpl; [done|].
  by destruct (String.eqb_spec k0 k) as [->|].
Qed.

Lemma dict_lookup_filter_new {A B} k (d : list (string * A)) (d' : list (string * B)) :
  Dict.lookup k d = None ->
  Dict.lookup k (List.filter (fun kv => negb (Dict.has_key (fst kv) d)) d')
  = Dict.lookup k d'.
Proof.
  intros Hk. induction d' as [|[k0 y] d' IH]; simpl; [done|].
  unfold Dict.has_key at 1. destruct (Dict.lookup k0 d) eqn:Hk0; simpl.
  - destruct (String.eqb_spec k0 k) as [->|]; [congruence|done].
  - by rewrite IH.
Qed.

(** The union, key by key. *)
Lemma lookup_union k ds os :
  Dict.lookup k
    (map (fun kv => (fst kv,
                     match Dict.lookup (fst kv) os with
                     | Some o => union (snd kv) o
                     | None => snd kv
                     end)) ds
     ++ List.filter (fun kv => negb (Dict.has_key (fst kv) ds)) os)
  = match Dict.lookup k ds, Dict.lookup k os with
    | Some d, Some o => Some (union d o)
    | Some d, None => Some d
    | None, o => o
    end.
Proof.
  rewrite dict_lookup_app.
  rewrite (dict_lookup_map_key
             (fun k d => match Dict.lookup k os with
                         | Some o => union d o
                         | None => d
                         end)).
  destruct (Dict.lookup k ds) as [d|] eqn:Hd; simpl.
  - by destruct (Dict.lookup k os).
  - by apply dict_lookup_filter_new.
Qed.

Lemma union_not_dict d o : is_dict d && is_dict o = false -> union d o = o.
Proof. by destruct d, o. Qed.

Lemma union_dict ds o : is_dict o = true -> is_dict (union (TDict ds) o) = true.
Proof. by destruct o. Qed.

Lemma tree_get_dict k ks t v :
  tree_get (k :: ks) t = Some v ->
  exists items x, t = TDict items /\ Dict.lookup k items = Some x
                  /\ x <> TNone /\ tree_get ks x = Some v.
Proof.
  destruct t as [| | | | | | |items]; try done. simpl.
  destruct (Dict.lookup k items) as [x|] eqn:Hk; [|done].
  intros Hv. exists items, x. split; [done|]. split; [done|].
  split; [by intros ->|by destruct x].
Qed.

Lemma tree_get_step k ks items x :
  Dict.lookup k items = Some x -> x <> TNone ->
  tree_get (k :: ks) (TDict items) = tree_get ks x.
Proof. intros Hk Hx. simpl. rewrite Hk. by destruct x. Qed.

(** A key that the override leaves alone resolves as in the defaults. *)
Lemma tree_get_union_untouched keys : forall d o v,
  untouched keys o = true -> tree_get keys d = Some v ->
  tree_get keys (union d o) = Some v.
Proof.
  induction keys as [|k ks IH]; intros d o v Hu Hv; [done|].
  destruct (tree_get_dict _ _ _ _ Hv) as (ds & x & -> & Hk & Hx & Hks).
  destruct o as [| | | | | | |os]; try done.
  cbn [union]. simpl in Hu.
  destruct (Dict.lookup k os) as [o'|] eqn:Ho.
  - destruct ks as [|k' ks']; [done|].
    apply andb_true_iff in Hu as [Hdict Hu].
    destruct (tree_get_dict _ _ _ _ Hks) as (xs & _ & -> & _).
    rewrite (tree_get_step k _ _ (union (TDict xs) o')).
    + by apply IH.
    + by rewrite lookup_union, Hk, Ho.
    + intros Hn. pose proof (union_dict xs o' Hdict) as Hd. by rewrite Hn in Hd.
  - rewrite (tree_get_step k _ _ x); [done| |done].
    by rewrite lookup_union, Hk, Ho.
Qed.

(** A key that both sides resolve, the override to something that is not
    a mapping, resolves to the override's value. *)
Lemma tree_get_union_override keys : forall d o dv ov,
  keys <> [] -> tree_get keys d = Some dv -> tree_get keys o = Some ov ->
  is_dict ov = false ->
  tree_get keys (union d o) = Some ov.
Proof.
  induction keys as [|k ks IH]; intros d o dv ov Hne Hd Ho Hov; [done|].
  destruct (tree_get_dict _ _ _ _ Hd) as (ds & x & -> & Hk & Hx & Hks).
  destruct (tree_get_dict _ _ _ _ Ho) as (os & y & -> & Hk' & Hy & Hks').
  cbn [union].
  rewrite (tree_get_step k _ _ (union x y)).
  - destruct ks as [|k' ks'].
    + simpl in *. simplify_eq. by rewrite union_not_dict by (by rewrite Hov, andb_false_r).
    + by apply (IH x y dv ov).
  - by rewrite lookup_union, Hk, Hk'.
  - destruct ks as [|k' ks'].
    + simpl in *. simplify_eq. by rewrite union_not_dict by (by rewrite Hov, andb_false_r).
    + destruct (tree_get_dict _ _ _ _ Hks) as (xs & _ & -> & _).
      destruct (tree_get_dict _ _ _ _ Hks') as (ys & _ & -> & _). done.
Qed.

Lemma reads_atom h v t :
  reads h v t -> is_dict t = false -> exists a, v = Atom a /\ tree_of_atom a = t.
Proof.
  intros ([a|l items] & <- & _ & <-) Hd; [eauto|done].
Qed.

(** *** Claims on the configuration resolver *)

Lemma fresh_class_holds home :
  holds (copied home) (LDict 2 (default_items home))
  /\ separated (LDict 2 (default_items home))
  /\ distinct_keys (TDict (erase_items (default_items home)))
  /\ erase_items (default_items home)
     = match DEFAULT_CONFIG_literal home with TDict items => items | _ => [] end.
Proof.
  split; [by repeat split|]. split; [|split; [|done]].
  - by apply (bool_decide_unpack _).
  - repeat split; by apply (bool_decide_unpack _).
Qed.

(** C5: merging an override into a dict of the store leaves there the
    recursive key-wise union of the two trees: a key of the merged mapping
    holds the recursive union where both sides hold a mapping, the
    override's value whole where the override binds the key otherwise, and
    the default's value where only the defaults bind it.  A list is such a
    whole value: with [tools] overridden by [["ripgrep"]], [get] of
    [tools] is exactly [["ripgrep"]], not the ten defaults. *)
Theorem merge_config_is_recursive_union h base items update :
  holds h (LDict base items) -> separated (LDict base items) ->
  distinct_keys (TDict (erase_items items)) -> distinct_keys (TDict update) ->
  reads (_merge_config base update h) (Ref base)
        (union (TDict (erase_items items)) (TDict update))
  /\ (exists merged,
        union (TDict (erase_items items)) (TDict update) = TDict merged
        /\ forall k,
             Dict.lookup k merged
             = match Dict.lookup k (erase_items items), Dict.lookup k update with
               | Some d, Some o => Some (if is_dict d && is_dict o then union d o else o)
               | Some d, None => Some d
               | None, o => o
               end)
  /\ (forall home,
        let run := configured home [("tools", TList [TStr "ripgrep"])] in
        fst run = Return 2
        /\ tree_find ["tools"] (DEFAULT_CONFIG_literal home)
           = Some (TList [TStr "ripgrep"; TStr "fd"; TStr "bat"; TStr "eza";
                          TStr "fzf"; TStr "tmux"; TStr "neovim"; TStr "htop";
                          TStr "jq"; TStr "tldr"])
        /\ get (snd run) 2 "tools" (Atom ANone) = Atom (AList [TStr "ripgrep"])).
Proof.
  intros Hh Hnd Hd Hu.
  destruct (merge_config_reads h base items update Hh Hnd Hd Hu)
    as (items' & (Hh' & _) & Herase).
  split; [by exists (LDict base items')|]. split.
  - eexists. split; [reflexivity|]. intros k. rewrite lookup_union.
    destruct (Dict.lookup k (erase_items items)) as [d|]; [|done].
    destruct (Dict.lookup k update) as [o|]; [|done].
    destruct (is_dict d && is_dict o) eqn:E; [done|]. by rewrite union_not_dict.
  - intros home. by vm_compute.
Qed.

Lemma merge_config_is_recursive_union_witness :
  holds (copied "/home/user") (LDict 2 (default_items "/home/user"))
  /\ separated (LDict 2 (default_items "/home/user"))
  /\ distinct_keys (TDict (erase_items (default_items "/home/user")))
  /\ distinct_keys (TDict [("tools", TList [TStr "ripgrep"]);
                           ("shell", TDict [("theme", TStr "agnoster")])])
  /\ reads (_merge_config 2 [("tools", TList [TStr "ripgrep"]);
                             ("shell", TDict [("theme", TStr "agnoster")])]
                          (copied "/home/user"))
           (Ref 2)
           (union (TDict (erase_items (default_items "/home/user")))
                  (TDict [("tools", TList [TStr "ripgrep"]);
                          ("shell", TDict [("theme", TStr "agnoster")])])).
Proof.
  destruct (fresh_class_holds "/home/user") as (Hh & Hnd & Hd & _).
  assert (Hu : distinct_keys (TDict [("tools", TList [TStr "ripgrep"]);
                                     ("shell", TDict [("theme", TStr "agnoster")])]))
    by (repeat split; by apply (bool_decide_unpack _)).
  refine (conj Hh (conj Hnd (conj Hd (conj Hu _)))).
  exact (proj1 (merge_config_is_recursive_union (copied "/home/user") 2
                  (default_items "/home/user") _ Hh Hnd Hd Hu)).
Defined.

Lemma untouched_absent keys : forall o,
  untouched keys o = true -> tree_find keys o = None.
Proof.
  induction keys as [|k ks IH]; intros o Hu; [done|].
  destruct o as [| | | | | | |os]; try done. simpl in *.
  destruct (Dict.lookup k os) as [o'|]; [|done].
  destruct ks as [|k' ks']; [done|].
  apply andb_true_iff in Hu as [_ Hu]. by apply IH.
Qed.

(** C6 (as amended): [get] splits the key at the dots and walks the
    merged tree segment by segment; where a segment is missing, or bound to
    [None], or the value reached is not a mapping, it returns the fallback.
    A key that resolves in the defaults and that the override leaves alone
    (the override binds nothing on the way, or only mappings, and not the
    last segment) yields the default value; a key that resolves in both
    trees, in the override to a value that is not a mapping, yields the
    override's value. *)
Theorem get_walks_the_merged_tree h base items update key fallback :
  holds h (LDict base items) -> separated (LDict base items) ->
  distinct_keys (TDict (erase_items items)) -> distinct_keys (TDict update) ->
  let h' := _merge_config base update h in
  let defaults := TDict (erase_items items) in
  let override := TDict update in
  let path := split "."%char key in
  get h' base key fallback = get_loop h' path (Ref base) fallback
  /\ (forall pre k rest x,
        path = pre ++ k :: rest ->
        tree_get pre (union defaults override) = Some x ->
        tree_get [k] x = None ->
        get h' base key fallback = fallback)
  /\ (forall v,
        tree_get path defaults = Some v -> untouched path override = true ->
        tree_find path override = None
        /\ reads h' (get h' base key fallback) v)
  /\ (forall dv ov,
        tree_get path defaults = Some dv -> tree_get path override = Some ov ->
        is_dict ov = false ->
        exists a, get h' base key fallback = Atom a /\ tree_of_atom a = ov).
Proof.
  intros Hh Hnd Hd Hu h' defaults override path.
  destruct (merge_config_reads h base items update Hh Hnd Hd Hu)
    as (items' & (Hh' & _) & Herase).
  pose proof (get_loop_reads path (LDict base items') h' fallback Hh') as Hget.
  rewrite Herase in Hget. fold defaults override in Hget.
  change (get_loop h' path (root (LDict base items')) fallback)
    with (get h' base key fallback) in Hget.
  split; [reflexivity|]. split; [|split].
  - intros pre k rest x Hpath Hpre Hk.
    rewrite Hpath, tree_get_app, Hpre in Hget.
    change (Some x ≫= tree_get (k :: rest)) with (tree_get (k :: rest) x) in Hget.
    by rewrite (tree_get_missing k rest x Hk) in Hget.
  - intros v Hv Hun. split; [by apply untouched_absent|].
    by rewrite (tree_get_union_untouched path defaults override v Hun Hv) in Hget.
  - intros dv ov Hdv Hov Hnd'.
    assert (path <> []) as Hne by (intros E; rewrite E in Hov; by simplify_eq/=).
    rewrite (tree_get_union_override path defaults override dv ov Hne Hdv Hov Hnd') in Hget.
    by apply (reads_atom h').
Qed.

Lemma get_walks_the_merged_tree_witness :
  holds (copied "/home/user") (LDict 2 (default_items "/home/user"))
  /\ separated (LDict 2 (default_items "/home/user"))
  /\ distinct_keys (TDict (erase_items (default_items "/home/user")))
  /\ distinct_keys (TDict [("shell", TDict [("theme", TStr "agnoster")])])
  /\ reads (_merge_config 2 [("shell", TDict [("theme", TStr "agnoster")])]
                          (copied "/home/user"))
           (get (_merge_config 2 [("shell", TDict [("theme", TStr "agnoster")])]
                               (copied "/home/user"))
                2 "shell.default" (Atom ANone))
           (TStr "zsh")
  /\ get (_merge_config 2 [("shell", TDict [("theme", TStr "agnoster")])]
                        (copied "/home/user"))
         2 "shell.theme" (Atom ANone)
     = Atom (AStr "agnoster").
Proof.
  destruct (fresh_class_holds "/home/user") as (Hh & Hnd & Hd & _).
  assert (Hu : distinct_keys (TDict [("shell", TDict [("theme", TStr "agnoster")])]))
    by (repeat split; by apply (bool_decide_unpack _)).
  refine (conj Hh (conj Hnd (conj Hd (conj Hu _)))). split.
  - destruct (get_walks_the_merged_tree (copied "/home/user") 2
                (default_items "/home/user")
                [("shell", TDict [("theme", TStr "agnoster")])]
                "shell.default" (Atom ANone) Hh Hnd Hd Hu) as (_ & _ & Hb & _).
    exact (proj2 (Hb (TStr "zsh") eq_refl eq_refl)).
  - destruct (get_walks_the_merged_tree (copied "/home/user") 2
                (default_items "/home/user")
                [("shell", TDict [("theme", TStr "agnoster")])]
                "shell.theme" (Atom ANone) Hh Hnd Hd Hu) as (_ & _ & _ & Hc).
    destruct (Hc (TStr "powerlevel10k") (TStr "agnoster") eq_refl eq_refl eq_refl)
      as (a & -> & Ha).
    by destruct a; simplify_eq/=.
Defined.

(** C6 (as stated) fails in two ways.  With the override
    [{"shell": "bash"}] the key [shell.default] is found only in the
    defaults, where it is ["zsh"], yet [get] returns the fallback.  With
    the override [{"shell": {"theme": null}}] the key [shell.theme] is
    found in both trees with scalar values, yet [get] returns the fallback
    and not the override's [None]. *)
Lemma get_as_stated_fails :
  ~ get_as_stated "/home/user" [("shell", TStr "bash")] "shell.default" (Atom ANone)
  /\ ~ get_as_stated "/home/user" [("shell", TDict [("theme", TNone)])]
                      "shell.theme" (Atom (AStr "fallback")).
Proof.
  split; intros Hclaim.
  - destruct (Hclaim 2 eq_refl) as [Hb _].
    destruct (Hb (TStr "zsh") eq_refl eq_refl) as (lt & Hroot & _ & Herase).
    vm_compute in Hroot. by destruct lt as [[]|].
  - destruct (Hclaim 2 eq_refl) as [_ Hc].
    destruct (Hc (TStr "powerlevel10k") TNone eq_refl eq_refl eq_refl eq_refl)
      as (lt & Hroot & _ & Herase).
    vm_compute in Hroot. by destruct lt as [[]|].
Qed.

(** C7: the built-in defaults do not stay as they are.  [DEFAULT_CONFIG.copy()]
    copies the top-level dict only, so merging the override
    [{"shell": {"theme": "robbyrussell"}}] writes into the [shell] mapping
    that [DEFAULT_CONFIG] itself holds: afterwards the class attribute, and
    every configuration built later without any override, reads
    [shell.theme] as ["robbyrussell"] instead of ["powerlevel10k"].  (The
    top-level items of [DEFAULT_CONFIG] are the same object references as
    before.) *)
Theorem merge_mutates_default_config :
  forall home,
    let none := Atom ANone in
    let h0 := class_store home in
    let first := __init__ (Some (Some (TDict [("shell", TDict [("theme", TStr "robbyrussell")])]))) h0 in
    let second := __init__ None (snd first) in
    fst first = Return 2 /\ fst second = Return 3
    /\ get h0 DEFAULT_CONFIG "shell.theme" none = Atom (AStr "powerlevel10k")
    /\ get (snd first) DEFAULT_CONFIG "shell.theme" none = Atom (AStr "robbyrussell")
    /\ get (snd second) 3 "shell.theme" none = Atom (AStr "robbyrussell")
    /\ get (snd second) 3 "shell.default" none = Atom (AStr "zsh")
    /\ deref (snd second) DEFAULT_CONFIG = deref h0 DEFAULT_CONFIG.
Proof. intros home. by vm_compute. Qed.

End Store.

(** ** The file manager *)

Section Files.
Import FS FSSpec.
Local Open Scope list_scope.

(** *** Walking and resolving *)

Lemma walk_app fs p q : walk fs (p ++ q) = walk fs p ≫= (fun n => walk n q).
Proof.
  revert fs. induction p as [|c p IH]; intros fs; [done|].
  destruct fs as [| |es]; try done. simpl.
  destruct (Dict.lookup c es); [apply IH|done].
Qed.

Lemma walk_snoc fs q c :
  walk fs (q ++ [c])
  = match walk fs q with
    | Some (Dir es) => Dict.lookup c es
    | _ => None
    end.
Proof.
  rewrite walk_app. destruct (walk fs q) as [[| |es]|]; try done. simpl.
  by destruct (Dict.lookup c es).
Qed.

Lemma resolve_nil fuel fs d : resolve (S fuel) fs d [] = Some d.
Proof. reflexivity. Qed.

Lemma resolve_cons fuel fs d c r :
  resolve (S fuel) fs d (c :: r)
  = match walk fs (d ++ [c]) with
    | None => None
    | Some (Symlink t) => resolve fuel fs [] (t ++ r)
    | Some _ => resolve (S fuel) fs (d ++ [c]) r
    end.
Proof. reflexivity. Qed.

(** Resolving one more component. *)
Lemma resolve_snoc fs c fuel : forall d a,
  match resolve fuel fs d a with
  | None => resolve fuel fs d (a ++ [c]) = None
  | Some q =>
      match walk fs (q ++ [c]) with
      | None => resolve fuel fs d (a ++ [c]) = None
      | Some (Symlink _) => True
      | Some _ => resolve fuel fs d (a ++ [c]) = Some (q ++ [c])
      end
  end.
Proof.
  induction fuel as [|fuel IHfuel]; intros d a; [done|].
  revert d. induction a as [|x a IHa]; intros d.
  - rewrite resolve_nil. simpl app. rewrite resolve_cons.
    by destruct (walk fs (d ++ [c])) as [[]|].
  - rewrite <- app_comm_cons, !resolve_cons.
    destruct (walk fs (d ++ [x])) as [[|t|]|]; [apply IHa| |apply IHa|done].
    rewrite app_assoc. apply IHfuel.
Qed.

Lemma realpath_snoc_None fs a c :
  match realpath fs a with
  | Some q => walk fs (q ++ [c]) = None
  | None => True
  end ->
  realpath fs (a ++ [c]) = None.
Proof.
  unfold realpath. intros H.
  pose proof (resolve_snoc fs c (S MAXSYMLINKS) [] a) as Hs.
  destruct (resolve (S MAXSYMLINKS) fs [] a) as [q|]; [|done].
  by rewrite H in Hs.
Qed.

Lemma realpath_snoc_Some fs a c q n :
  realpath fs a = Some q -> walk fs (q ++ [c]) = Some n -> link_of n = None ->
  realpath fs (a ++ [c]) = Some (q ++ [c]).
Proof.
  unfold realpath. intros Ha Hw Hn.
  pose proof (resolve_snoc fs c (S MAXSYMLINKS) [] a) as Hs.
  rewrite Ha, Hw in Hs. by destruct n.
Qed.

(** A path that leads somewhere has a directory part that does. *)
Lemma realpath_parent fs a c r :
  realpath fs (a ++ [c]) = Some r ->
  exists q es, realpath fs a = Some q /\ walk fs q = Some (Dir es).
Proof.
  unfold realpath. intros Hr.
  pose proof (resolve_snoc fs c (S MAXSYMLINKS) [] a) as Hs.
  destruct (resolve (S MAXSYMLINKS) fs [] a) as [q|]; [|congruence].
  exists q. rewrite walk_snoc in Hs.
  destruct (walk fs q) as [[| |es]|]; try congruence. eauto.
Qed.

Lemma path_parent_name (p : path) : p <> [] -> p = parent p ++ [name p].
Proof. intros Hp. by apply app_removelast_last. Qed.

Lemma parent_snoc (p : path) c : parent (p ++ [c]) = p.
Proof. apply removelast_last. Qed.

Lemma name_snoc (p : path) c : name (p ++ [c]) = c.
Proof. apply last_last. Qed.

(** The directory part of an existing path, resolved. *)
Lemma exists_parent fs p n :
  is_directory fs = true -> stat_node fs p = Some n ->
  exists q es, realpath fs (parent p) = Some q /\ walk fs q = Some (Dir es).
Proof.
  intros Hfs Hn. destruct (decide (p = [])) as [->|Hp].
  - exists []. destruct fs as [| |es]; try done. by exists es.
  - unfold stat_node in Hn. rewrite (path_parent_name p Hp) in Hn.
    destruct (realpath fs (parent p ++ [name p])) as [r|] eqn:Hr; [|done].
    by apply realpath_parent in Hr.
Qed.

(** *** Adding an entry *)

Lemma set_entry_cons k q c x es :
  set_entry (Dir es) (k :: q ++ [c]) x
  = match Dict.lookup k es with
    | Some m =>
        match set_entry m (q ++ [c]) x with
        | Some m' => Some (Dir (Dict.setitem k m' es))
        | None => None
        end
    | None => None
    end.
Proof. simpl. by destruct (q ++ [c]) eqn:E; [destruct q|]. Qed.

(** A new entry in a directory: the directory gains it, and every path
    that led to an object still leads to one of the same kind. *)
Lemma set_entry_fresh q c x : forall fs es,
  walk fs q = Some (Dir es) -> Dict.lookup c es = None ->
  exists fs',
    set_entry fs (q ++ [c]) (Some x) = Some fs'
    /\ walk fs' q = Some (Dir (es ++ [(c, x)]))
    /\ (forall r n, walk fs r = Some n ->
                    exists n', walk fs' r = Some n' /\ link_of n' = link_of n).
Proof.
  induction q as [|k q IH]; intros fs es Hq Hc.
  - simpl in Hq. injection Hq as ->. exists (Dir (Dict.setitem c x es)).
    split; [reflexivity|].
    rewrite dict_setitem_None by done. split; [done|].
    intros [|k r] n Hn.
    + injection Hn as <-. by eexists.
    + exists n. split; [|done]. simpl in *. rewrite dict_lookup_app.
      by destruct (Dict.lookup k es).
  - destruct fs as [| |es0]; try done. simpl in Hq.
    destruct (Dict.lookup k es0) as [m|] eqn:Hk; [|done].
    destruct (IH m es Hq Hc) as (m' & Hset & Hwalk & Hkeep).
    exists (Dir (Dict.setitem k m' es0)). rewrite <- app_comm_cons, set_entry_cons, Hk, Hset.
    split; [done|]. split.
    + simpl. by rewrite dict_lookup_setitem, String.eqb_refl.
    + intros [|k' r] n Hn.
      * injection Hn as <-. by eexists.
      * simpl in *. rewrite dict_lookup_setitem.
        destruct (String.eqb_spec k k') as [<-|].
        -- rewrite Hk in Hn. by apply Hkeep.
        -- by exists n.
Qed.

Lemma resolve_kept fs fs' :
  (forall r n, walk fs r = Some n ->
               exists n', walk fs' r = Some n' /\ link_of n' = link_of n) ->
  forall fuel d a q, resolve fuel fs d a = Some q -> resolve fuel fs' d a = Some q.
Proof.
  intros Hkeep. induction fuel as [|fuel IHfuel]; [done|].
  intros d a. revert d. induction a as [|x a IHa]; intros d q; [done|].
  rewrite !resolve_cons.
  destruct (walk fs (d ++ [x])) as [n|] eqn:Hn; [|done].
  destruct (Hkeep _ _ Hn) as (n' & -> & Hl).
  destruct n as [|t|], n' as [|t'|]; simplify_eq/=; auto.
Qed.

(** What a path leads to is never a link. *)
Lemma resolve_not_link fs :
  link_of fs = None ->
  forall fuel d a q,
    (exists n, walk fs d = Some n /\ link_of n = None) ->
    resolve fuel fs d a = Some q ->
    exists n, walk fs q = Some n /\ link_of n = None.
Proof.
  intros Hfs. induction fuel as [|fuel IHfuel]; [done|].
  intros d a. revert d. induction a as [|x a IHa]; intros d q Hd.
  - rewrite resolve_nil. by intros [= <-].
  - rewrite resolve_cons.
    destruct (walk fs (d ++ [x])) as [[c m|t|es]|] eqn:Hx; [| | |done].
    + apply IHa. by eexists.
    + apply IHfuel. by exists fs.
    + apply IHa. by eexists.
Qed.

Lemma stat_node_not_link fs p n :
  is_directory fs = true -> stat_node fs p = Some n -> link_of n = None.
Proof.
  intros Hfs. assert (Hlink : link_of fs = None) by (by destruct fs).
  unfold stat_node, realpath.
  destruct (resolve _ fs [] p) as [q|] eqn:Hq; [|done]. intros Hn.
  destruct (resolve_not_link fs Hlink (S MAXSYMLINKS) [] p q) as (n' & Hn' & Hl);
    [by exists fs|exact Hq|congruence].
Qed.

Lemma snapshot_not_link fuel fs : forall n copy,
  snapshot fuel fs n = Some copy -> link_of copy = None.
Proof.
  induction fuel as [|fuel IH]; [done|]. intros [c m|t|es] copy; simpl.
  - by intros [= <-].
  - destruct (stat_node fs t); [apply IH|done].
  - destruct (_ es); [|done]. by intros [= <-].
Qed.

(** A copy of an object without links, within the recursion limit, is the
    object. *)
Lemma snapshot_link_free fs fuel : forall n,
  link_free n = true -> depth n <= fuel -> snapshot fuel fs n = Some n.
Proof.
  induction fuel as [|fuel IH]; intros [c m|t|es] Hfree Hdepth;
    try done; try (simpl in Hdepth; lia).
  cbn [snapshot]. simpl in Hfree, Hdepth. apply le_S_n in Hdepth.
  match goal with |- option_map Dir (?each es) = _ => assert (each es = Some es) as -> end;
    [|done].
  induction es as [|[k x] es IHes]; [done|].
  simpl in Hfree, Hdepth. apply andb_true_iff in Hfree as [Hx Hes].
  rewrite (IH x Hx) by lia. rewrite IHes; [done|done|lia].
Qed.

(** *** The two copies onto a free path *)

Lemma copy2_fresh s p bp c m q fs' :
  stat_node (root s) p = Some (File c m) ->
  realpath (root s) bp = None -> lstat (root s) bp = None ->
  locate (root s) bp = Some q ->
  set_entry (root s) q (Some (File c m)) = Some fs' ->
  copy2 p bp s = (Return tt, set_root fs' s).
Proof.
  intros Hp Hbp Hl Hq Hset. unfold copy2, bind, gets. cbn beta iota.
  rewrite Hp. unfold Path_is_dir, stat_node. rewrite Hbp. cbn beta iota.
  rewrite Hbp, Hl, Hq. unfold write. by rewrite Hset.
Qed.

Lemma copytree_fresh s p bp es q copy fs' :
  stat_node (root s) p = Some (Dir es) ->
  lstat (root s) bp = None -> locate (root s) bp = Some q ->
  snapshot RECURSION_LIMIT (root s) (Dir es) = Some copy ->
  set_entry (root s) q (Some copy) = Some fs' ->
  copytree p bp s = (Return tt, set_root fs' s).
Proof.
  intros Hp Hl Hq Hcopy Hset. unfold copytree, bind, gets. cbn beta iota.
  rewrite Hp, Hl, Hq, Hcopy. unfold write. by rewrite Hset.
Qed.

(** [backup] onto a path at which nothing exists. *)
Lemma backup_onto_free_path s p :
  is_directory (root s) = true ->
  lstat (root s) (backup_path_of p (strftime (now s))) = None ->
  (forall original, stat_node (root s) p = Some original ->
                    is_Some (snapshot RECURSION_LIMIT (root s) original)) ->
  backup_as_stated s p.
Proof.
  intros Hroot Hfree Hcopy. unfold backup_as_stated.
  destruct (stat_node (root s) p) as [original|] eqn:Ho.
  - destruct (Hcopy original eq_refl) as [copy Hsnap].
    destruct (exists_parent _ _ _ Hroot Ho) as (qp & es & Hqp & Hes).
    set (nm := (name p ++ ".backup." ++ strftime (now s))%string) in *.
    assert (Hbp : backup_path_of p (strftime (now s)) = parent p ++ [nm]) by done.
    rewrite Hbp in *. clear Hbp.
    assert (Hloc : locate (root s) (parent p ++ [nm]) = Some (qp ++ [nm])).
    { unfold locate. rewrite parent_snoc, name_snoc, Hqp.
      by destruct (parent p ++ [nm]) eqn:E; [destruct (parent p)|]. }
    assert (Hnew : Dict.lookup nm es = None).
    { unfold lstat in Hfree. rewrite Hloc, walk_snoc, Hes in Hfree. done. }
    assert (Hnone : realpath (root s) (parent p ++ [nm]) = None).
    { apply realpath_snoc_None. rewrite Hqp, walk_snoc, Hes. done. }
    destruct (set_entry_fresh qp nm copy (root s) es Hes Hnew)
      as (fs' & Hset & Hdir & Hkeep).
    assert (Hrun : backup p s
                   = (Return (parent p ++ [nm]),
                      Logger.set_log
                        (log s ++ [Logger.success_record
                                     ("Backed up " ++ show p ++ " to "
                                      ++ show (parent p ++ [nm]))])
                        (set_root fs' s))).
    { unfold backup, bind, gets, Path_exists, Path_is_dir. cbn beta iota.
      rewrite Ho. cbn [negb]. cbn beta iota.
      pose proof (stat_node_not_link _ _ _ Hroot Ho) as Hlink.
      destruct original as [c m|t|es0]; [| done |]; cbn beta iota;
        change (backup_path_of p (strftime (now s))) with (parent p ++ [nm]).
      - replace copy with (File c m) in * by (simpl in Hsnap; congruence).
        by rewrite (copy2_fresh s p _ c m _ fs' Ho Hnone Hfree Hloc Hset).
      - by rewrite (copytree_fresh s p _ es0 _ copy fs' Ho Hfree Hloc Hsnap Hset). }
    rewrite Hrun. cbn [fst snd root Logger.set_log state_log set_root].
    split; [done|]. split; [apply parent_snoc|]. split; [apply name_snoc|].
    rewrite name_snoc.
    assert (Hqp' : realpath fs' (parent p) = Some qp)
      by (by apply (resolve_kept (root s) fs' Hkeep)).
    split.
    + unfold listdir, stat_node. rewrite Hqp, Hqp', Hes, Hdir.
      unfold Dict.keys. by rewrite map_app.
    + exists copy. split; [done|].
      assert (Hw : walk fs' (qp ++ [nm]) = Some copy)
        by (by rewrite walk_snoc, Hdir, dict_lookup_app, Hnew; simpl;
               rewrite String.eqb_refl).
      unfold stat_node.
      rewrite (realpath_snoc_Some fs' (parent p) nm qp copy Hqp' Hw).
      * done.
      * by apply (snapshot_not_link _ _ _ _ Hsnap).
  - unfold backup, bind, gets, Path_exists. by rewrite Ho.
Qed.

(** C9 (as amended): on a path that does not exist, [backup] returns the
    path and changes nothing.  On a path that exists, when nothing exists
    yet at the backup path and the copy succeeds, it returns the sibling
    path named by appending [.backup.<YYYYMMDD_HHMMSS>]; its parent
    directory has exactly that one new entry, and the entry holds what the
    original read as at the call: the original itself when that is a
    regular file, or a directory without links within the recursion
    limit. *)
Theorem backup_makes_one_new_sibling s p :
  is_directory (root s) = true ->
  lstat (root s) (backup_path_of p (strftime (now s))) = None ->
  (forall original, stat_node (root s) p = Some original ->
                    is_Some (snapshot RECURSION_LIMIT (root s) original)) ->
  backup_as_stated s p
  /\ (forall original,
        stat_node (root s) p = Some original ->
        link_free original = true -> depth original <= RECURSION_LIMIT ->
        stat_node (root (snd (backup p s))) (backup_path_of p (strftime (now s)))
        = Some original).
Proof.
  intros Hroot Hfree Hcopy.
  pose proof (backup_onto_free_path s p Hroot Hfree Hcopy) as Hstated.
  split; [done|]. intros original Ho Hlf Hdepth.
  unfold backup_as_stated in Hstated. rewrite Ho in Hstated.
  destruct Hstated as (_ & _ & _ & _ & copy & Hsnap & Hstat).
  rewrite (snapshot_link_free _ _ _ Hlf Hdepth) in Hsnap. congruence.
Qed.

Lemma backup_makes_one_new_sibling_witness :
  is_directory (root booted) = true
  /\ lstat (root booted)
           (backup_path_of ["home"; "user"; ".config"] (strftime (now booted)))
     = None
  /\ backup_as_stated booted ["home"; "user"; ".config"]
  /\ stat_node (root (snd (backup ["home"; "user"; ".config"] booted)))
               ["home"; "user"; ".config.backup.20240105_090307"]
     = Some (Dir [("nvim", Dir [("init.vim", File "set nu" 420)])]).
Proof.
  assert (Hfree : lstat (root booted)
                    (backup_path_of ["home"; "user"; ".config"]
                                    (strftime (now booted))) = None)
    by (by vm_compute).
  split; [reflexivity|]. split; [exact Hfree|].
  destruct (backup_makes_one_new_sibling booted ["home"; "user"; ".config"]
              eq_refl Hfree) as [Hstated Hsame].
  - intros original Ho. vm_compute in Ho. injection Ho as <-.
    eexists. vm_compute. reflexivity.
  - split; [exact Hstated|].
    apply (Hsame _ eq_refl eq_refl). vm_compute. lia.
Defined.

(** C9 (as stated) fails when the backup path is taken: a second backup of
    the same file within the second overwrites the first, and the parent
    directory gains no entry. *)
Lemma backup_as_stated_fails_on_collision :
  ~ backup_as_stated backed_up ["home"; "user"; ".zshrc"].
Proof. intros (_ & _ & _ & H & _). vm_compute in H. discriminate. Qed.

(** C8: with a directory as target, [symlink] backs the directory up and
    then calls [target.unlink()], which raises [IsADirectoryError]: the
    call ends with that exception, the target is still the directory it
    was, and no link has been made.  (With a regular file as target the
    file is backed up, removed and replaced by a link to the source.) *)
Theorem symlink_onto_directory_fails :
  let source := ["home"; "user"; "Work"; ".dotfiles"; "nvim"] in
  let target := ["home"; "user"; ".config"; "nvim"] in
  let run := symlink source target true booted in
  Path_is_dir disk target = true
  /\ Path_exists disk source = true
  /\ fst run = Raise (OtherException "IsADirectoryError")
  /\ Path_is_symlink (root (snd run)) target = false
  /\ lstat (root (snd run)) target = lstat disk target
  /\ listdir (root (snd run)) ["home"; "user"; ".config"]
     = ["nvim"; "nvim.backup.20240105_090307"]
  /\ (let source := ["home"; "user"; "Work"; ".dotfiles"; "zsh"; ".zshrc"] in
      let target := ["home"; "user"; ".zshrc"] in
      let run := symlink source target true booted in
      fst run = Return tt
      /\ lstat (root (snd run)) target = Some (Symlink source)
      /\ stat_node (root (snd run)) ["home"; "user"; ".zshrc.backup.20240105_090307"]
         = Some (File "# old" 384)).
Proof. by vm_compute. Qed.

End Files.

(** ** The detectors of [SystemInfo] *)

Section SystemFacts.
Import SystemInfo Text.
Local Open Scope list_scope.





Lemma split_absent sep s :
  among sep s = false -> Config.split sep s = [s].
Proof.
  induction s as [|c r IH]; [done|]. simpl. intros Hs.
  apply orb_false_iff in Hs as [Hc Hr]. rewrite Hc, (IH Hr). done.
Qed.






(** *** Stripping *)
















(** The architecture is ['amd64'], ['arm64'], ['armv7'] or the machine
    name as the platform gives it; normalising a name that is already
    normal changes nothing. *)
Theorem arch_is_a_normal_form (p : platform) :
  (_detect_arch p = "amd64" \/ _detect_arch p = "arm64" \/ _detect_arch p = "armv7"
   \/ _detect_arch p = machine p)
  /\ normalize (_detect_arch p) = _detect_arch p
  /\ (Dict.lookup (machine p) arch_map = None -> _detect_arch p = machine p).
Proof.
  unfold _detect_arch, normalize, arch_map. generalize (machine p) as m. intros m.
  cbn [Dict.lookup].
  destruct (String.eqb_spec "x86_64" m) as [<-|?]; [vm_compute; by intuition|].
  destruct (String.eqb_spec "aarch64" m) as [<-|?]; [vm_compute; by intuition|].
  destruct (String.eqb_spec "arm64" m) as [<-|?]; [vm_compute; by intuition|].
  destruct (String.eqb_spec "armv7l" m) as [<-|?]; [vm_compute; by intuition|].
  cbn [default]. split; [by intuition|]. split; [|done].
  destruct (String.eqb_spec "x86_64" m); [done|].
  destruct (String.eqb_spec "aarch64" m); [done|].
  destruct (String.eqb_spec "arm64" m); [done|].
  by destruct (String.eqb_spec "armv7l" m).
Qed.

(** The display server is never ['unknown']: it is ['none'] exactly when
    there is no desktop, ['wayland'] whenever [WAYLAND_DISPLAY] is set to a
    non-empty value, and ['x11'] when only [DISPLAY] is. *)
Theorem display_server_is_never_unknown (p : platform) (info : t) :
  __post_init__ p = Return info ->
  display_server info <> "unknown"
  /\ (display_server info = "none" <-> is_desktop info = false)
  /\ (truth (getenv p "WAYLAND_DISPLAY") = true -> display_server info = "wayland")
  /\ (truth (getenv p "WAYLAND_DISPLAY") = false ->
      truth (getenv p "DISPLAY") = true -> display_server info = "x11").
Proof.
  unfold __post_init__. destruct (_detect_distro _ p) as [id|e]; [|done].
  intros [= <-]. cbn [display_server is_desktop].
  unfold _detect_display_server, _detect_desktop, or_else.
  destruct (truth (getenv p "DISPLAY")) eqn:Hd;
    destruct (truth (getenv p "WAYLAND_DISPLAY")) eqn:Hw;
    rewrite ?Hd, ?Hw; cbn; repeat split; intros; try done.
Qed.

Lemma display_server_is_never_unknown_witness :
  __post_init__ sway
  = Return (SystemInfo "linux" "unknown" "arm64" false true "wayland")
  /\ display_server (SystemInfo "linux" "unknown" "arm64" false true "wayland")
     <> "unknown".
Proof.
  assert (Hrun : __post_init__ sway
                 = Return (SystemInfo "linux" "unknown" "arm64" false true "wayland"))
    by (vm_compute; reflexivity).
  split; [exact Hrun|].
  exact (proj1 (display_server_is_never_unknown sway _ Hrun)).
Defined.

End SystemFacts.

(** ** The steps that run commands, in any world *)

Section Steps.
Context {W : Type} {HW : World W} {HH : Sys.Host W}.
Import Sys Run PackageManager.
Local Open Scope list_scope.

(** How a call of [run_command] with a command to run can end. *)
Lemma run_command_cases cmd check capture_output input cwd (s : state W) :
  cmd <> [] ->
  world (snd (run_command cmd check capture_output input cwd s))
  = snd (spawn (world s) cmd cwd input)
  /\ calls (snd (run_command cmd check capture_output input cwd s))
     = calls s ++ [(cmd, cwd)]
  /\ match fst (run_command cmd check capture_output input cwd s) with
     | Return res =>
         log (snd (run_command cmd check capture_output input cwd s)) = log s
         /\ args res = cmd
         /\ (exists out err,
               fst (spawn (world s) cmd cwd input) = Exited (returncode res) out err)
         /\ (check = true -> returncode res = 0%Z)
     | Raise e =>
         e = SystemExit 1
         /\ exists message,
              log (snd (run_command cmd check capture_output input cwd s))
              = log s ++ [Logger.error_record message]
     end.
Proof.
  intros Hcmd. destruct cmd as [|exe cmd']; [done|].
  unfold run_command, try_except, bind, subprocess_run.
  destruct (spawn (world s) (exe :: cmd') cwd input) as [[rc out err| |what] w'] eqn:Hs.
  - destruct check; simpl.
    + destruct (Z.eqb_spec rc 0) as [->|]; simpl.
      * repeat split; eauto.
      * repeat split; eauto.
    + repeat split; eauto. done.
  - simpl. repeat split; eauto.
  - simpl. repeat split; eauto.
Qed.

(** *** Rules of the judgement *)

Section RunRules.
Context (PL : Logger.record -> Prop) (PC : call -> Prop) (E : exn -> Prop).

Lemma runs_ret {A} (a : A) (Q : A -> Prop) :
  Q a -> runs (W:=W) PL PC 0 0 (ret a) Q E.
Proof.
  intros HQ s. exists [], []. simpl. rewrite !app_nil_r.
  split; [done|]. split; [done|]. split; [done|]. split; [done|]. auto.
Qed.

Lemma runs_bind {A B} lo hi lo' hi' (c : M (state W) A) (k : A -> M (state W) B) Q R :
  runs PL PC lo hi c Q E -> (forall a, Q a -> runs PL PC lo' hi' (k a) R E) ->
  runs PL PC (lo + lo') (hi + hi') (bind c k) R E.
Proof.
  intros Hc Hk s. unfold bind.
  destruct (Hc s) as (l & new & Hl & HPL & Hn & HPC & Hhi & Hr).
  destruct (c s) as [[a|e] s1]; simpl in *.
  - destruct Hr as [HQ Hlo].
    destruct (Hk a HQ s1) as (l' & new' & Hl' & HPL' & Hn' & HPC' & Hhi' & Hr').
    exists (l ++ l'), (new ++ new').
    rewrite Hl', Hl, Hn', Hn, !app_assoc, length_app.
    split; [done|]. split; [by apply Forall_app|]. split; [done|].
    split; [by apply Forall_app|]. split; [lia|].
    destruct (fst (k a s1)); [|done]. destruct Hr'. split; [done|lia].
  - exists l, new. split; [done|]. split; [done|]. split; [done|].
    split; [done|]. split; [lia|done].
Qed.

Lemma runs_weaken {A} lo hi lo' hi' (c : M (state W) A) (Q Q' : A -> Prop) :
  runs PL PC lo hi c Q E -> lo' <= lo -> hi <= hi' -> (forall a, Q a -> Q' a) ->
  runs PL PC lo' hi' c Q' E.
Proof.
  intros Hc Hlo Hhi HQ s.
  destruct (Hc s) as (l & new & Hl & HPL & Hn & HPC & Hh & Hr).
  exists l, new. split; [done|]. split; [done|]. split; [done|].
  split; [done|]. split; [lia|].
  destruct (fst (c s)); [|done]. destruct Hr. split; [auto|lia].
Qed.


Lemma runs_log message color file :
  PL (Logger.Record_ color file message) ->
  runs (W:=W) PL PC 0 0 (Logger._log message color file) (fun _ => True) E.
Proof.
  intros HP s. eexists [_], []. simpl. rewrite app_nil_r.
  split; [done|]. split; [by constructor|]. split; [done|]. split; [done|]. auto.
Qed.

Lemma runs_info message :
  PL (Logger.info_record message) ->
  runs (W:=W) PL PC 0 0 (Logger.info message) (fun _ => True) E.
Proof. apply runs_log. Qed.

Lemma runs_warning message :
  PL (Logger.warning_record message) ->
  runs (W:=W) PL PC 0 0 (Logger.warning message) (fun _ => True) E.
Proof. apply runs_log. Qed.

Lemma runs_success message :
  PL (Logger.success_record message) ->
  runs (W:=W) PL PC 0 0 (Logger.success message) (fun _ => True) E.
Proof. apply runs_log. Qed.


Lemma runs_error {A} lo message (k : M (state W) A) Q :
  PL (Logger.error_record message) -> E (SystemExit 1) ->
  runs PL PC lo 0 (Logger.error message true ;; k) Q E.
Proof.
  intros HP He s. eexists [_], []. unfold bind. rewrite error_exits. simpl.
  rewrite app_nil_r.
  split; [done|]. split; [by constructor|]. split; [done|]. split; [done|]. auto.
Qed.


Hypothesis PL_error : forall message, PL (Logger.error_record message).
Hypothesis E_exit : E (SystemExit 1).

Lemma runs_run_command cmd check capture_output input cwd :
  cmd <> [] -> PC (cmd, cwd) ->
  runs PL PC 1 1 (run_command cmd check capture_output input cwd) (fun _ => True) E.
Proof.
  intros Hcmd HP s.
  destruct (run_command_cases cmd check capture_output input cwd s Hcmd)
    as (_ & Hcalls & Hr).
  destruct (fst (run_command cmd check capture_output input cwd s)) as [res|e].
  - destruct Hr as (Hlog & _). exists [], [(cmd, cwd)]. rewrite app_nil_r.
    split; [done|]. split; [done|]. split; [done|].
    split; [by constructor|]. simpl. auto.
  - destruct Hr as (-> & message & Hlog). exists [Logger.error_record message], [(cmd, cwd)].
    split; [done|]. split; [by constructor|]. split; [done|].
    split; [by constructor|]. simpl. auto.
Qed.

Lemma runs_run cmd :
  cmd <> [] -> PC (cmd, None) -> runs PL PC 1 1 (run cmd) (fun _ => True) E.
Proof.
  intros Hcmd HP. unfold run.
  eapply runs_weaken with (Q := fun _ => True);
    [eapply runs_bind; [by apply runs_run_command|intros; by apply runs_ret]
    |simpl; lia|simpl; lia|done].
Qed.



(** *** The package manager *)

Lemma runs_install lo manager packages :
  known manager -> (forall cmd, PC (cmd, None)) ->
  (forall message, PL (Logger.info_record message)) ->
  lo <= (if decide (manager = None) then 1 else 0) ->
  runs PL PC lo 1 (install manager packages) (fun _ => True) E.
Proof.
  intros Hknown HPC HPLi Hlo. unfold install.
  destruct manager as [m|]; simpl.
  - destruct Hknown as [Hm [c Hc]]. rewrite Hm. simpl.
    destruct (match packages with One name => [name] | Several names => names end)
      as [|n names] eqn:Hnames.
    + eapply runs_weaken with (Q := fun _ => True); [by apply runs_ret| | |done]; simpl in *; lia.
    + unfold commands_of. rewrite Hc.
      eapply runs_weaken with (Q := fun _ => True);
        [eapply runs_bind; [by apply runs_info|intros _ _];
         eapply runs_bind with (Q := fun _ => True); [by apply runs_ret|intros c' _];
         apply runs_run; [by destruct (install_cmd c')|done]
        | | |done]; simpl in *; lia.
  - eapply runs_weaken with (Q := fun _ => True); [apply (runs_error lo); [apply PL_error|apply E_exit]| | |done]; simpl in *; lia.
Qed.

Lemma runs_update manager :
  known manager -> (forall cmd, PC (cmd, None)) ->
  (forall message, PL (Logger.info_record message)) ->
  (forall message, PL (Logger.warning_record message)) ->
  runs PL PC 0 1 (update manager) (fun _ => True) E.
Proof.
  intros Hknown HPC HPLi HPLw. unfold update.
  destruct manager as [m|]; simpl.
  - destruct Hknown as [Hm [[i u se] Hc]]. rewrite Hm.
    unfold commands_of. rewrite Hc.
    assert (Hu : u <> []).
    { unfold MANAGERS in Hc. cbn [Dict.lookup] in Hc.
      repeat (match type of Hc with
              | (if ?b then _ else _) = _ => destruct b; [by simplify_eq|]
              end). done. }
    eapply runs_weaken with (Q := fun _ => True);
      [eapply runs_bind; [by apply runs_info|intros _ _];
       eapply runs_bind with (Q := fun c' => c' = Commands i u se);
         [by apply runs_ret|intros c' ->];
       by apply runs_run
      | | |done]; simpl; lia.
  - eapply runs_weaken with (Q := fun _ => True); [by apply runs_warning| | |done]; lia.
Qed.

End RunRules.

Lemma first_found_known w managers :
  Forall (fun m => truthy m = true /\ is_Some (Dict.lookup m MANAGERS)) managers ->
  known (first_found w managers).
Proof.
  induction 1 as [|m ms Hm _ IH]; [done|]. simpl.
  by destruct (truth (which w m)).
Qed.

(** Whatever [_detect_manager] finds is a key of [MANAGERS]. *)
Lemma detected_known w : known (first_found w (Dict.keys MANAGERS)).
Proof.
  apply first_found_known. repeat constructor; by eexists.
Qed.

Lemma first_found_spec w managers :
  match first_found w managers with
  | Some m =>
      exists before after,
        managers = before ++ m :: after
        /\ truth (which w m) = true
        /\ Forall (fun m' => truth (which w m') = false) before
  | None => Forall (fun m => truth (which w m) = false) managers
  end.
Proof.
  induction managers as [|m ms IH]; [constructor|]. simpl.
  destruct (truth (which w m)) eqn:Hm.
  - exists [], ms. split; [done|]. split; [done|]. constructor.
  - destruct (first_found w ms) as [m'|].
    + destruct IH as (before & after & -> & Hm' & Hbefore).
      exists (m :: before), after. split; [done|]. split; [done|]. by constructor.
    + by constructor.
Qed.

(** *** More on the command runner *)

(** [run_command] spawns its command exactly once, whatever comes of it
    (and nothing for an empty [argv]).  When it returns it has logged
    nothing, and with [check=True] the exit code it returns is 0; in every
    other case it has logged one error record and leaves the process with
    status 1. *)
Theorem run_command_spawns_once cmd check capture_output input cwd (s : state W) :
  calls (snd (run_command cmd check capture_output input cwd s))
  = calls s ++ match cmd with [] => [] | _ => [(cmd, cwd)] end
  /\ match fst (run_command cmd check capture_output input cwd s) with
     | Return res =>
         log (snd (run_command cmd check capture_output input cwd s)) = log s
         /\ args res = cmd
         /\ (check = true -> returncode res = 0%Z)
     | Raise e =>
         e = SystemExit 1
         /\ exists message,
              log (snd (run_command cmd check capture_output input cwd s))
              = log s ++ [Logger.error_record message]
     end.
Proof.
  destruct cmd as [|exe cmd'].
  - simpl. rewrite app_nil_r. split; [done|]. split; [done|]. by eexists.
  - destruct (run_command_cases (exe :: cmd') check capture_output input cwd s)
      as (_ & Hcalls & Hr); [done|].
    split; [done|].
    destruct (fst (run_command (exe :: cmd') check capture_output input cwd s));
      [|done].
    by destruct Hr as (? & ? & _ & ?).
Qed.

(** When the executable is not on the [PATH], the caller does not get
    the [FileNotFoundError]: one record names the command that was not
    found and gives the full command line, and the process exits with
    status 1. *)
Theorem run_command_missing_executable exe arguments check capture_output
    input cwd (s : state W) w' :
  spawn (world s) (exe :: arguments) cwd input = (ExecNotFound, w') ->
  run_command (exe :: arguments) check capture_output input cwd s
  = (Raise (SystemExit 1),
     State w'
       (log s ++ [Logger.error_record
                    ("Command not found: " ++ exe ++ nl ++ "Full command: "
                     ++ join " " (exe :: arguments))])
       (calls s ++ [(exe :: arguments, cwd)])).
Proof.
  intros Hs. unfold run_command, try_except, bind, subprocess_run.
  by rewrite Hs.
Qed.

(** *** More on the package manager *)

(** [_detect_manager] takes the first of [apt], [dnf], [pacman], [brew],
    [apk], in this order, that is on the [PATH]: every manager before the
    one it returns is missing, and it returns [None] only when all five
    are.  Looking changes nothing. *)
Theorem detect_manager_takes_the_first (s : state W) :
  snd (_detect_manager s) = s
  /\ match fst (_detect_manager s) with
     | Return (Some m) =>
         exists before after,
           ["apt"; "dnf"; "pacman"; "brew"; "apk"] = before ++ m :: after
           /\ truth (which (world s) m) = true
           /\ Forall (fun m' => truth (which (world s) m') = false) before
     | Return None =>
         Forall (fun m => truth (which (world s) m) = false)
                ["apt"; "dnf"; "pacman"; "brew"; "apk"]
     | Raise _ => False
     end.
Proof.
  split; [done|]. unfold _detect_manager, gets. cbn [fst].
  apply (first_found_spec (world s) ["apt"; "dnf"; "pacman"; "brew"; "apk"]).
Qed.

Lemma install_unfold m c n names (s : state W) :
  Dict.lookup m MANAGERS = Some c ->
  install (Some m) (Several (n :: names)) s
  = (Logger.info ("Installing " ++ join ", " (n :: names)) ;;
     run (install_cmd c ++ n :: names)) s.
Proof.
  intros Hc. unfold install.
  assert (Hm : truthy m = true).
  { unfold MANAGERS in Hc. cbn [Dict.lookup] in Hc.
    repeat (match type of Hc with
            | (if String.eqb ?k m then _ else _) = _ =>
                destruct (String.eqb_spec k m) as [<-|]; [done|]
            end). done. }
  cbn [truth default]. rewrite Hm. cbn [negb].
  unfold commands_of, id. rewrite Hc. reflexivity.
Qed.

(** With a package manager, [install] of a non-empty list runs one
    command, the manager's install command followed by the packages, after
    announcing them; an empty list runs and logs nothing; and a single
    name given as a string is installed as the list of that one name. *)
Theorem install_runs_one_command m c (names : list string) (s : state W) :
  Dict.lookup m MANAGERS = Some c ->
  (names = [] -> install (Some m) (Several names) s = (Return tt, s))
  /\ (names <> [] ->
      calls (snd (install (Some m) (Several names) s))
      = calls s ++ [(install_cmd c ++ names, None)]
      /\ match fst (install (Some m) (Several names) s) with
         | Return _ =>
             log (snd (install (Some m) (Several names) s))
             = log s ++ [Logger.info_record ("Installing " ++ join ", " names)]
         | Raise e =>
             e = SystemExit 1
             /\ exists message,
                  log (snd (install (Some m) (Several names) s))
                  = log s ++ [Logger.info_record ("Installing " ++ join ", " names);
                              Logger.error_record message]
         end)
  /\ (forall name,
        install (Some m) (One name) s = install (Some m) (Several [name]) s).
Proof.
  intros Hc. split; [|split].
  - intros ->. unfold install.
    assert (Hm : truthy m = true).
    { unfold MANAGERS in Hc. cbn [Dict.lookup] in Hc.
      repeat (match type of Hc with
              | (if String.eqb ?k m then _ else _) = _ =>
                  destruct (String.eqb_spec k m) as [<-|]; [done|]
              end). done. }
    cbn [truth]. by rewrite Hm.
  - intros Hnames. destruct names as [|n names]; [done|].
    rewrite (install_unfold m c n names s Hc).
    unfold bind at 1. unfold Logger.info, Logger._log, modify. cbn beta iota.
    unfold run, bind.
    match goal with
    | |- context [run_command ?cmd true true None None ?s1] =>
        destruct (run_command_cases cmd true true None None s1) as (_ & Hcalls & Hr);
          [by destruct (install_cmd c)|];
        destruct (run_command cmd true true None None s1) as [[res|e] s2]
    end; simpl in *.
    + destruct Hr as (Hlog & _). by rewrite Hcalls, Hlog.
    + destruct Hr as (-> & message & Hlog). rewrite Hcalls, Hlog.
      split; [done|]. split; [done|]. exists message. by rewrite <- app_assoc.
  - done.
Qed.

(** Without a package manager [update] only warns and returns, but
    [install] leaves the process with status 1, whatever the packages, an
    empty list included; so [install_cli_tools] never reaches its last
    line. *)
Theorem without_a_manager_install_exits (p : packages) (tools : list string)
    (s : state W) :
  update None s
  = (Return tt,
     State (world s) (log s ++ [Logger.warning_record "No package manager found"])
           (calls s))
  /\ install None p s
     = (Raise (SystemExit 1),
        State (world s) (log s ++ [Logger.error_record "No package manager found"])
              (calls s))
  /\ ShellEnvironment.install_cli_tools None tools s
     = (Raise (SystemExit 1),
        State (world s)
              (log s ++ [Logger.info_record "Installing CLI tools";
                         Logger.error_record "No package manager found"])
              (calls s)).
Proof.
  destruct s as [w l c]. split; [reflexivity|]. split; [reflexivity|].
  unfold ShellEnvironment.install_cli_tools, install, bind. simpl.
  by rewrite <- app_assoc.
Qed.

(** *** More on the steps of the installer *)

Lemma package_of_other manager tool :
  manager <> Some "apt" -> ShellEnvironment.package_of manager tool = tool.
Proof.
  intros Hm. unfold ShellEnvironment.package_of, ShellEnvironment.tool_map.
  cbn [Dict.lookup].
  destruct (String.eqb_spec "eza" tool) as [<-|]; [done|].
  destruct (String.eqb_spec "fd" tool) as [<-|]; [|done].
  by destruct (decide (manager = Some "apt")).
Qed.

Lemma package_of_apt tool :
  ShellEnvironment.package_of (Some "apt") tool
  = if String.eqb tool "fd" then "fd-find" else tool.
Proof.
  unfold ShellEnvironment.package_of, ShellEnvironment.tool_map.
  cbn [Dict.lookup].
  destruct (String.eqb_spec "eza" tool) as [<-|]; [done|].
  destruct (String.eqb_spec "fd" tool) as [<-|Hfd]; [done|].
  destruct (String.eqb_spec tool "fd") as [->|]; done.
Qed.

(** The tools are installed under their own names, in the order of the
    configuration, except that with [apt] the tool [fd] is installed as
    [fd-find]; with a package manager and at least one tool, the step runs
    one command, the manager's install command followed by these
    names. *)
Theorem cli_tools_keep_their_names manager (tools : list string) (s : state W) :
  (manager <> Some "apt" -> map (ShellEnvironment.package_of manager) tools = tools)
  /\ map (ShellEnvironment.package_of (Some "apt")) tools
     = map (fun tool => if String.eqb tool "fd" then "fd-find" else tool) tools
  /\ (forall m c,
        manager = Some m -> Dict.lookup m MANAGERS = Some c -> tools <> [] ->
        calls (snd (ShellEnvironment.install_cli_tools manager tools s))
        = calls s ++ [(install_cmd c ++ map (ShellEnvironment.package_of manager) tools,
                       None)]).
Proof.
  split; [|split].
  - intros Hm. induction tools as [|t ts IH]; [done|].
    simpl. by rewrite IH, package_of_other.
  - induction tools as [|t ts IH]; [done|].
    simpl. by rewrite IH, package_of_apt.
  - intros m c -> Hc Htools. unfold ShellEnvironment.install_cli_tools.
    destruct tools as [|t ts]; [done|]. cbn [map].
    unfold bind at 1. unfold Logger.info at 1. unfold Logger._log, modify.
    cbn beta iota. unfold bind at 1.
    rewrite (install_unfold m c _ _ _ Hc).
    unfold bind at 1. unfold Logger.info at 1. unfold Logger._log, modify.
    cbn beta iota. unfold run, bind.
    match goal with
    | |- context [run_command ?cmd true true None None ?s1] =>
        destruct (run_command_cases cmd true true None None s1) as (_ & Hcalls & _);
          [by destruct (install_cmd c)|];
        destruct (run_command cmd true true None None s1) as [[res|e] s2]
    end; simpl in *; by rewrite Hcalls.
Qed.

(** [install_system_packages] runs at most one command and cannot fail
    with an exception of its own: it returns or the process exits with
    status 1.  With [apk], for which it lists no packages, and without a
    package manager it runs nothing and still reports success. *)
Theorem system_packages_take_one_command manager (s : state W) :
  (exists new,
     calls (snd (DotfilesInstaller.install_system_packages manager s))
     = calls s ++ new /\ length new <= 1)
  /\ match fst (DotfilesInstaller.install_system_packages manager s) with
     | Return _ => True
     | Raise e => e = SystemExit 1
     end
  /\ (manager = None \/ manager = Some "apk" ->
      DotfilesInstaller.install_system_packages manager s
      = (Return tt,
         State (world s)
               (log s ++ [Logger.info_record "Installing system packages";
                          Logger.success_record "System packages installed"])
               (calls s))).
Proof.
  assert (Hruns : runs (W:=W) (fun _ => True) (fun _ => True) 0 1
                    (DotfilesInstaller.install_system_packages manager)
                    (fun _ => True) exits).
  { unfold DotfilesInstaller.install_system_packages.
    eapply runs_weaken with (Q := fun _ => True);
      [eapply runs_bind with (Q := fun _ => True); [by apply runs_info|intros _ _];
       eapply runs_bind with (Q := fun _ => True) (lo := 0) (hi := 1);
         [|intros _ _; by apply runs_success]
      |simpl; lia|simpl; lia|done].
    destruct manager as [m|];
      [|eapply runs_weaken with (Q := fun _ => True); [by apply runs_ret|lia|lia|done]].
    destruct (Dict.lookup m DotfilesInstaller.system_packages) as [pk|] eqn:Hpk;
      [|eapply runs_weaken with (Q := fun _ => True); [by apply runs_ret|lia|lia|done]].
    apply runs_install; try done.
    unfold DotfilesInstaller.system_packages in Hpk. cbn [Dict.lookup] in Hpk.
    repeat (match type of Hpk with
            | (if String.eqb ?k m then _ else _) = _ =>
                destruct (String.eqb_spec k m) as [<-|];
                  [split; [done|by eexists]|]
            end). done. }
  destruct (Hruns s) as (l & new & _ & _ & Hcalls & _ & Hhi & Hr).
  split; [by exists new|]. split.
  - by destruct (fst _).
  - destruct s as [w l0 c0]. intros [-> | ->].
    + unfold DotfilesInstaller.install_system_packages, bind, Logger.info,
        Logger.success, Logger._log, modify. simpl.
      by rewrite <- app_assoc.
    + unfold DotfilesInstaller.install_system_packages, bind, Logger.info,
        Logger.success, Logger._log, modify. simpl.
      by rewrite <- app_assoc.
Qed.

Lemma missing_of_pure required (s : state W) :
  DotfilesInstaller.missing_of required s
  = (Return (List.filter
               (fun cmd => match which (world s) cmd with Some _ => false | None => true end)
               required), s).
Proof.
  induction required as [|cmd rest IH]; [done|].
  cbn [DotfilesInstaller.missing_of List.filter].
  unfold bind, command_exists, gets. rewrite IH.
  by destruct (which (world s) cmd).
Qed.

(** [check_prerequisites] returns only when the network answers, and its
    last record is then the success line; otherwise the process exits with
    status 1.  It runs at most two commands, the update and the
    installation of what is missing, and none when [git] and [curl] are
    both there. *)
Theorem check_prerequisites_needs_the_network (w0 : W) (s : state W) :
  let manager := first_found w0 (Dict.keys MANAGERS) in
  let r := DotfilesInstaller.check_prerequisites manager s in
  (exists new,
     calls (snd r) = calls s ++ new /\ length new <= 2
     /\ (is_Some (which (world s) "git") -> is_Some (which (world s) "curl") ->
         new = []))
  /\ match fst r with
     | Return _ =>
         urlopen (world (snd r)) "https://www.google.com" = true
         /\ exists l,
              log (snd r) = l ++ [Logger.success_record "Prerequisites satisfied"]
     | Raise e => e = SystemExit 1
     end.
Proof.
  intros manager r.
  pose proof (detected_known w0) as Hknown. fold manager in Hknown.
  set (s1 := State (world s)
                   (log s ++ [Logger.info_record "Checking prerequisites"])
                   (calls s)).
  set (missing :=
         List.filter
           (fun cmd => match which (world s) cmd with Some _ => false | None => true end)
           ["git"; "curl"]).
  set (mid := match missing with
              | [] => ret tt
              | _ =>
                  Logger.info ("Installing missing prerequisites: "
                               ++ join ", " missing) ;;
                  update manager ;;
                  install manager (Several missing)
              end : M (state W) unit).
  set (rest := (online <- check_internet ;;
                (if negb online
                 then Logger.error "Internet connection required" true
                 else ret tt) ;;
                Logger.success "Prerequisites satisfied") : M (state W) unit).
  assert (Hsplit : r = bind mid (fun _ => rest) s1).
  { subst r. unfold DotfilesInstaller.check_prerequisites.
    unfold bind at 1. unfold Logger.info at 1. unfold Logger._log, modify.
    cbn beta iota. unfold bind at 1. rewrite missing_of_pure. reflexivity. }
  assert (Hrest : forall s2,
             rest s2
             = if urlopen (world s2) "https://www.google.com"
               then (Return tt,
                     State (world s2)
                           (log s2 ++ [Logger.success_record "Prerequisites satisfied"])
                           (calls s2))
               else (Raise (SystemExit 1),
                     State (world s2)
                           (log s2 ++ [Logger.error_record "Internet connection required"])
                           (calls s2))).
  { intros [w2 l2 c2]. unfold rest, bind, check_internet, gets. cbn beta iota.
    cbn [world]. by destruct (urlopen w2 "https://www.google.com"). }
  assert (Hmid : runs (W:=W) (fun _ => True) (fun _ => True) 0 2 mid
                   (fun _ => True) exits).
  { subst mid. destruct missing as [|c cs].
    - eapply runs_weaken with (Q := fun _ => True); [by apply runs_ret|lia|lia|done].
    - eapply runs_weaken with (Q := fun _ => True);
        [eapply runs_bind with (Q := fun _ => True); [by apply runs_info|intros _ _];
         eapply runs_bind with (Q := fun _ => True);
           [by apply runs_update|intros _ _];
         apply runs_install with (lo := 0); try done; lia
        |simpl; lia|simpl; lia|done]. }
  assert (Hnone : is_Some (which (world s) "git") ->
                  is_Some (which (world s) "curl") -> mid s1 = (Return tt, s1)).
  { intros [g Hg] [c Hc]. subst mid missing. cbn [List.filter].
    by rewrite Hg, Hc. }
  destruct (Hmid s1) as (l & new & Hlog & _ & Hcalls & _ & Hhi & Hr).
  change (calls s1) with (calls s) in Hcalls.
  rewrite Hsplit. unfold bind.
  destruct (mid s1) as [[[]|e] s2] eqn:Hrun; cbn [fst snd] in *.
  - assert (Hnew : is_Some (which (world s) "git") ->
                   is_Some (which (world s) "curl") -> new = []).
    { intros Hg Hc. specialize (Hnone Hg Hc). injection Hnone as Hs2.
      rewrite Hs2 in Hcalls. change (calls s1) with (calls s) in Hcalls.
      apply (f_equal length) in Hcalls. rewrite length_app in Hcalls.
      destruct new; [done|simpl in Hcalls; lia]. }
    rewrite Hrest.
    destruct (urlopen (world s2) "https://www.google.com") eqn:Hnet; cbn [fst snd world calls log].
    + split; [by exists new|]. split; [done|]. by eexists.
    + split; [by exists new|done].
  - split; [|done]. exists new. split; [done|]. split; [done|].
    intros Hg Hc. by specialize (Hnone Hg Hc).
Qed.

(** *** Checkouts *)




(** *** The handlers of [install_zsh] *)






End Steps.

Lemma install_runs_one_command_witness :
  Dict.lookup "apt" PackageManager.MANAGERS
  = Some (PackageManager.Commands ["sudo"; "apt"; "install"; "-y"]
            ["sudo"; "apt"; "update"] ["apt"; "search"])
  /\ calls (snd (PackageManager.install (Some "apt")
                   (PackageManager.Several ["git"; "curl"])
                   (Machine.start Machine.debian)))
     = [(["sudo"; "apt"; "install"; "-y"; "git"; "curl"], None)].
Proof.
  split; [reflexivity|].
  exact (proj1 (proj1 (proj2 (install_runs_one_command (HW:=Machine.machine_world)
                               "apt" _ ["git"; "curl"]
                               (Machine.start Machine.debian) eq_refl))
                      ltac:(discriminate))).
Defined.

Lemma run_command_missing_executable_witness :
  spawn (world (Git.start Git.clean)) ["chsh"; "-s"; "/usr/bin/zsh"] None None
  = (ExecNotFound, Git.clean)
  /\ run_command ["chsh"; "-s"; "/usr/bin/zsh"] true true None None
                 (Git.start Git.clean)
     = (Raise (SystemExit 1),
        State Git.clean
          [Logger.error_record
             ("Command not found: chsh" ++ nl
              ++ "Full command: chsh -s /usr/bin/zsh")]
          [(["chsh"; "-s"; "/usr/bin/zsh"], None)]).
Proof.
  assert (Hspawn : spawn (world (Git.start Git.clean)) ["chsh"; "-s"; "/usr/bin/zsh"]
                         None None
                   = (ExecNotFound, Git.clean))
    by (vm_compute; reflexivity).
  split; [exact Hspawn|].
  exact (run_command_missing_executable (HW:=Git.git_world)
           "chsh" ["-s"; "/usr/bin/zsh"] true true None None
           (Git.start Git.clean) Git.clean Hspawn).
Defined.

(** ** The steps that skip what is there *)

Section Skips.
Context {W : Type} {HW : World W} {HH : Sys.Host W}.
Import Sys.
Local Open Scope list_scope.

(** [run_command(cmd)] as a statement: one call, and the process goes on
    or exits with status 1. *)
Lemma run_outcome cmd cwd (s : state W) :
  cmd <> [] ->
  calls (snd (run_command cmd true true None cwd s)) = calls s ++ [(cmd, cwd)]
  /\ match fst (run_command cmd true true None cwd s) with
     | Return _ => log (snd (run_command cmd true true None cwd s)) = log s
     | Raise e => e = SystemExit 1
     end.
Proof.
  intros Hcmd.
  destruct (run_command_cases cmd true true None cwd s Hcmd) as (_ & Hcalls & Hr).
  split; [done|].
  destruct (fst (run_command cmd true true None cwd s)); by destruct Hr.
Qed.

Ltac step_run :=
  match goal with
  | |- context [run_command ?cmd true true None ?cwd ?s2] =>
      let Hcalls := fresh "Hcalls" in
      let Hr := fresh "Hr" in
      destruct (run_outcome cmd cwd s2) as (Hcalls & Hr); [done|];
      destruct (run_command cmd true true None cwd s2) as [[?|?] ?];
      cbn [fst snd calls log world Logger.set_log Logger.get_log state_log]
        in Hcalls, Hr |- *;
      [|subst]
  end.

(** [install_pyenv] first brings the checkout in [~/.pyenv] up to date, with
    a pull inside it when it exists and a full clone into it otherwise.
    The build dependencies are installed, with one [apt install], only when
    the package manager is [apt]: with any other manager, and with none,
    the step runs the [git] command alone.  It ends by returning or by
    leaving the process with status 1. *)
Theorem pyenv_build_dependencies_only_with_apt manager home (s : state W) :
  let r := PythonEnvironment.install_pyenv manager home s in
  let pyenv_root := (home ++ "/.pyenv")%string in
  let checkout :=
    if path_exists (world s) pyenv_root
    then (["git"; "pull"], Some pyenv_root)
    else (["git"; "clone"; "https://github.com/pyenv/pyenv.git"; pyenv_root], None) in
  let packages :=
    (["sudo"; "apt"; "install"; "-y"] ++ PythonEnvironment.build_dependencies,
     @None string) in
  match fst r with
  | Return _ =>
      calls (snd r)
      = calls s ++ checkout :: (if decide (manager = Some "apt") then [packages] else [])
  | Raise e =>
      e = SystemExit 1
      /\ (calls (snd r) = calls s ++ [checkout]
          \/ manager = Some "apt" /\ calls (snd r) = calls s ++ [checkout; packages])
  end.
Proof.
  cbv zeta.
  unfold PythonEnvironment.install_pyenv, ShellEnvironment.pull_or_clone.
  destruct (decide (manager = Some "apt")) as [->|Hother].
  - unfold PackageManager.install, PackageManager.commands_of, default, id.
    change (Dict.lookup "apt" PackageManager.MANAGERS)
      with (Some (PackageManager.Commands ["sudo"; "apt"; "install"; "-y"]
                    ["sudo"; "apt"; "update"] ["apt"; "search"])).
    cbn [truth]. change (truthy "apt") with true.
    unfold PythonEnvironment.build_dependencies.
    unfold run, run_in, bind, gets, ret, Logger.info, Logger.success, Logger._log, modify.
    cbn [negb PackageManager.install_cmd app]. cbn beta iota.
    destruct (path_exists (world s) (home ++ "/.pyenv")%string); cbn beta iota.
    + step_run; [|by (split; [|left])].
      step_run.
      * rewrite Hcalls0, Hcalls, <- app_assoc. done.
      * split; [done|]. right. split; [done|].
        by rewrite Hcalls0, Hcalls, <- app_assoc.
    + step_run; [|by (split; [|left])].
      step_run.
      * rewrite Hcalls0, Hcalls, <- app_assoc. done.
      * split; [done|]. right. split; [done|].
        by rewrite Hcalls0, Hcalls, <- app_assoc.
  - unfold run, run_in, bind, gets, ret, Logger.info, Logger.success, Logger._log, modify.
    cbn beta iota.
    destruct (path_exists (world s) (home ++ "/.pyenv")%string); cbn beta iota;
      step_run; first [done | by (split; [|left])].
Qed.


End Skips.

(** ** More on the file manager *)

Section Directories.
Import FS FSSpec Tree Sys.
Local Open Scope list_scope.

(** *** Resolution *)

Lemma resolve_mono fs fuel : forall d a q,
  resolve fuel fs d a = Some q -> resolve (S fuel) fs d a = Some q.
Proof.
  induction fuel as [|fuel IHfuel]; intros d a; [done|].
  revert d. induction a as [|c r IHa]; intros d q; [done|].
  rewrite (resolve_cons fuel), (resolve_cons (S fuel)).
  destruct (walk fs (d ++ [c])) as [[|t|]|]; [apply IHa|apply IHfuel|apply IHa|done].
Qed.

Lemma resolve_le fs fuel fuel' d a q :
  fuel <= fuel' -> resolve fuel fs d a = Some q -> resolve fuel' fs d a = Some q.
Proof. induction 1; [done|]. intros. by apply resolve_mono, IHle. Qed.

(** A resolution goes through the resolution of every prefix. *)
Lemma resolve_app fs fuel : forall d a b q,
  resolve fuel fs d (a ++ b) = Some q ->
  exists q1, resolve fuel fs d a = Some q1 /\ resolve fuel fs q1 b = Some q.
Proof.
  induction fuel as [|fuel IHfuel]; intros d a; [done|].
  revert d. induction a as [|c r IHa]; intros d b q Hq.
  - by exists d.
  - rewrite <- app_comm_cons, resolve_cons in Hq. rewrite resolve_cons.
    destruct (walk fs (d ++ [c])) as [[|t|]|]; [by apply IHa| |by apply IHa|done].
    rewrite app_assoc in Hq. apply IHfuel in Hq as (q1 & H1 & H2).
    exists q1. split; [done|]. by apply resolve_mono.
Qed.


(** A path is canonical when it resolves to itself without following a
    link; what a resolution gives is canonical. *)
Lemma resolve_canonical fs fuel : forall d a q,
  resolve fuel fs d a = Some q ->
  resolve 1 fs [] d = Some d -> resolve 1 fs [] q = Some q.
Proof.
  induction fuel as [|fuel IHfuel]; intros d a; [done|].
  revert d. induction a as [|c r IHa]; intros d q Hq Hd.
  - rewrite resolve_nil in Hq. by simplify_eq.
  - rewrite resolve_cons in Hq.
    pose proof (resolve_snoc fs c 1 [] d) as Hs. rewrite Hd in Hs.
    destruct (walk fs (d ++ [c])) as [[|t|]|] eqn:Hc; try done.
    + by apply (IHa _ _ Hq).
    + by apply (IHfuel _ _ _ Hq).
    + by apply (IHa _ _ Hq).
Qed.

Lemma realpath_idempotent fs p q : realpath fs p = Some q -> realpath fs q = Some q.
Proof.
  unfold realpath. intros Hq.
  apply (resolve_le fs 1); [unfold MAXSYMLINKS; lia|].
  by apply (resolve_canonical fs (S MAXSYMLINKS) [] p).
Qed.

(** What [Path.resolve] makes of a path that exists, exists. *)
Lemma Path_resolve_exists fs p :
  Path_exists fs p = true -> Path_exists fs (Path_resolve fs p) = true.
Proof.
  unfold Path_exists, Path_resolve, stat_node.
  destruct (realpath fs p) as [q|] eqn:Hq; [|done].
  by rewrite (realpath_idempotent fs p q Hq).
Qed.


(** *** Keeping what is there *)

Lemma extends_refl fs : extends fs fs.
Proof. intros r n Hn. by exists n. Qed.

Lemma extends_trans fs1 fs2 fs3 : extends fs1 fs2 -> extends fs2 fs3 -> extends fs1 fs3.
Proof.
  intros H12 H23 r n Hn.
  destruct (H12 r n Hn) as (n2 & Hn2 & Hl2 & Hd2).
  destruct (H23 r n2 Hn2) as (n3 & Hn3 & Hl3 & Hd3).
  exists n3. split; [done|]. split; congruence.
Qed.

Lemma resolve_extends fs fs' fuel d a q :
  extends fs fs' -> resolve fuel fs d a = Some q -> resolve fuel fs' d a = Some q.
Proof.
  intros Hext. apply resolve_kept. intros r n Hn.
  destruct (Hext r n Hn) as (n' & Hn' & Hl & _). by exists n'.
Qed.

Lemma walk_dir_extends fs fs' q es :
  extends fs fs' -> walk fs q = Some (Dir es) -> exists es', walk fs' q = Some (Dir es').
Proof.
  intros Hext Hq. destruct (Hext q _ Hq) as ([| |es'] & Hq' & _ & Hd); try done.
  by exists es'.
Qed.

Lemma set_entry_snoc_inv x c : forall d fs fs1,
  set_entry fs (d ++ [c]) x = Some fs1 -> exists es, walk fs d = Some (Dir es).
Proof.
  induction d as [|k d IH]; intros fs fs1 Hset.
  - destruct fs as [| |es]; try done. by exists es.
  - destruct fs as [| |es]; try (by destruct d). 
    rewrite <- app_comm_cons, set_entry_cons in Hset. simpl.
    destruct (Dict.lookup k es) as [m|]; [|done].
    destruct (set_entry m (d ++ [c]) x) as [m'|] eqn:Hm; [|done].
    by apply (IH m m').
Qed.

(** A new entry in a directory keeps everything that was there. *)
Lemma set_entry_fresh_extends q c x : forall fs es,
  walk fs q = Some (Dir es) -> Dict.lookup c es = None ->
  exists fs',
    set_entry fs (q ++ [c]) (Some x) = Some fs'
    /\ walk fs' q = Some (Dir (es ++ [(c, x)]))
    /\ extends fs fs'.
Proof.
  induction q as [|k q IH]; intros fs es Hq Hc.
  - simpl in Hq. injection Hq as ->. exists (Dir (Dict.setitem c x es)).
    split; [reflexivity|].
    rewrite dict_setitem_None by done. split; [done|].
    intros [|k r] n Hn.
    + injection Hn as <-. by eexists.
    + exists n. split; [|done]. simpl in *. rewrite dict_lookup_app.
      by destruct (Dict.lookup k es).
  - destruct fs as [| |es0]; try done. simpl in Hq.
    destruct (Dict.lookup k es0) as [m|] eqn:Hk; [|done].
    destruct (IH m es Hq Hc) as (m' & Hset & Hwalk & Hkeep).
    exists (Dir (Dict.setitem k m' es0)).
    rewrite <- app_comm_cons, set_entry_cons, Hk, Hset.
    split; [done|]. split.
    + simpl. by rewrite dict_lookup_setitem, String.eqb_refl.
    + intros [|k' r] n Hn.
      * injection Hn as <-. by eexists.
      * simpl in *. rewrite dict_lookup_setitem.
        destruct (String.eqb_spec k k') as [<-|].
        -- rewrite Hk in Hn. by apply Hkeep.
        -- by exists n.
Qed.

(** *** Making directories *)

Lemma made_makedirs t : forall fs d, made fs d t -> makedirs fs d t = Some fs.
Proof.
  induction t as [|c r IH]; intros fs d Hmade; [done|].
  destruct Hmade as (q & es & Hq & Hes & Hr). cbn [makedirs]. rewrite Hq, Hes.
  by apply IH.
Qed.

Lemma made_extends t : forall fs fs' d,
  extends fs fs' -> made fs d t -> made fs' d t.
Proof.
  induction t as [|c r IH]; intros fs fs' d Hext Hmade; [done|].
  destruct Hmade as (q & es & Hq & Hes & Hr).
  destruct (walk_dir_extends fs fs' q es Hext Hes) as [es' Hes'].
  exists q, es'. split; [by apply (resolve_extends fs)|]. split; [done|].
  by apply (IH fs).
Qed.

(** What [makedirs] returns has the directories, and keeps what was
    there. *)
Lemma makedirs_made t : forall fs d fs',
  makedirs fs d t = Some fs' -> made fs' d t /\ extends fs fs'.
Proof.
  induction t as [|c r IH]; intros fs d fs' Hrun.
  - injection Hrun as <-. split; [done|apply extends_refl].
  - cbn [makedirs] in Hrun.
    destruct (resolve (S MAXSYMLINKS) fs d [c]) as [q|] eqn:Hq.
    + destruct (walk fs q) as [[| |es]|] eqn:Hes; try done.
      destruct (IH _ _ _ Hrun) as [Hmade Hext]. split; [|done].
      destruct (walk_dir_extends fs fs' q es Hext Hes) as [es' Hes'].
      exists q, es'. split; [by apply (resolve_extends fs)|done].
    + destruct (walk fs (d ++ [c])) as [n|] eqn:Hn; [done|].
      destruct (set_entry fs (d ++ [c]) (Some (Dir []))) as [fs1|] eqn:Hset; [|done].
      destruct (IH _ _ _ Hrun) as [Hmade Hext].
      destruct (set_entry_snoc_inv _ _ _ _ _ Hset) as [es Hes].
      assert (Hc : Dict.lookup c es = None) by (by rewrite walk_snoc, Hes in Hn).
      destruct (set_entry_fresh_extends d c (Dir []) fs es Hes Hc)
        as (fs1' & Hset' & Hd & Hext1).
      assert (fs1' = fs1) as -> by congruence.
      assert (Hnew : walk fs1 (d ++ [c]) = Some (Dir [])).
      { rewrite walk_snoc, Hd, dict_lookup_app, Hc. simpl. by rewrite String.eqb_refl. }
      destruct (walk_dir_extends fs1 fs' _ _ Hext Hnew) as [es' Hes'].
      split; [|by apply (extends_trans fs fs1)].
      exists (d ++ [c]), es'. split; [|done].
      by rewrite resolve_cons, Hes'.
Qed.

(** Below a directory that a prefix of the path leads to, [makedirs] goes
    on from that directory. *)
Lemma resolve_from_dir fs fuel q1 r q es :
  resolve (S fuel) fs q1 r = Some q -> walk fs q = Some (Dir es) ->
  exists es1, walk fs q1 = Some (Dir es1).
Proof.
  destruct r as [|c r]; intros Hq Hes.
  - rewrite resolve_nil in Hq. simplify_eq. by exists es.
  - rewrite resolve_cons, walk_snoc in Hq.
    destruct (walk fs q1) as [[| |es1]|]; try done. by exists es1.
Qed.

Lemma makedirs_resolved fs a : forall d q es t,
  resolve (S MAXSYMLINKS) fs d a = Some q -> walk fs q = Some (Dir es) ->
  makedirs fs d (a ++ t) = makedirs fs q t.
Proof.
  induction a as [|c r IH]; intros d q es t Hq Hes.
  - rewrite resolve_nil in Hq. by simplify_eq.
  - change (c :: r) with ([c] ++ r) in Hq.
    apply resolve_app in Hq as (q1 & H1 & H2).
    destruct (resolve_from_dir _ _ _ _ _ _ H2 Hes) as [es1 Hes1].
    rewrite <- app_comm_cons. cbn [makedirs]. rewrite H1, Hes1.
    by apply (IH q1 q es).
Qed.

Lemma dict_setitem_same {A} k (x : A) d :
  Dict.lookup k d = Some x -> Dict.setitem k x d = d.
Proof.
  induction d as [|[k' y] d IH]; [done|]. simpl.
  destruct (String.eqb_spec k' k) as [->|]; [by intros [= ->]|].
  intros Hk. by rewrite IH.
Qed.

Lemma set_entry_same : forall d fs n,
  d <> [] -> walk fs d = Some n -> set_entry fs d (Some n) = Some fs.
Proof.
  induction d as [|k d IH]; intros fs n Hd Hn; [done|].
  destruct fs as [| |es]; try done. simpl in Hn.
  destruct (Dict.lookup k es) as [m|] eqn:Hk; [|done].
  destruct d as [|k' d'].
  - simpl in Hn. simplify_eq. simpl. by rewrite dict_setitem_same.
  - change (set_entry (Dir es) (k :: k' :: d') (Some n))
      with (match Dict.lookup k es with
            | Some m =>
                match set_entry m (k' :: d') (Some n) with
                | Some m' => Some (Dir (Dict.setitem k m' es))
                | None => None
                end
            | None => None
            end).
    rewrite Hk, (IH m n) by done. by rewrite dict_setitem_same.
Qed.

Lemma dict_setitem_twice {A} k (x y : A) d :
  Dict.setitem k y (Dict.setitem k x d) = Dict.setitem k y d.
Proof.
  induction d as [|[k' z] d IH]; simpl.
  - by rewrite String.eqb_refl.
  - destruct (String.eqb_spec k' k) as [->|Hne]; simpl.
    + by rewrite String.eqb_refl.
    + destruct (String.eqb_spec k' k); [done|]. by rewrite IH.
Qed.

(** Writing an entry twice is writing the second. *)
Lemma set_entry_twice c x y : forall d fs fs1,
  set_entry fs (d ++ [c]) (Some x) = Some fs1 ->
  set_entry fs1 (d ++ [c]) (Some y) = set_entry fs (d ++ [c]) (Some y).
Proof.
  induction d as [|k d IH]; intros fs fs1 Hset.
  - destruct fs as [| |es]; try done. simpl in *. simplify_eq.
    by rewrite dict_setitem_twice.
  - destruct fs as [| |es]; try (by destruct d).
    rewrite <- app_comm_cons, set_entry_cons in Hset.
    destruct (Dict.lookup k es) as [m|] eqn:Hk; [|done].
    destruct (set_entry m (d ++ [c]) (Some x)) as [m'|] eqn:Hm; [|done].
    simplify_eq. rewrite <- app_comm_cons, !set_entry_cons.
    rewrite dict_lookup_setitem, String.eqb_refl, Hk, (IH m m' Hm).
    destruct (set_entry m (d ++ [c]) (Some y)); [|done].
    by rewrite dict_setitem_twice.
Qed.

(** An entry set inside an entry that is an empty directory. *)
Lemma set_entry_inside c x k : forall d fs,
  walk fs (d ++ [k]) = Some (Dir []) ->
  set_entry fs ((d ++ [k]) ++ [c]) (Some x)
  = set_entry fs (d ++ [k]) (Some (Dir [(c, x)])).
Proof.
  induction d as [|k' d IH]; intros fs Hk.
  - destruct fs as [| |es]; try done. simpl in *.
    destruct (Dict.lookup k es) as [m|] eqn:Hm; [|done]. by simplify_eq.
  - destruct fs as [| |es]; try done.
    rewrite <- !app_comm_cons, !set_entry_cons.
    rewrite <- app_comm_cons in Hk. simpl in Hk.
    destruct (Dict.lookup k' es) as [m|]; [|done].
    by rewrite (IH m Hk).
Qed.

(** Below an empty directory, [makedirs] makes the chain of the
    directories that are missing. *)
Lemma makedirs_chain r : forall fs d k,
  walk fs (d ++ [k]) = Some (Dir []) ->
  makedirs fs (d ++ [k]) r = set_entry fs (d ++ [k]) (Some (chain r)).
Proof.
  induction r as [|c r IH]; intros fs d k Hk.
  - simpl. symmetry. apply set_entry_same; [by destruct d|done].
  - cbn [makedirs chain].
    assert (Hc : walk fs ((d ++ [k]) ++ [c]) = None) by (by rewrite walk_snoc, Hk).
    rewrite resolve_cons, Hc.
    destruct (set_entry_fresh_extends (d ++ [k]) c (Dir []) fs [] Hk eq_refl)
      as (fs1 & Hset & Hd & _).
    rewrite Hset.
    assert (Hnew : walk fs1 ((d ++ [k]) ++ [c]) = Some (Dir []))
      by (by rewrite walk_snoc, Hd; simpl; rewrite String.eqb_refl).
    rewrite (IH fs1 (d ++ [k]) c Hnew).
    rewrite (set_entry_twice c _ _ _ _ _ Hset).
    by apply set_entry_inside.
Qed.

Lemma walk_chain r : walk (chain r) r = Some (Dir []).
Proof. induction r as [|c r IH]; [done|]. simpl. by rewrite String.eqb_refl. Qed.

(** *** More on [ensure_dir] and [setup_directories] *)

(** Where a prefix of the path leads to a directory that has no entry
    for the next component, [ensure_dir] makes the rest of the path as one
    new entry of that directory, a chain of otherwise empty directories;
    everything else stays as it was. *)
Theorem ensure_dir_makes_the_missing_chain (s : state) a d es c r :
  realpath (root s) a = Some d -> walk (root s) d = Some (Dir es) ->
  Dict.lookup c es = None ->
  exists fs',
    ensure_dir (a ++ c :: r) s = (Return (a ++ c :: r), set_root fs' s)
    /\ set_entry (root s) (d ++ [c]) (Some (chain r)) = Some fs'
    /\ walk fs' d = Some (Dir (es ++ [(c, chain r)]))
    /\ walk fs' (d ++ c :: r) = Some (Dir [])
    /\ extends (root s) fs'.
Proof.
  intros Ha Hes Hc.
  destruct (set_entry_fresh_extends d c (chain r) (root s) es Hes Hc)
    as (fs' & Hset & Hd & Hext).
  exists fs'. split; [|split; [done|split; [done|split; [|done]]]].
  - unfold ensure_dir, mkdir_parents, bind.
    rewrite (makedirs_resolved (root s) a [] d es (c :: r) Ha Hes).
    cbn [makedirs].
    assert (Hnone : walk (root s) (d ++ [c]) = None) by (by rewrite walk_snoc, Hes).
    rewrite resolve_cons, Hnone.
    destruct (set_entry_fresh_extends d c (Dir []) (root s) es Hes Hc)
      as (fs1 & Hset1 & Hd1 & _).
    rewrite Hset1.
    assert (Hnew : walk fs1 (d ++ [c]) = Some (Dir [])).
    { rewrite walk_snoc, Hd1, dict_lookup_app, Hc. simpl. by rewrite String.eqb_refl. }
    rewrite (makedirs_chain r fs1 d c Hnew), (set_entry_twice c _ _ _ _ _ Hset1), Hset.
    done.
  - rewrite walk_app, Hd. simpl. rewrite dict_lookup_app, Hc. simpl.
    rewrite String.eqb_refl. apply walk_chain.
Qed.

Lemma ensure_dir_makes_the_missing_chain_witness :
  realpath (root booted) ["home"; "user"] = Some ["home"; "user"]
  /\ ensure_dir ["home"; "user"; ".local"; "share"; "fonts"] booted
     = (Return ["home"; "user"; ".local"; "share"; "fonts"],
        set_root
          (Dir [("home",
                 Dir [("user",
                       Dir [("Work",
                             Dir [(".dotfiles",
                                   Dir [("zsh", Dir [(".zshrc", File "export EDITOR=nvim" 420)]);
                                        ("nvim", Dir [("init.lua", File "vim.o.number = true" 420)])])]);
                            (".zshrc", File "# old" 384);
                            (".config", Dir [("nvim", Dir [("init.vim", File "set nu" 420)])]);
                            (".local", Dir [("share", Dir [("fonts", Dir [])])])])])])
          booted).
Proof.
  split; [reflexivity|].
  destruct (ensure_dir_makes_the_missing_chain booted ["home"; "user"] ["home"; "user"]
              _ ".local" ["share"; "fonts"] eq_refl eq_refl eq_refl)
    as (fs' & Hrun & Hset & _).
  vm_compute in Hset. injection Hset as <-. exact Hrun.
Defined.

Lemma mkdir_parents_inv p (s s' : state) :
  mkdir_parents p s = (Return tt, s') ->
  makedirs (root s) [] p = Some (root s') /\ s' = set_root (root s') s.
Proof.
  unfold mkdir_parents. destruct (makedirs (root s) [] p) as [fs'|]; [|done].
  intros [= <-]. by destruct s.
Qed.

Lemma ensure_dir_inv p p' (s s' : state) :
  ensure_dir p s = (Return p', s') ->
  p' = p /\ makedirs (root s) [] p = Some (root s') /\ s' = set_root (root s') s.
Proof.
  unfold ensure_dir, bind.
  destruct (mkdir_parents p s) as [[[]|e] s1] eqn:Hrun; [|done].
  intros [= <- <-]. split; [done|]. by apply mkdir_parents_inv.
Qed.

Lemma ensure_dir_made p (s : state) :
  made (root s) [] p -> ensure_dir p s = (Return p, s).
Proof.
  intros Hmade. unfold ensure_dir, mkdir_parents, bind.
  rewrite (made_makedirs p _ _ Hmade). by destruct s.
Qed.

(** [ensure_dir] is idempotent: after a call that returned, the same call
    changes nothing.  It only adds: every object that a path led to is
    still there, and the log is as it was. *)
Theorem ensure_dir_is_idempotent p p' (s s' : state) :
  ensure_dir p s = (Return p', s') ->
  ensure_dir p s' = (Return p, s')
  /\ p' = p
  /\ extends (root s) (root s')
  /\ log s' = log s.
Proof.
  intros Hrun. destruct (ensure_dir_inv p p' s s' Hrun) as (-> & Hmk & Hs').
  destruct (makedirs_made p _ _ _ Hmk) as [Hmade Hext].
  split; [by apply ensure_dir_made|]. split; [done|]. split; [done|].
  rewrite Hs'. by destruct s.
Qed.

Lemma ensure_dir_is_idempotent_witness :
  ensure_dir ["home"; "user"; ".local"; "bin"] booted
  = (Return ["home"; "user"; ".local"; "bin"],
     snd (ensure_dir ["home"; "user"; ".local"; "bin"] booted))
  /\ ensure_dir ["home"; "user"; ".local"; "bin"]
       (snd (ensure_dir ["home"; "user"; ".local"; "bin"] booted))
     = (Return ["home"; "user"; ".local"; "bin"],
        snd (ensure_dir ["home"; "user"; ".local"; "bin"] booted)).
Proof.
  assert (Hrun : ensure_dir ["home"; "user"; ".local"; "bin"] booted
                 = (Return ["home"; "user"; ".local"; "bin"],
                    snd (ensure_dir ["home"; "user"; ".local"; "bin"] booted)))
    by (vm_compute; reflexivity).
  split; [exact Hrun|].
  exact (proj1 (ensure_dir_is_idempotent _ _ _ _ Hrun)).
Defined.

Lemma ensure_all_inv dirs : forall (s s' : state),
  for_each dirs (fun directory => ensure_dir directory ;; ret tt) s = (Return tt, s') ->
  Forall (fun d => made (root s') [] d) dirs
  /\ extends (root s) (root s') /\ log s' = log s /\ now s' = now s.
Proof.
  induction dirs as [|d dirs IH]; intros s s' Hrun.
  - injection Hrun as <-. split; [done|]. split; [apply extends_refl|done].
  - cbn [for_each] in Hrun. unfold bind at 1 2 in Hrun.
    destruct (ensure_dir d s) as [[p|e] s1] eqn:Hd; [|done].
    cbn beta iota in Hrun.
    destruct (ensure_dir_inv d p s s1 Hd) as (_ & Hmk & Hs1).
    destruct (makedirs_made d _ _ _ Hmk) as [Hmade Hext].
    destruct (IH s1 s' Hrun) as (Hall & Hext' & Hlog & Hnow).
    split; [|split; [by apply (extends_trans _ (root s1))|]].
    + constructor; [by apply (made_extends d (root s1))|done].
    + rewrite Hlog, Hnow, Hs1. by destruct s.
Qed.

Lemma ensure_all_made dirs (s : state) :
  Forall (fun d => made (root s) [] d) dirs ->
  for_each dirs (fun directory => ensure_dir directory ;; ret tt) s = (Return tt, s).
Proof.
  induction 1 as [|d dirs Hd _ IH]; [done|].
  cbn [for_each]. unfold bind at 1 2. by rewrite (ensure_dir_made d s Hd).
Qed.

(** [setup_directories] is idempotent: after a run that returned, a
    second run finds the four directories, changes nothing in the file
    system and returns; the first run only added to what was there. *)
Theorem setup_directories_is_idempotent home (s s' : state) :
  DotfilesInstaller.setup_directories home s = (Return tt, s') ->
  fst (DotfilesInstaller.setup_directories home s') = Return tt
  /\ root (snd (DotfilesInstaller.setup_directories home s')) = root s'
  /\ Forall (fun d => made (root s') [] d) (DotfilesInstaller.directories home)
  /\ extends (root s) (root s').
Proof.
  unfold DotfilesInstaller.setup_directories. intros Hrun.
  unfold bind at 1 in Hrun. unfold Logger.info at 1 in Hrun.
  unfold Logger._log, modify in Hrun. cbn beta iota in Hrun.
  unfold bind at 1 in Hrun.
  match type of Hrun with
  | context [for_each ?dirs ?body ?s0] =>
      destruct (for_each dirs body s0) as [[[]|e] s1] eqn:Hall; [|done]
  end.
  apply ensure_all_inv in Hall as (Hmade & Hext & Hlog & Hnow).
  unfold Logger.success, Logger._log, modify in Hrun. injection Hrun as <-.
  assert (Hmade' : forall l, Forall (fun d => made (root (Logger.set_log l s1)) [] d)
                                    (DotfilesInstaller.directories home))
    by (intros l; by destruct s1).
  split; [|split; [|split]].
  - unfold bind at 1. unfold Logger.info at 1. unfold Logger._log, modify.
    cbn beta iota. unfold bind at 1. by rewrite ensure_all_made.
  - unfold bind at 1. unfold Logger.info at 1. unfold Logger._log, modify.
    cbn beta iota. unfold bind at 1. rewrite ensure_all_made by done.
    by destruct s1.
  - eapply Forall_impl; [apply (Hmade' [])|]. intros d Hd. by destruct s1.
  - by destruct s, s1.
Qed.

Lemma setup_directories_is_idempotent_witness :
  DotfilesInstaller.setup_directories ["home"; "user"] booted
  = (Return tt, snd (DotfilesInstaller.setup_directories ["home"; "user"] booted))
  /\ root (snd (DotfilesInstaller.setup_directories ["home"; "user"]
                  (snd (DotfilesInstaller.setup_directories ["home"; "user"] booted))))
     = root (snd (DotfilesInstaller.setup_directories ["home"; "user"] booted)).
Proof.
  assert (Hrun : DotfilesInstaller.setup_directories ["home"; "user"] booted
                 = (Return tt,
                    snd (DotfilesInstaller.setup_directories ["home"; "user"] booted)))
    by (vm_compute; reflexivity).
  split; [exact Hrun|].
  exact (proj1 (proj2 (setup_directories_is_idempotent _ _ _ Hrun))).
Defined.

(** *** Steps that neither exit nor log an error *)

Lemma quiet_ret {A} (a : A) : quiet (ret a).
Proof.
  intros s. split; [|done]. exists []. simpl. by rewrite app_nil_r.
Qed.

Lemma quiet_at_bind {A B} (c : M state A) (k : A -> M state B) s :
  quiet_at s c -> (forall a s1, c s = (Return a, s1) -> quiet_at s1 (k a)) ->
  quiet_at s (bind c k).
Proof.
  intros [(l & Hl & Hok) Hc] Hk. unfold quiet_at, bind.
  destruct (c s) as [[a|e] s1] eqn:Hrun; simpl in *.
  - destruct (Hk a s1 eq_refl) as [(l' & Hl' & Hok') Hk'].
    split; [|done]. exists (l ++ l'). rewrite Hl', Hl, app_assoc.
    split; [done|]. by apply Forall_app.
  - split; [by exists l|]. intros code [= ->]. by apply (Hc code).
Qed.

Lemma quiet_bind {A B} (c : M state A) (k : A -> M state B) :
  quiet c -> (forall a, quiet (k a)) -> quiet (bind c k).
Proof. intros Hc Hk s. apply quiet_at_bind; [apply Hc|]. intros a s1 _. apply Hk. Qed.

Lemma quiet_gets {A} (f : state -> A) : quiet (gets f).
Proof.
  intros s. split; [|done]. exists []. simpl. by rewrite app_nil_r.
Qed.

Lemma quiet_success message : quiet (Logger.success message).
Proof.
  intros s. split; [|done]. eexists [_]. split; [reflexivity|]. by constructor.
Qed.

Lemma quiet_raise {A} (e : exn) :
  (forall code, e <> SystemExit code) -> quiet (raise (A:=A) e).
Proof.
  intros He s. split; [|intros code [= ?]; by eapply He].
  exists []. simpl. by rewrite app_nil_r.
Qed.

Lemma quiet_write q x error : quiet (write q x error).
Proof.
  intros s. unfold quiet_at, write.
  destruct (set_entry (root s) q x); simpl; (split; [|done]);
    exists []; by rewrite app_nil_r.
Qed.

Lemma quiet_mkdir_parents p : quiet (mkdir_parents p).
Proof.
  intros s. unfold quiet_at, mkdir_parents.
  destruct (makedirs (root s) [] p); simpl; (split; [|done]);
    exists []; by rewrite app_nil_r.
Qed.

Ltac quiet_cases :=
  repeat first
    [ apply quiet_write
    | apply quiet_raise; done
    | apply quiet_ret
    | match goal with
      | |- quiet (match ?x with _ => _ end) => destruct x
      end ].

Lemma quiet_copy2 src dst : quiet (copy2 src dst).
Proof.
  unfold copy2. apply quiet_bind; [apply quiet_gets|intros fs]. quiet_cases.
Qed.

Lemma quiet_copytree src dst : quiet (copytree src dst).
Proof.
  unfold copytree. apply quiet_bind; [apply quiet_gets|intros fs]. quiet_cases.
Qed.

Lemma quiet_unlink p : quiet (unlink p).
Proof.
  unfold unlink. apply quiet_bind; [apply quiet_gets|intros fs]. quiet_cases.
Qed.

Lemma quiet_symlink_to target source : quiet (symlink_to target source).
Proof.
  unfold symlink_to. apply quiet_bind; [apply quiet_gets|intros fs]. quiet_cases.
Qed.

Lemma quiet_backup p : quiet (backup p).
Proof.
  unfold backup. apply quiet_bind; [apply quiet_gets|intros fs].
  destruct (negb (Path_exists fs p)); [apply quiet_ret|].
  apply quiet_bind; [apply quiet_gets|intros timestamp].
  apply quiet_bind; [destruct (Path_is_dir fs p); [apply quiet_copytree|apply quiet_copy2]|].
  intros _. apply quiet_bind; [apply quiet_success|intros _; apply quiet_ret].
Qed.

(** What [symlink] does once the source is known to exist. *)
Lemma quiet_link fs source target flag :
  quiet ((if Path_exists fs target || Path_is_symlink fs target then
            (if flag : bool then backup target ;; ret tt else ret tt) ;;
            unlink target
          else ret tt) ;;
         mkdir_parents (parent target) ;;
         symlink_to target source ;;
         Logger.success ("Created symlink " ++ show target ++ " → " ++ show source)).
Proof.
  apply quiet_bind.
  - destruct (Path_exists fs target || Path_is_symlink fs target); [|apply quiet_ret].
    apply quiet_bind; [|intros _; apply quiet_unlink].
    destruct flag; [|apply quiet_ret].
    apply quiet_bind; [apply quiet_backup|intros _; apply quiet_ret].
  - intros _. apply quiet_bind; [apply quiet_mkdir_parents|intros _].
    apply quiet_bind; [apply quiet_symlink_to|intros _; apply quiet_success].
Qed.

Lemma symlink_unfold source target flag (s : state) :
  Path_exists (root s) source = true ->
  symlink source target flag s
  = ((if Path_exists (root s) target || Path_is_symlink (root s) target then
        (if flag : bool then backup target ;; ret tt else ret tt) ;;
        unlink target
      else ret tt) ;;
     mkdir_parents (parent target) ;;
     symlink_to target (Path_resolve (root s) source) ;;
     Logger.success ("Created symlink " ++ show target ++ " → "
                     ++ show (Path_resolve (root s) source))) s.
Proof.
  intros Hsource. unfold symlink. unfold bind at 1. unfold gets at 1.
  cbn beta iota. by rewrite (Path_resolve_exists _ _ Hsource).
Qed.

(** *** More on [symlink] and [setup_dotfiles] *)


(** [setup_dotfiles] links only the sources that exist, so it never
    reaches the error of [symlink]: it does not leave the process and logs
    no error.  When none of the three sources exists it changes and logs
    nothing. *)
Theorem setup_dotfiles_never_exits home dotfiles_root (s : state) :
  (forall code,
     fst (ShellEnvironment.setup_dotfiles home dotfiles_root s)
     <> Raise (SystemExit code))
  /\ (exists l,
        log (snd (ShellEnvironment.setup_dotfiles home dotfiles_root s)) = log s ++ l
        /\ Forall (fun r => is_error r = false) l)
  /\ (Forall (fun st => Path_exists (root s) (fst st) = false)
             (ShellEnvironment.dotfiles home dotfiles_root) ->
      ShellEnvironment.setup_dotfiles home dotfiles_root s = (Return tt, s)).
Proof.
  assert (Hbody : forall source target,
             quiet (fs <- gets root ;;
                    if Path_exists fs source then symlink source target true
                    else ret tt)).
  { intros source target s0. apply quiet_at_bind; [apply quiet_gets|].
    intros fs s1 [= <- <-].
    destruct (Path_exists (root s0) source) eqn:Hsource; [|apply quiet_ret].
    unfold quiet_at. rewrite symlink_unfold by done.
    exact (quiet_link (root s0) (Path_resolve (root s0) source) target true s0). }
  assert (Hall : forall pairs : list (path * path),
             quiet (for_each pairs
                      (fun '(source, target) =>
                         fs <- gets root ;;
                         if Path_exists fs source then symlink source target true
                         else ret tt))).
  { induction pairs as [|[source target] pairs IH]; [apply quiet_ret|].
    cbn [for_each]. apply quiet_bind; [apply Hbody|intros _; apply IH]. }
  destruct (Hall (ShellEnvironment.dotfiles home dotfiles_root) s) as [Hl Hc].
  split; [exact Hc|]. split; [exact Hl|].
  unfold ShellEnvironment.setup_dotfiles.
  generalize (ShellEnvironment.dotfiles home dotfiles_root) as pairs. intros pairs.
  induction 1 as [|[source target] pairs Hsource _ IH]; [done|].
  cbn [for_each]. unfold bind at 1 2. unfold gets at 1. cbn beta iota.
  simpl in Hsource. by rewrite Hsource.
Qed.

Lemma mkdir_parents_existing p q es (s : state) :
  realpath (root s) p = Some q -> walk (root s) q = Some (Dir es) ->
  mkdir_parents p s = (Return tt, s).
Proof.
  intros Hq Hes. unfold mkdir_parents.
  rewrite <- (app_nil_r p), (makedirs_resolved (root s) p [] q es [] Hq Hes).
  by destruct s.
Qed.

(** Onto a path where nothing is, in a directory that exists, [symlink]
    makes one thing, a link from the target to the resolved source: the
    directory gains that one entry, everything else stays as it was, the
    link leads to a canonical path, and the only record is the success
    line. *)
Theorem symlink_onto_a_free_path source target flag q es (s : state) :
  Path_exists (root s) source = true ->
  target <> [] ->
  realpath (root s) (parent target) = Some q ->
  walk (root s) q = Some (Dir es) ->
  Dict.lookup (name target) es = None ->
  exists fs',
    symlink source target flag s
    = (Return tt,
       Logger.set_log
         (log s ++ [Logger.success_record
                      ("Created symlink " ++ show target ++ " → "
                       ++ show (Path_resolve (root s) source))])
         (set_root fs' s))
    /\ lstat fs' target = Some (Symlink (Path_resolve (root s) source))
    /\ realpath fs' (Path_resolve (root s) source)
       = Some (Path_resolve (root s) source)
    /\ listdir fs' (parent target) = listdir (root s) (parent target) ++ [name target]
    /\ extends (root s) fs'.
Proof.
  intros Hsource Htarget Hq Hes Hname.
  set (source' := Path_resolve (root s) source).
  destruct (set_entry_fresh_extends q (name target) (Symlink source') (root s) es
              Hes Hname) as (fs' & Hset & Hdir & Hext).
  assert (Hlocate : locate (root s) target = Some (q ++ [name target])).
  { unfold locate. destruct target; [done|]. by rewrite Hq. }
  assert (Hfree : walk (root s) (q ++ [name target]) = None)
    by (by rewrite walk_snoc, Hes).
  assert (Hlstat : lstat (root s) target = None)
    by (unfold lstat; by rewrite Hlocate).
  assert (Hstat : stat_node (root s) target = None).
  { unfold stat_node. rewrite (path_parent_name target Htarget).
    rewrite realpath_snoc_None; [done|]. by rewrite Hq. }
  assert (Hq' : realpath fs' (parent target) = Some q)
    by (by apply (resolve_extends (root s))).
  exists fs'. split; [|split; [|split; [|split; [|done]]]].
  - rewrite symlink_unfold by done. fold source'.
    unfold Path_exists at 1. unfold Path_is_symlink. rewrite Hstat, Hlstat.
    cbn [orb]. unfold bind at 1. unfold ret at 1. cbn beta iota.
    unfold bind at 1. rewrite (mkdir_parents_existing _ q es s Hq Hes).
    cbn beta iota. unfold bind at 1. unfold symlink_to at 1.
    unfold bind at 1. unfold gets at 1. cbn beta iota.
    rewrite Hlstat, Hlocate. unfold write. rewrite Hset. cbn beta iota.
    by destruct s.
  - unfold lstat, locate. destruct target; [done|]. rewrite Hq'.
    rewrite walk_snoc, Hdir, dict_lookup_app, Hname. simpl.
    by rewrite String.eqb_refl.
  - unfold Path_exists, stat_node in Hsource. subst source'. unfold Path_resolve.
    destruct (realpath (root s) source) as [qs|] eqn:Hqs; [|done].
    apply (resolve_extends (root s)); [done|].
    exact (realpath_idempotent (root s) source qs Hqs).
  - unfold listdir, stat_node. rewrite Hq, Hq', Hes, Hdir.
    unfold Dict.keys. by rewrite map_app.
Qed.

Lemma symlink_onto_a_free_path_witness :
  Path_exists (root booted) ["home"; "user"; "Work"; ".dotfiles"; "zsh"; ".zshrc"] = true
  /\ realpath (root booted) (parent ["home"; "user"; ".config"; "zshrc"])
     = Some ["home"; "user"; ".config"]
  /\ lstat (root (snd (symlink ["home"; "user"; "Work"; ".dotfiles"; "zsh"; ".zshrc"]
                               ["home"; "user"; ".config"; "zshrc"] true booted)))
           ["home"; "user"; ".config"; "zshrc"]
     = Some (Symlink ["home"; "user"; "Work"; ".dotfiles"; "zsh"; ".zshrc"]).
Proof.
  split; [reflexivity|]. split; [reflexivity|].
  destruct (symlink_onto_a_free_path
              ["home"; "user"; "Work"; ".dotfiles"; "zsh"; ".zshrc"]
              ["home"; "user"; ".config"; "zshrc"] true
              ["home"; "user"; ".config"] _ booted
              eq_refl ltac:(discriminate) eq_refl eq_refl eq_refl)
    as (fs' & Hrun & Hlink & _).
  rewrite Hrun. exact Hlink.
Defined.

End Directories.

(** ** More on the configuration *)

Section Merging.
Import Config Shape.
Local Open Scope list_scope.

(** *** The union of two trees *)

Lemma dict_elem_lookup {A} k (x : A) d :
  NoDup (Dict.keys d) -> (k, x) ∈ d -> Dict.lookup k d = Some x.
Proof.
  induction d as [|[k' y] d IH]; intros Hnd Hin; [by apply elem_of_nil in Hin|].
  apply NoDup_cons in Hnd as [Hk' Hnd]. simpl.
  apply elem_of_cons in Hin as [[= -> ->]|Hin].
  - by rewrite String.eqb_refl.
  - destruct (String.eqb_spec k' k) as [->|]; [|by apply IH].
    destruct Hk'. apply list_elem_of_fmap. by exists (k, x).
Qed.

Lemma has_key_elem {A} k (x : A) d : (k, x) ∈ d -> Dict.has_key k d = true.
Proof.
  unfold Dict.has_key. induction d as [|[k' y] d IH]; intros Hin;
    [by apply elem_of_nil in Hin|].
  simpl. destruct (String.eqb_spec k' k) as [->|]; [done|].
  apply elem_of_cons in Hin as [[= -> ->]|Hin]; [done|by apply IH].
Qed.

Lemma filter_none {A} (test : A -> bool) (l : list A) :
  (forall x, x ∈ l -> test x = false) -> List.filter test l = [].
Proof.
  induction l as [|x l IH]; intros Hall; [done|]. simpl.
  rewrite (Hall x) by (by left). apply IH. intros y Hy. apply Hall. by right.
Qed.

Lemma map_fixed {A} (f : A -> A) (l : list A) :
  (forall x, x ∈ l -> f x = x) -> map f l = l.
Proof.
  induction l as [|x l IH]; intros Hall; [done|]. simpl.
  rewrite (Hall x) by (by left). f_equal. apply IH. intros y Hy. apply Hall. by right.
Qed.

Lemma keys_filter_sub {A} (test : string * A -> bool) d k :
  k ∈ Dict.keys (List.filter test d) ->
  exists x, (k, x) ∈ d /\ test (k, x) = true.
Proof.
  unfold Dict.keys. intros Hk. apply list_elem_of_fmap in Hk as ([k' x] & -> & Hin).
  apply list_elem_of_In, filter_In in Hin as [Hin Ht].
  exists x. split; [by apply list_elem_of_In|done].
Qed.

Lemma NoDup_keys_filter {A} (test : string * A -> bool) d :
  NoDup (Dict.keys d) -> NoDup (Dict.keys (List.filter test d)).
Proof.
  induction d as [|[k x] d IH]; intros Hnd; [done|].
  apply NoDup_cons in Hnd as [Hk Hnd]. simpl.
  destruct (test (k, x)); [|by apply IH]. simpl. apply NoDup_cons. split; [|by apply IH].
  intros Hin. apply keys_filter_sub in Hin as (y & Hy & _).
  apply Hk. apply list_elem_of_fmap. by exists (k, y).
Qed.

(** The union of two trees of distinct keys has distinct keys. *)
Lemma union_distinct d : forall o,
  distinct_keys d -> distinct_keys o -> distinct_keys (union d o).
Proof.
  induction d as [| | | | | | |ds IH] using tree_ind'; intros o Hd Ho; try done.
  destruct o as [| | | | | | |os]; try done.
  cbn [union]. apply distinct_keys_dict in Hd as [Hnd Hds].
  apply distinct_keys_dict in Ho as [Hno Hos].
  apply distinct_keys_dict. split.
  - unfold Dict.keys. rewrite map_app, map_map. simpl.
    apply NoDup_app. split; [done|]. split; [|by apply NoDup_keys_filter].
    intros k Hk Hk'. apply keys_filter_sub in Hk' as (x & Hx & Hnew).
    apply negb_true_iff in Hnew. simpl in Hnew.
    apply list_elem_of_fmap in Hk as ([k' y] & -> & Hy). simpl in Hnew.
    by rewrite (has_key_elem _ _ _ Hy) in Hnew.
  - apply Forall_app. split.
    + apply Forall_forall. intros [k v] Hin.
      apply list_elem_of_fmap in Hin as ([k' x] & [= -> ->] & Hx). simpl.
      rewrite Forall_forall in IH, Hds.
      destruct (Dict.lookup k' os) as [o'|] eqn:Ho'; [|by apply (Hds _ Hx)].
      apply (IH _ Hx); [by apply (Hds _ Hx)|].
      rewrite Forall_forall in Hos. by apply (Hos _ (dict_lookup_elem _ _ _ Ho')).
    + apply Forall_forall. intros kv Hin.
      apply list_elem_of_In, filter_In in Hin as [Hin _].
      rewrite Forall_forall in Hos. by apply Hos, list_elem_of_In.
Qed.

(** A tree merged into itself is itself. *)
Lemma union_self o : distinct_keys o -> union o o = o.
Proof.
  induction o as [| | | | | | |os IH] using tree_ind'; intros Ho; try done.
  cbn [union]. apply distinct_keys_dict in Ho as [Hno Hos].
  rewrite Forall_forall in IH, Hos. f_equal.
  rewrite filter_none, app_nil_r.
  - apply map_fixed. intros [k v] Hin. simpl.
    rewrite (dict_elem_lookup _ _ _ Hno Hin). f_equal.
    by apply (IH _ Hin), (Hos _ Hin).
  - intros [k v] Hin. simpl. by rewrite (has_key_elem _ _ _ Hin).
Qed.

(** Merging the same override a second time changes nothing. *)
Lemma union_idempotent d : forall o,
  distinct_keys d -> distinct_keys o -> union (union d o) o = union d o.
Proof.
  induction d as [| | | | | | |ds IH] using tree_ind'; intros o Hd Ho;
    try (by apply union_self).
  destruct o as [| | | | | | |os]; try done.
  pose proof Hd as [Hnd Hds]%distinct_keys_dict.
  pose proof Ho as [Hno Hos]%distinct_keys_dict.
  rewrite Forall_forall in IH, Hds, Hos.
  cbn [union].
  set (merged := map _ ds ++ List.filter _ os).
  f_equal. rewrite (filter_none (fun kv => negb (Dict.has_key (fst kv) merged)) os),
    app_nil_r.
  - subst merged. rewrite map_app. f_equal.
    + rewrite map_map. apply map_ext_in. intros [k v] Hin%list_elem_of_In. simpl.
      destruct (Dict.lookup k os) as [o'|] eqn:Ho'; [|done]. f_equal.
      apply (IH _ Hin); [by apply (Hds _ Hin)|].
      by apply (Hos _ (dict_lookup_elem _ _ _ Ho')).
    + apply map_fixed. intros [k v] Hin. simpl.
      apply list_elem_of_In, filter_In in Hin as [Hin%list_elem_of_In _].
      rewrite (dict_elem_lookup _ _ _ Hno Hin). f_equal.
      by apply union_self, (Hos _ Hin).
  - intros [k v] Hin. simpl. apply negb_false_iff. unfold Dict.has_key.
    subst merged. rewrite lookup_union, (dict_elem_lookup _ _ _ Hno Hin).
    by destruct (Dict.lookup k ds).
Qed.

(** A key that the override resolves to something that is not a mapping
    resolves to that in the union, whatever the defaults hold. *)
Lemma tree_get_union_wins keys : forall d o ov,
  keys <> [] -> tree_get keys o = Some ov -> is_dict ov = false ->
  tree_get keys (union d o) = Some ov.
Proof.
  induction keys as [|k ks IH]; intros d o ov Hne Ho Hov; [done|].
  destruct (tree_get_dict _ _ _ _ Ho) as (os & y & -> & Hk & Hy & Hks).
  destruct d as [| | | | | | |ds]; try done.
  cbn [union].
  destruct (Dict.lookup k ds) as [x|] eqn:Hx.
  - rewrite (tree_get_step k _ _ (union x y)).
    + destruct ks as [|k' ks'].
      * simpl in *. simplify_eq.
        by rewrite union_not_dict by (by rewrite Hov, andb_false_r).
      * by apply IH.
    + by rewrite lookup_union, Hx, Hk.
    + destruct ks as [|k' ks'].
      * simpl in *. simplify_eq.
        by rewrite union_not_dict by (by rewrite Hov, andb_false_r).
      * destruct (tree_get_dict _ _ _ _ Hks) as (ys & _ & -> & _).
        by destruct x.
  - rewrite (tree_get_step k _ _ y); [done| |done].
    by rewrite lookup_union, Hx, Hk.
Qed.

(** *** What a merge keeps and what it replaces *)

(** Whatever the defaults hold, a key that the user file resolves to a
    value that is not a mapping is read back as that value: also a key
    that the defaults do not have, and one under which the defaults hold a
    mapping. *)
Theorem override_always_wins h base items update key fallback ov :
  holds h (LDict base items) -> separated (LDict base items) ->
  distinct_keys (TDict (erase_items items)) -> distinct_keys (TDict update) ->
  tree_get (split "."%char key) (TDict update) = Some ov ->
  is_dict ov = false ->
  exists a,
    get (_merge_config base update h) base key fallback = Atom a
    /\ tree_of_atom a = ov.
Proof.
  intros Hh Hnd Hd Hu Hov Hdict.
  destruct (merge_config_reads h base items update Hh Hnd Hd Hu)
    as (items' & (Hh' & _) & Herase).
  pose proof (get_loop_reads (split "."%char key) (LDict base items')
                (_merge_config base update h) fallback Hh') as Hget.
  rewrite Herase in Hget.
  assert (Hne : split "."%char key <> []).
  { intros E. rewrite E in Hov. simpl in Hov. by simplify_eq. }
  rewrite (tree_get_union_wins _ _ _ ov Hne Hov Hdict) in Hget.
  by apply (reads_atom (_merge_config base update h)).
Qed.

Lemma override_always_wins_witness :
  holds (copied "/home/user") (LDict 2 (default_items "/home/user"))
  /\ separated (LDict 2 (default_items "/home/user"))
  /\ distinct_keys (TDict (erase_items (default_items "/home/user")))
  /\ distinct_keys (TDict [("shell", TStr "fish"); ("editor", TStr "nvim")])
  /\ get (_merge_config 2 [("shell", TStr "fish"); ("editor", TStr "nvim")]
                        (copied "/home/user"))
         2 "editor" (Atom ANone)
     = Atom (AStr "nvim")
  /\ get (_merge_config 2 [("shell", TStr "fish"); ("editor", TStr "nvim")]
                        (copied "/home/user"))
         2 "shell" (Atom ANone)
     = Atom (AStr "fish").
Proof.
  destruct (fresh_class_holds "/home/user") as (Hh & Hnd & Hd & _).
  assert (Hu : distinct_keys (TDict [("shell", TStr "fish"); ("editor", TStr "nvim")]))
    by (repeat split; by apply (bool_decide_unpack _)).
  refine (conj Hh (conj Hnd (conj Hd (conj Hu _)))). split.
  - destruct (override_always_wins (copied "/home/user") 2 (default_items "/home/user")
                [("shell", TStr "fish"); ("editor", TStr "nvim")]
                "editor" (Atom ANone) (TStr "nvim") Hh Hnd Hd Hu eq_refl eq_refl)
      as (a & -> & Ha).
    by destruct a; simplify_eq/=.
  - destruct (override_always_wins (copied "/home/user") 2 (default_items "/home/user")
                [("shell", TStr "fish"); ("editor", TStr "nvim")]
                "shell" (Atom ANone) (TStr "fish") Hh Hnd Hd Hu eq_refl eq_refl)
      as (a & -> & Ha).
    by destruct a; simplify_eq/=.
Defined.

(** Merging the same user configuration a second time changes nothing:
    the configuration reads as the same tree after one merge and after
    two. *)
Theorem merging_twice_is_merging_once h base items update :
  holds h (LDict base items) -> separated (LDict base items) ->
  distinct_keys (TDict (erase_items items)) -> distinct_keys (TDict update) ->
  reads (_merge_config base update h) (Ref base)
        (union (TDict (erase_items items)) (TDict update))
  /\ reads (_merge_config base update (_merge_config base update h)) (Ref base)
           (union (TDict (erase_items items)) (TDict update)).
Proof.
  intros Hh Hnd Hd Hu.
  destruct (merge_config_reads h base items update Hh Hnd Hd Hu)
    as (items1 & (Hh1 & Hnd1 & _) & Herase1).
  split; [by exists (LDict base items1)|].
  assert (Hd1 : distinct_keys (TDict (erase_items items1))).
  { rewrite <- (erase_dict base), Herase1. by apply union_distinct. }
  destruct (merge_config_reads _ base items1 update Hh1 Hnd1 Hd1 Hu)
    as (items2 & (Hh2 & _) & Herase2).
  exists (LDict base items2). split; [done|]. split; [done|].
  rewrite Herase2, <- (erase_dict base), Herase1. by apply union_idempotent.
Qed.

Lemma merging_twice_is_merging_once_witness :
  holds (copied "/home/user") (LDict 2 (default_items "/home/user"))
  /\ separated (LDict 2 (default_items "/home/user"))
  /\ distinct_keys (TDict (erase_items (default_items "/home/user")))
  /\ distinct_keys (TDict [("shell", TDict [("theme", TStr "agnoster")]);
                           ("editor", TStr "nvim")])
  /\ reads (_merge_config 2 [("shell", TDict [("theme", TStr "agnoster")]);
                             ("editor", TStr "nvim")]
              (_merge_config 2 [("shell", TDict [("theme", TStr "agnoster")]);
                                ("editor", TStr "nvim")]
                 (copied "/home/user")))
           (Ref 2)
           (union (TDict (erase_items (default_items "/home/user")))
                  (TDict [("shell", TDict [("theme", TStr "agnoster")]);
                          ("editor", TStr "nvim")])).
Proof.
  destruct (fresh_class_holds "/home/user") as (Hh & Hnd & Hd & _).
  assert (Hu : distinct_keys (TDict [("shell", TDict [("theme", TStr "agnoster")]);
                                     ("editor", TStr "nvim")]))
    by (repeat split; by apply (bool_decide_unpack _)).
  refine (conj Hh (conj Hnd (conj Hd (conj Hu _)))).
  exact (proj2 (merging_twice_is_merging_once (copied "/home/user") 2
                  (default_items "/home/user") _ Hh Hnd Hd Hu)).
Defined.

(** Merging a user file never touches the items of [DEFAULT_CONFIG]
    itself: the class attribute keeps its five items, so a configuration
    built afterwards reads every key of one segment under which the defaults
    hold no mapping ([dotfiles_root], [backup_dir], [tools], [fonts]) at its
    built-in value.  Only what lies inside the mapping under [shell] can be
    changed through the shared object. *)
Theorem merge_keeps_the_top_level_defaults home update :
  distinct_keys (TDict update) ->
  fst (configured home update) = Return 2
  /\ deref (snd (configured home update)) DEFAULT_CONFIG
     = deref (class_store home) DEFAULT_CONFIG
  /\ (forall key a,
        among "."%char key = false ->
        get (class_store home) DEFAULT_CONFIG key (Atom ANone) = Atom a ->
        fst (__init__ None (snd (configured home update)))
        = Return (length (snd (configured home update)))
        /\ get (snd (__init__ None (snd (configured home update))))
               (length (snd (configured home update))) key (Atom ANone)
           = Atom a).
Proof.
  intros Hu.
  destruct (fresh_class_holds home) as (Hh & Hnd & Hd & _).
  destruct (merge_config_reads (copied home) 2 (default_items home) update Hh Hnd Hd Hu)
    as (items' & (_ & _ & _ & _ & Hframe & _) & _).
  assert (Hrun : configured home update
                 = (Return 2, _merge_config 2 update (copied home)))
    by reflexivity.
  assert (Hsame : deref (_merge_config 2 update (copied home)) DEFAULT_CONFIG
                  = deref (class_store home) DEFAULT_CONFIG).
  { unfold deref, DEFAULT_CONFIG. rewrite (Hframe 1); [done|simpl; lia|].
    by apply (bool_decide_unpack _). }
  rewrite Hrun. cbn [fst snd]. split; [done|]. split; [done|].
  intros key a Hkey Hget. split; [done|].
  unfold get in *. rewrite (split_absent _ _ Hkey) in *.
  unfold __init__, bind, dict_copy, ret. cbn [fst snd get_loop] in *.
  unfold deref at 1. rewrite list_lookup_middle by done. cbn [default].
  fold (deref (_merge_config 2 update (copied home)) DEFAULT_CONFIG).
  by rewrite Hsame.
Qed.

Lemma merge_keeps_the_top_level_defaults_witness :
  distinct_keys (TDict [("shell", TDict [("theme", TStr "robbyrussell")]);
                        ("tools", TList [TStr "ripgrep"])])
  /\ get (snd (__init__ None
                 (snd (configured "/home/user"
                         [("shell", TDict [("theme", TStr "robbyrussell")]);
                          ("tools", TList [TStr "ripgrep"])]))))
         (length (snd (configured "/home/user"
                         [("shell", TDict [("theme", TStr "robbyrussell")]);
                          ("tools", TList [TStr "ripgrep"])])))
         "fonts" (Atom ANone)
     = Atom (AList [TStr "FiraCode"; TStr "JetBrainsMono"; TStr "Iosevka"]).
Proof.
  assert (Hu : distinct_keys (TDict [("shell", TDict [("theme", TStr "robbyrussell")]);
                                     ("tools", TList [TStr "ripgrep"])]))
    by (repeat split; by apply (bool_decide_unpack _)).
  split; [exact Hu|].
  exact (proj2 (proj2 (proj2 (merge_keeps_the_top_level_defaults "/home/user" _ Hu))
                  "fonts" _ eq_refl eq_refl)).
Defined.

End Merging.

(** ** The synchronizers on every working copy *)

Section Pulls.
Local Open Scope list_scope.






End Pulls.


(** ** The terminal *)

Section Terminal.
Context {X : Type}.
Import Console.
Local Open Scope list_scope.









Section Menu.
Variables run_full_install run_shell_only run_python_only desktop_install
  : M (state X) unit.


End Menu.

End Terminal.

